(** * Metro map planner: SAT encoder and decoder

    A shallow embedding of [Code/metro_map_planner.py] (class
    [MetroMapPlanner]) and the properties of its variable registry, its
    cardinality encoders, its path and turn encoders and its decoder.

    Python integers are [Z]; the dictionary [var_map] is a [gmap string Z];
    clauses are lists of signed integers; the methods that mutate
    [self.var_counter], [self.var_map] and [self.clauses] are computations
    of a small state monad over the record [store]. *)

From Stdlib Require Import ZArith List String Ascii Lia Decimal DecimalString DecimalZ.
From stdpp Require Import gmap strings list fin_maps fin_sets.

Local Open Scope string_scope.
Local Open Scope list_scope.
Local Open Scope Z_scope.

(** ** Keys and their names *)

(** The positional arguments of [get_var]: strings and integers. *)
Inductive arg : Type :=
  | AStr (s : string)
  | AInt (z : Z).

(** [str(int)]: decimal digits, with a leading minus sign when negative. *)
Definition str_int (z : Z) : string := NilEmpty.string_of_int (Z.to_int z).

(** [str(a)] for an argument of [get_var]. *)
Definition str (a : arg) : string :=
  match a with
  | AStr s => s
  | AInt z => str_int z
  end.

(** [sep.join(l)]. *)
Fixpoint join (sep : string) (l : list string) : string :=
  match l with
  | [] => ""
  | [s] => s
  | s :: l' => s +:+ sep +:+ join sep l'
  end.

(** ["_".join(map(str, args))]. *)
Definition var_name (args : list arg) : string := join "_" (map str args).

(** The key families the planner uses. *)
Definition key_C (x y k : Z) : list arg := [AStr "C"; AInt x; AInt y; AInt k].
Definition key_D (x y k : Z) (d : string) : list arg :=
  [AStr "D"; AInt x; AInt y; AInt k; AStr d].
Definition key_T (x y k : Z) : list arg := [AStr "T"; AInt x; AInt y; AInt k].
Definition key_SEQ (vid i j : Z) : list arg := [AStr "SEQ"; AInt vid; AInt i; AInt j].

(** ** The problem instance and the encoder state *)

(** The fields [parse_input] fills in. *)
Record city : Type := {
  scenario : Z;
  N : Z;
  M : Z;
  K : Z;
  J : Z;
  P : Z;
  starts : list (Z * Z);
  ends : list (Z * Z);
  popular : list (Z * Z)
}.

(** The fields the encoders mutate. *)
Record store : Type := {
  var_counter : Z;
  clauses : list (list Z);
  var_map : gmap string Z
}.

(** The state [encode_to_sat] starts from. *)
Definition reset : store := {| var_counter := 0; clauses := []; var_map := ∅ |}.

(** ** A state monad for the methods *)

Definition enc (A : Type) : Type := store → A * store.

Definition ret {A} (a : A) : enc A := fun st => (a, st).

Definition bind {A B} (m : enc A) (f : A → enc B) : enc B :=
  fun st => let '(a, st') := m st in f a st'.

Notation "x <- c ;; k" := (bind c (fun x => k))
  (at level 100, c at next level, right associativity).
Notation "c ;; k" := (bind c (fun _ => k))
  (at level 100, right associativity).

Definition exec {A} (m : enc A) (st : store) : store := (m st).2.
Definition eval {A} (m : enc A) (st : store) : A := (m st).1.

(** [for a in l: body(a)]. *)
Fixpoint for_ {A} (l : list A) (body : A → enc unit) : enc unit :=
  match l with
  | [] => ret tt
  | a :: l' => body a ;; for_ l' body
  end.

(** A loop whose body appends to a list that is local to the method:
    [body a] returns what iteration [a] appends. *)
Fixpoint collect {A B} (l : list A) (body : A → enc (list B)) : enc (list B) :=
  match l with
  | [] => ret []
  | a :: l' => xs <- body a ;; ys <- collect l' body ;; ret (xs ++ ys)
  end.

(** [range(n)] and [range(a, b)]. *)
Definition range (n : Z) : list Z := map Z.of_nat (seq 0 (Z.to_nat n)).
Definition range2 (a b : Z) : list Z := map (fun i => a + Z.of_nat i) (seq 0 (Z.to_nat (b - a))).

(** ** Variable registry and clause store *)

Definition get_var (args : list arg) : enc Z := fun st =>
  let name := var_name args in
  match var_map st !! name with
  | Some v => (v, st)
  | None =>
      let c := var_counter st + 1 in
      (c, {| var_counter := c;
             clauses := clauses st;
             var_map := <[name := c]> (var_map st) |})
  end.

Definition add_clause (literals : list Z) : enc unit := fun st =>
  match literals with
  | [] => (tt, st)
  | _ => (tt, {| var_counter := var_counter st;
                 clauses := clauses st ++ [literals];
                 var_map := var_map st |})
  end.

(** ** Cardinality encoders *)

(** [l[i]] for an index [0 <= i < len(l)]; the planner never indexes a
    list of variables outside that range. *)
Definition item (l : list Z) (i : Z) : Z := l !!! Z.to_nat i.

Definition len {A} (l : list A) : Z := Z.of_nat (length l).

(** The truth value of a list: it is not empty. *)
Definition truthy {A} (l : list A) : bool :=
  match l with
  | [] => false
  | _ => true
  end.

Definition encode_at_most_one (variables : list Z) : enc unit :=
  for_ (range (len variables)) (fun i =>
    for_ (range2 (i + 1) (len variables)) (fun j =>
      add_clause [- item variables i; - item variables j])).

Definition encode_exactly_one (variables : list Z) : enc unit :=
  match variables with
  | [] => ret tt
  | _ => add_clause variables ;; encode_at_most_one variables
  end.

(** [itertools.combinations(l, r)]: the [r]-element subsequences of [l],
    in lexicographic order of positions. *)
Fixpoint combinations {A} (l : list A) (r : nat) : list (list A) :=
  match l, r with
  | _, O => [[]]
  | [], S _ => []
  | x :: l', S r' => map (cons x) (combinations l' r') ++ combinations l' r
  end.

(** [vid] is the value of [id(variables)] in this call. *)
Definition encode_at_most_k_simple (vid : Z) (variables : list Z) (k : Z) : enc unit :=
  let n := len variables in
  if n <=? k then ret tt
  else if k <? 0 then for_ variables (fun v => add_clause [- v])
  else if k <=? 3 then
    for_ (combinations variables (Z.to_nat (k + 1))) (fun subset =>
      add_clause (map Z.opp subset))
  else
    for_ (range (n + 1)) (fun i =>
      for_ (range (Z.min i k + 2)) (fun j =>
        s <- get_var (key_SEQ vid i j) ;;
        if i =? 0 then
          if j =? 0 then add_clause [s] else add_clause [- s]
        else if i <? j then add_clause [- s]
        else
          let x := item variables (i - 1) in
          if j =? 0 then
            s_prev <- get_var (key_SEQ vid (i - 1) 0) ;;
            add_clause [- x; - s] ;;
            add_clause [x; - s_prev; s] ;;
            add_clause [- s; s_prev]
          else if j <=? k then
            s_prev_j <- get_var (key_SEQ vid (i - 1) j) ;;
            s_prev_j1 <- get_var (key_SEQ vid (i - 1) (j - 1)) ;;
            add_clause [- x; - s_prev_j1; s] ;;
            add_clause [x; - s_prev_j; s] ;;
            add_clause [- s; x; s_prev_j] ;;
            add_clause [- s; - x; s_prev_j1]
          else ret tt)) ;;
    valid_states <- collect (range (k + 1)) (fun j =>
      v <- get_var (key_SEQ vid n j) ;; ret [v]) ;;
    add_clause valid_states.

(** ** The constraint encoders *)

Definition encode_cell_constraints (c : city) : enc unit :=
  for_ (range (N c)) (fun x =>
    for_ (range (M c)) (fun y =>
      cell_vars <- collect (range (K c)) (fun k =>
        v <- get_var (key_C x y k) ;; ret [v]) ;;
      encode_at_most_one cell_vars)).

(** The dictionary [directions] (and [dirs]), in insertion order. *)
Definition directions : list (string * (Z * Z)) :=
  [("L", (-1, 0)); ("R", (1, 0)); ("U", (0, -1)); ("D", (0, 1))].

(** [0 <= x < self.N and 0 <= y < self.M]. *)
Definition in_bounds (c : city) (p : Z * Z) : bool :=
  (0 <=? p.1) && (p.1 <? N c) && (0 <=? p.2) && (p.2 <? M c).

Definition cell_eqb (p q : Z * Z) : bool := (p.1 =? q.1) && (p.2 =? q.2).

(** The in-bound outgoing edge variables of [(x, y)]. *)
Definition out_dirs_of (c : city) (k x y : Z) : enc (list Z) :=
  collect directions (fun '(d, (dx, dy)) =>
    if in_bounds c (x + dx, y + dy)
    then v <- get_var (key_D x y k d) ;; ret [v]
    else ret []).

(** The in-bound incoming edge variables of [(x, y)]. *)
Definition inc_dirs_of (c : city) (k x y : Z) : enc (list Z) :=
  collect directions (fun '(d, (dx, dy)) =>
    if in_bounds c (x - dx, y - dy)
    then v <- get_var (key_D (x - dx) (y - dy) k d) ;; ret [v]
    else ret []).

(** The body of the loop over cells of [encode_path_constraints]. *)
Definition path_cell (c : city) (k : Z) (s e : Z * Z) (x y : Z) : enc unit :=
  cell_var <- get_var (key_C x y k) ;;
  for_ directions (fun '(d, _) =>
    v <- get_var (key_D x y k d) ;; add_clause [- v; cell_var]) ;;
  (if cell_eqb (x, y) s then
     out_dirs <- out_dirs_of c k x y ;;
     encode_exactly_one out_dirs ;;
     for_ directions (fun '(d, (dx, dy)) =>
       if in_bounds c (x - dx, y - dy)
       then v <- get_var (key_D (x - dx) (y - dy) k d) ;; add_clause [- v]
       else ret tt)
   else if cell_eqb (x, y) e then
     for_ directions (fun '(d, _) =>
       v <- get_var (key_D x y k d) ;; add_clause [- v]) ;;
     inc_dirs <- inc_dirs_of c k x y ;;
     encode_exactly_one inc_dirs
   else
     out_dirs <- out_dirs_of c k x y ;;
     inc_dirs <- inc_dirs_of c k x y ;;
     (match out_dirs with
      | [] => ret tt
      | _ => add_clause ([- cell_var] ++ out_dirs) ;; encode_at_most_one out_dirs
      end) ;;
     (match inc_dirs with
      | [] => ret tt
      | _ => add_clause ([- cell_var] ++ inc_dirs) ;; encode_at_most_one inc_dirs
      end) ;;
     for_ (out_dirs ++ inc_dirs) (fun v => add_clause [cell_var; - v])) ;;
  for_ directions (fun '(d, (dx, dy)) =>
    if in_bounds c (x + dx, y + dy)
    then
      dir_var <- get_var (key_D x y k d) ;;
      next_cell <- get_var (key_C (x + dx) (y + dy) k) ;;
      add_clause [- dir_var; next_cell]
    else ret tt).

(** The body of the loop over lines of [encode_path_constraints]. *)
Definition path_line (c : city) (k : Z) (s e : Z * Z) : enc unit :=
  v <- get_var (key_C s.1 s.2 k) ;; add_clause [v] ;;
  v <- get_var (key_C e.1 e.2 k) ;; add_clause [v] ;;
  for_ (range (N c)) (fun x => for_ (range (M c)) (fun y => path_cell c k s e x y)).

(** A loop over the lines: [self.starts[k]] and [self.ends[k]] raise
    [IndexError] ([None]) when the list is too short. *)
Fixpoint for_lines (c : city) (ks : list Z) (body : Z → Z * Z → Z * Z → enc unit)
    (st : store) : option store :=
  match ks with
  | [] => Some st
  | k :: ks' =>
      match starts c !! Z.to_nat k, ends c !! Z.to_nat k with
      | Some s, Some e => for_lines c ks' body (exec (body k s e) st)
      | _, _ => None
      end
  end.

Definition encode_path_constraints (c : city) (st : store) : option store :=
  for_lines c (range (K c)) (path_line c) st.

(** The body of the loop over cells of [encode_turn_constraints]; it
    returns what the iteration appends to [turn_vars]. *)
Definition turn_cell (c : city) (k : Z) (s e : Z * Z) (x y : Z) : enc (list Z) :=
  if cell_eqb (x, y) s || cell_eqb (x, y) e then ret []
  else
    turn_var <- get_var (key_T x y k) ;;
    for_ directions (fun '(d_in, (dx_in, dy_in)) =>
      if negb (in_bounds c (x - dx_in, y - dy_in)) then ret tt
      else
        in_var <- get_var (key_D (x - dx_in) (y - dy_in) k d_in) ;;
        for_ directions (fun '(d_out, (dx_out, dy_out)) =>
          if negb (in_bounds c (x + dx_out, y + dy_out)) then ret tt
          else
            out_var <- get_var (key_D x y k d_out) ;;
            if negb (String.eqb d_in d_out)
            then add_clause [- in_var; - out_var; turn_var]
            else add_clause [- in_var; - out_var; - turn_var])) ;;
    ret [turn_var].

(** The body of the loop over lines of [encode_turn_constraints];
    [ids k] is the value of [id(turn_vars)] for line [k]. *)
Definition turn_line (c : city) (ids : Z → Z) (k : Z) (s e : Z * Z) : enc unit :=
  turn_vars <- collect (range (N c)) (fun x =>
    collect (range (M c)) (fun y => turn_cell c k s e x y)) ;;
  if (0 <=? J c) && truthy turn_vars
  then encode_at_most_k_simple (ids k) turn_vars (J c)
  else ret tt.

Definition encode_turn_constraints (c : city) (ids : Z → Z) (st : store) : option store :=
  for_lines c (range (K c)) (turn_line c ids) st.

Definition encode_popular_constraints (c : city) : enc unit :=
  if negb (scenario c =? 2) then ret tt
  else
    for_ (popular c) (fun '(x, y) =>
      popular_clause <- collect (range (K c)) (fun k =>
        v <- get_var (key_C x y k) ;; ret [v]) ;;
      add_clause popular_clause).

(** ** The CNF emitter *)

Definition newline : string := String (ascii_of_nat 10) "".

(** The text [encode_to_sat] writes. *)
Definition dimacs (st : store) : string :=
  "p cnf " +:+ str_int (var_counter st) +:+ " " +:+ str_int (len (clauses st)) +:+ newline
  +:+ join "" (map (fun clause => join " " (map str_int clause) +:+ " 0" +:+ newline)
                   (clauses st)).

(** The state after [encode_to_sat], and the text written. *)
Definition encode_to_sat (c : city) (ids : Z → Z) (st : store) : option (string * store) :=
  let st0 := {| var_counter := 0; clauses := []; var_map := ∅ |} in
  let st1 := exec (encode_cell_constraints c) st0 in
  st2 ← encode_path_constraints c st1;
  st3 ← encode_turn_constraints c ids st2;
  let st4 := exec (encode_popular_constraints c) st3 in
  Some (dimacs st4, st4).

(** ** The decoder *)

(** How a call of a method ends. [OutOfFuel] is the answer of a loop that
    is still running when its fuel is spent. *)
Inductive outcome (A : Type) : Type :=
  | Done (a : A)
  | Raised (e : string)
  | OutOfFuel.
Arguments Done {A} a.
Arguments Raised {A} e.
Arguments OutOfFuel {A}.

(** [ch.isspace()] for the characters with code below 256. *)
Definition isspace (ch : ascii) : bool :=
  let n := nat_of_ascii ch in
  ((9 <=? n) && (n <=? 13) || (28 <=? n) && (n <=? 32) || (n =? 133) || (n =? 160))%nat.

Fixpoint lstrip (s : string) : string :=
  match s with
  | String ch s' => if isspace ch then lstrip s' else s
  | EmptyString => EmptyString
  end.

(** [s.strip()]. *)
Definition strip (s : string) : string :=
  String.rev (lstrip (String.rev (lstrip s))).

Fixpoint split_go (cur : string) (s : string) : list string :=
  match s with
  | EmptyString => if decide (cur = "") then [] else [String.rev cur]
  | String ch s' =>
      if isspace ch
      then (if decide (cur = "") then split_go "" s' else String.rev cur :: split_go "" s')
      else split_go (String ch cur) s'
  end.

(** [s.split()]: the maximal runs of characters that are not spaces. *)
Definition split (s : string) : list string := split_go "" s.

(** The direction names the decoder tries, in this order. *)
Definition decode_dirs : list string := ["L"; "R"; "U"; "D"].

(** The updates of [x] and [y] after a step in direction [d]. *)
Definition move (p : Z * Z) (d : string) : Z * Z :=
  if String.eqb d "L" then (p.1 - 1, p.2)
  else if String.eqb d "R" then (p.1 + 1, p.2)
  else if String.eqb d "U" then (p.1, p.2 - 1)
  else if String.eqb d "D" then (p.1, p.2 + 1)
  else p.

Section Decoder.

(** [int(token)] on a token without spaces; [None] is [ValueError]. *)
Variable py_int : string → option Z.

(** The loop over the tokens of one line of the solver output. *)
Fixpoint parse_tokens (tokens : list string) (assignments : gset Z) : outcome (gset Z) :=
  match tokens with
  | [] => Done assignments
  | token :: tokens' =>
      if decide (token = "0") then Done assignments
      else match py_int token with
           | None => Raised "ValueError"
           | Some var_num =>
               parse_tokens tokens'
                 (if 0 <? var_num then {[var_num]} ∪ assignments else assignments)
           end
  end.

(** The loop over [lines[1:]]. *)
Fixpoint parse_lines (lines : list string) (assignments : gset Z) : outcome (gset Z) :=
  match lines with
  | [] => Done assignments
  | line :: lines' =>
      match parse_tokens (split (strip line)) assignments with
      | Done assignments' => parse_lines lines' assignments'
      | other => other
      end
  end.

(** The loop [for d in ['L', 'R', 'U', 'D']] at the cell [p]: the first
    direction whose variable is asserted true, and the next cell. *)
Fixpoint first_dir (assignments : gset Z) (k : Z) (p : Z * Z) (ds : list string)
    : enc (option (string * (Z * Z))) :=
  match ds with
  | [] => ret None
  | d :: ds' =>
      dir_var <- get_var (key_D p.1 p.2 k d) ;;
      if decide (dir_var ∈ assignments) then ret (Some (d, move p d))
      else first_dir assignments k p ds'
  end.

(** The loop [while (x, y) != (ex, ey)]; one unit of fuel per iteration. *)
Fixpoint walk (fuel : nat) (assignments : gset Z) (k : Z) (e p : Z * Z)
    (path : list string) : enc (outcome (list string)) :=
  if cell_eqb p e then ret (Done path)
  else match fuel with
       | O => ret OutOfFuel
       | S fuel' =>
           r <- first_dir assignments k p decode_dirs ;;
           match r with
           | Some (d, p') => walk fuel' assignments k e p' (path ++ [d])
           | None => ret (Done path)
           end
       end.

(** The loop over the lines that fills [metro_paths]. *)
Fixpoint reconstruct (fuel : nat) (c : city) (assignments : gset Z) (ks : list Z)
    (metro_paths : list (list string)) : enc (outcome (list (list string))) :=
  match ks with
  | [] => ret (Done metro_paths)
  | k :: ks' =>
      match starts c !! Z.to_nat k, ends c !! Z.to_nat k with
      | Some s, Some e =>
          r <- walk fuel assignments k e s [] ;;
          match r with
          | Done path => reconstruct fuel c assignments ks' (metro_paths ++ [path])
          | Raised err => ret (Raised err)
          | OutOfFuel => ret OutOfFuel
          end
      | _, _ => ret (Raised "IndexError")
      end
  end.

(** The text written for the reconstructed paths. *)
Definition metromap (metro_paths : list (list string)) : string :=
  join "" (map (fun path => join " " path +:+ " 0" +:+ newline) metro_paths).

(** [decode_sat_output]: [sat_output] is [None] when the solver output
    file does not exist, and the list of its lines otherwise; the result
    is the text written to the output file. *)
Definition decode_sat_output (fuel : nat) (c : city) (sat_output : option (list string))
    : enc (outcome string) :=
  match sat_output with
  | None => ret (Done ("0" +:+ newline))
  | Some lines =>
      match lines with
      | [] => ret (Done ("0" +:+ newline))
      | first :: rest =>
          if decide (strip first = "UNSAT") then ret (Done ("0" +:+ newline))
          else
            match parse_lines rest ∅ with
            | Done assignments =>
                r <- reconstruct fuel c assignments (range (K c)) [] ;;
                match r with
                | Done metro_paths => ret (Done (metromap metro_paths))
                | Raised err => ret (Raised err)
                | OutOfFuel => ret OutOfFuel
                end
            | Raised err => ret (Raised err)
            | OutOfFuel => ret OutOfFuel
            end
      end
  end.

End Decoder.

(** A reading of [int(token)] for plain decimal tokens with an optional
    minus sign, enough for the output of a solver. *)
Definition int_of_token (token : string) : option Z :=
  match token with
  | "" => None
  | "-" => None
  | _ => Z.of_int <$> NilEmpty.int_of_string token
  end.

(** ** Notions used by the statements *)

(** A run of the registry: the keys requested, in order, and the ids
    answered. *)
Definition requests (keys : list (list arg)) : enc (list Z) :=
  collect keys (fun a => v <- get_var a ;; ret [v]).

(** The names of a run in the order in which they were first seen. *)
Definition note (seen : list string) (name : string) : list string :=
  if decide (name ∈ seen) then seen else seen ++ [name].

Definition first_seen_from (seen names : list string) : list string :=
  foldl note seen names.

Definition first_seen (names : list string) : list string := first_seen_from [] names.

(** The registry holds exactly the names [seen], the one at position [n]
    (from 0) under the id [n + 1]. *)
Record tracks (st : store) (seen : list string) : Prop := {
  tracks_nodup : NoDup seen;
  tracks_counter : var_counter st = len seen;
  tracks_size : size (var_map st) = length seen;
  tracks_lookup : ∀ name v,
    var_map st !! name = Some v ↔ 1 ≤ v ∧ seen !! Z.to_nat (v - 1) = Some name
}.

(** The keys of the four families the planner requests. *)
Inductive planner_key : list arg → Prop :=
  | planner_key_C x y k : planner_key (key_C x y k)
  | planner_key_D x y k d : d ∈ decode_dirs → planner_key (key_D x y k d)
  | planner_key_T x y k : planner_key (key_T x y k)
  | planner_key_SEQ vid i j : planner_key (key_SEQ vid i j).

(** The string [s] does not contain the character [ch]. *)
Fixpoint free_of (ch : ascii) (s : string) : bool :=
  match s with
  | EmptyString => true
  | String c s' => negb (Ascii.eqb c ch) && free_of ch s'
  end.

Definition underscore : ascii := ascii_of_nat 95.

(** A computation only adds to the registry, and a registry that tracks
    the names seen still does so afterwards. *)
Definition keeps {A} (m : enc A) : Prop :=
  ∀ st, var_map st ⊆ var_map (exec m st) ∧
        ∀ seen, tracks st seen → ∃ seen', tracks (exec m st) seen'.

Definition keeps_lines (f : store → option store) : Prop :=
  ∀ st st', f st = Some st' →
    var_map st ⊆ var_map st' ∧ ∀ seen, tracks st seen → ∃ seen', tracks st' seen'.

(** The id under which the registry of [st] holds the key [a]. *)
Definition id_of (st : store) (a : list arg) : Z := default 0 (var_map st !! var_name a).

(** [V] answers, for every key the registry of [st] holds, its id. *)
Definition reads (V : list arg → Z) (st : store) : Prop :=
  ∀ a v, var_map st !! var_name a = Some v → V a = v.

(** When [V] reads the registry that the computation [m] leaves, [m] has
    answered [a] and appended the clauses [cs]. *)
Definition yields {A} (V : list arg → Z) (m : enc A) (a : A) (cs : list (list Z)) : Prop :=
  ∀ st, reads V (exec m st) →
        eval m st = a ∧ clauses (exec m st) = clauses st ++ cs.

(** The meaning of literals, clauses and clause lists under an assignment
    of truth values to the variables. *)
Definition lit_holds (asg : Z → bool) (l : Z) : bool :=
  if 0 <? l then asg l else negb (asg (- l)).

Definition clause_holds (asg : Z → bool) (cl : list Z) : bool := existsb (lit_holds asg) cl.

Definition cnf_holds (asg : Z → bool) (cls : list (list Z)) : bool :=
  forallb (clause_holds asg) cls.

(** At most one variable of [vars] is true. *)
Definition at_most_one_true (asg : Z → bool) (vars : list Z) : Prop :=
  ∀ v w, v ∈ vars → w ∈ vars → asg v = true → asg w = true → v = w.

(** The clauses of the pairwise encoding, one per pair of positions. *)
Definition pair_clauses (vars : list Z) : list (list Z) :=
  flat_map (fun i => map (fun j => [- item vars i; - item vars j])
                         (range2 (i + 1) (len vars)))
           (range (len vars)).

(** The computation [m] leaves the registry as it is. *)
Definition frames {A} (m : enc A) : Prop :=
  ∀ st, var_counter (exec m st) = var_counter st ∧ var_map (exec m st) = var_map st.

(** The clauses of the sequential counter, for the counter variables
    [S i j] (the ids of the keys [("SEQ", id, i, j)]): the clauses of the
    state [(i, j)], and all of them with the closing clause. *)
Definition seq_state_clauses (S : Z → Z → Z) (vars : list Z) (k i j : Z) : list (list Z) :=
  let s := S i j in
  if i =? 0 then (if j =? 0 then [[s]] else [[- s]])
  else if i <? j then [[- s]]
  else
    let x := item vars (i - 1) in
    if j =? 0 then
      [[- x; - s]; [x; - S (i - 1) 0; s]; [- s; S (i - 1) 0]]
    else if j <=? k then
      [[- x; - S (i - 1) (j - 1); s]; [x; - S (i - 1) j; s];
       [- s; x; S (i - 1) j]; [- s; - x; S (i - 1) (j - 1)]]
    else [].

Definition seq_clauses (S : Z → Z → Z) (vars : list Z) (k : Z) : list (list Z) :=
  flat_map (fun i => flat_map (fun j => seq_state_clauses S vars k i j)
                              (range (Z.min i k + 2)))
           (range (len vars + 1))
  ++ [map (S (len vars)) (range (k + 1))].

(** [st] with the clauses [cs] appended. *)
Definition with_clauses (st : store) (cs : list (list Z)) : store :=
  {| var_counter := var_counter st; clauses := clauses st ++ cs; var_map := var_map st |}.

(** The clauses of the at-most-k encoder over the ids [V]. *)
Definition at_most_k_clauses (V : list arg → Z) (vid : Z) (vars : list Z) (k : Z)
    : list (list Z) :=
  if len vars <=? k then []
  else if k <? 0 then map (fun v => [- v]) vars
  else if k <=? 3 then map (map Z.opp) (combinations vars (Z.to_nat (k + 1)))
  else seq_clauses (fun i j => V (key_SEQ vid i j)) vars k.

(** The turn clauses of line [k] at the cell [(x, y)], over the ids [V]:
    none at the start and the end of the line; elsewhere one clause for every
    in-bound incoming direction and every in-bound outgoing direction. *)
Definition turn_cell_clauses (V : list arg → Z) (c : city) (k : Z) (s e : Z * Z)
    (x y : Z) : list (list Z) :=
  if cell_eqb (x, y) s || cell_eqb (x, y) e then []
  else
    flat_map (fun '(d_in, (dx_in, dy_in)) =>
      if in_bounds c (x - dx_in, y - dy_in) then
        flat_map (fun '(d_out, (dx_out, dy_out)) =>
          if in_bounds c (x + dx_out, y + dy_out) then
            [[- V (key_D (x - dx_in) (y - dy_in) k d_in);
              - V (key_D x y k d_out);
              if String.eqb d_in d_out then - V (key_T x y k) else V (key_T x y k)]]
          else []) directions
      else []) directions.

(** The turn indicator of line [k] at the cell [(x, y)], if it has one. *)
Definition turn_cell_vars (V : list arg → Z) (k : Z) (s e : Z * Z) (x y : Z) : list Z :=
  if cell_eqb (x, y) s || cell_eqb (x, y) e then [] else [V (key_T x y k)].

Definition turn_line_clauses (V : list arg → Z) (c : city) (k : Z) (s e : Z * Z)
    : list (list Z) :=
  flat_map (fun x => flat_map (fun y => turn_cell_clauses V c k s e x y) (range (M c)))
           (range (N c)).

Definition turn_line_vars (V : list arg → Z) (c : city) (k : Z) (s e : Z * Z) : list Z :=
  flat_map (fun x => flat_map (fun y => turn_cell_vars V k s e x y) (range (M c)))
           (range (N c)).

(** What a loop over the lines appends when the body for line [k] appends
    [cs k s e]. *)
Definition lines_clauses (c : city) (ks : list Z) (cs : Z → Z * Z → Z * Z → list (list Z))
    : list (list Z) :=
  flat_map (fun k =>
    match starts c !! Z.to_nat k, ends c !! Z.to_nat k with
    | Some s, Some e => cs k s e
    | _, _ => []
    end) ks.

(** ** Concrete instances *)

(** Two cells side by side, one line from the left cell to the right one. *)
Definition city_2x1 : city :=
  {| scenario := 1; N := 2; M := 1; K := 1; J := 0; P := 0;
     starts := [(0, 0)]; ends := [(1, 0)]; popular := [] |}.

(** Three cells in a row, one line from the first to the last. *)
Definition city_3x1 : city :=
  {| scenario := 1; N := 3; M := 1; K := 1; J := 0; P := 0;
     starts := [(0, 0)]; ends := [(2, 0)]; popular := [] |}.

(** A square of four cells, one line along its upper side, one turn allowed. *)
Definition city_2x2 : city :=
  {| scenario := 1; N := 2; M := 2; K := 1; J := 1; P := 0;
     starts := [(0, 0)]; ends := [(1, 0)]; popular := [] |}.

(** A single cell that is the start and the end of its line. *)
Definition city_1x1 : city :=
  {| scenario := 1; N := 1; M := 1; K := 1; J := 0; P := 0;
     starts := [(0, 0)]; ends := [(0, 0)]; popular := [] |}.

(** Some values of [id(turn_vars)], one per line. *)
Definition some_ids (k : Z) : Z := 140000 + k.

(** The state after encoding, [reset] if the encoder raised. *)
Definition encoded (c : city) (ids : Z → Z) : store :=
  match encode_to_sat c ids reset with
  | Some (_, st) => st
  | None => reset
  end.

(** The walk of the decoder stops. *)
Definition walk_stops (assignments : gset Z) (k : Z) (e s : Z * Z) (st : store) : Prop :=
  ∃ fuel path st', walk fuel assignments k e s [] st = (Done path, st').

(** The cells at which the first [fuel] iterations of the walk stand. *)
Fixpoint walk_cells (fuel : nat) (assignments : gset Z) (k : Z) (e p : Z * Z)
    (st : store) : list (Z * Z) :=
  p :: (if cell_eqb p e then []
        else match fuel with
             | O => []
             | S fuel' =>
                 match first_dir assignments k p decode_dirs st with
                 | (Some (_, p'), st') => walk_cells fuel' assignments k e p' st'
                 | (None, _) => []
                 end
             end).

(** On [city_3x1]: the edges to the right out of the first two cells, and
    the edge to the right out of the first cell with the edge to the left
    out of the second. *)
Definition edges_right : gset Z := {[5; 9]}.
Definition edges_back_and_forth : gset Z := {[5; 8]}.

(** The number of variables of [vars] that are true. *)
Definition count_true (asg : Z → bool) (vars : list Z) : Z :=
  len (filter (λ v, asg v = true) vars).

(** The computation [m] requests only keys of [P]: in a registry that
    holds them all it allocates nothing. *)
Definition quiet {A} (P : list arg → Prop) (m : enc A) : Prop :=
  ∀ st, (∀ a, P a → is_Some (var_map st !! var_name a)) →
        var_counter (exec m st) = var_counter st ∧ var_map (exec m st) = var_map st.

(** The keys of the counter variables of a sequential counter over [n]
    variables with bound [k]. *)
Definition seq_key (vid n k : Z) (a : list arg) : Prop :=
  ∃ i j, 0 ≤ i ≤ n ∧ 0 ≤ j ≤ Z.min i k + 1 ∧ a = key_SEQ vid i j.

(** A square of nine cells with three lines, one per row, and a turn
    budget of 4: each line has seven turn indicators, so the at-most-k encoder
    takes its sequential-counter branch. *)
Definition city_3x3 : city :=
  {| scenario := 1; N := 3; M := 3; K := 3; J := 4; P := 0;
     starts := [(0, 0); (0, 1); (0, 2)]; ends := [(2, 0); (2, 1); (2, 2)];
     popular := [] |}.

(** Values of [id(turn_vars)] in which the list of the third line has the
    address of the list of the first, which is garbage by then. *)
Definition reused_ids (k : Z) : Z := if k =? 1 then 140064 else 140000.

(** The clauses of the cell-exclusivity encoder over the ids [V]: the
    pairwise clauses over the occupancy variables of each cell. *)
Definition cell_vars_of (V : list arg → Z) (c : city) (x y : Z) : list Z :=
  map (fun k => V (key_C x y k)) (range (K c)).

Definition cell_clauses (V : list arg → Z) (c : city) : list (list Z) :=
  flat_map (fun x => flat_map (fun y => pair_clauses (cell_vars_of V c x y)) (range (M c)))
           (range (N c)).

(** The clauses of the coverage encoder over the ids [V]: for each
    popular cell the disjunction of its occupancy variables, when there is
    one. *)
Definition popular_clauses (V : list arg → Z) (c : city) : list (list Z) :=
  if scenario c =? 2
  then flat_map (fun p : Z * Z =>
         if truthy (cell_vars_of V c p.1 p.2) then [cell_vars_of V c p.1 p.2] else [])
         (popular c)
  else [].

(** The ids of the in-bound outgoing and incoming edges of a cell. *)
Definition out_vars (V : list arg → Z) (c : city) (k x y : Z) : list Z :=
  flat_map (fun '(d, (dx, dy)) =>
    if in_bounds c (x + dx, y + dy) then [V (key_D x y k d)] else []) directions.

Definition inc_vars (V : list arg → Z) (c : city) (k x y : Z) : list Z :=
  flat_map (fun '(d, (dx, dy)) =>
    if in_bounds c (x - dx, y - dy) then [V (key_D (x - dx) (y - dy) k d)] else [])
    directions.

(** The clauses of the exactly-one encoder. *)
Definition exactly_one_clauses (vars : list Z) : list (list Z) :=
  if truthy vars then vars :: pair_clauses vars else [].

(** The clauses an intermediate cell gets for its outgoing (or incoming)
    edges when it has any. *)
Definition guarded_clauses (cell_var : Z) (vars : list Z) : list (list Z) :=
  if truthy vars then ([- cell_var] ++ vars) :: pair_clauses vars else [].

(** The clauses of one cell of one line in the path encoder, over the
    ids [V]. *)
Definition path_cell_clauses (V : list arg → Z) (c : city) (k : Z) (s e : Z * Z)
    (x y : Z) : list (list Z) :=
  let cell_var := V (key_C x y k) in
  flat_map (fun '(d, _) => [[- V (key_D x y k d); cell_var]]) directions
  ++ (if cell_eqb (x, y) s then
        exactly_one_clauses (out_vars V c k x y)
        ++ flat_map (fun '(d, (dx, dy)) =>
             if in_bounds c (x - dx, y - dy)
             then [[- V (key_D (x - dx) (y - dy) k d)]] else []) directions
      else if cell_eqb (x, y) e then
        flat_map (fun '(d, _) => [[- V (key_D x y k d)]]) directions
        ++ exactly_one_clauses (inc_vars V c k x y)
      else
        guarded_clauses cell_var (out_vars V c k x y)
        ++ guarded_clauses cell_var (inc_vars V c k x y)
        ++ map (fun v => [cell_var; - v]) (out_vars V c k x y ++ inc_vars V c k x y))
  ++ flat_map (fun '(d, (dx, dy)) =>
       if in_bounds c (x + dx, y + dy)
       then [[- V (key_D x y k d); V (key_C (x + dx) (y + dy) k)]] else []) directions.

(** The clauses of one line in the path encoder. *)
Definition path_line_clauses (V : list arg → Z) (c : city) (k : Z) (s e : Z * Z)
    : list (list Z) :=
  [V (key_C s.1 s.2 k)] :: [V (key_C e.1 e.2 k)]
  :: flat_map (fun x => flat_map (fun y => path_cell_clauses V c k s e x y) (range (M c)))
              (range (N c)).

(** The clauses of one line in the turn-budget encoder, whatever the
    budget. *)
Definition turn_budget_clauses (V : list arg → Z) (c : city) (ids : Z → Z) (k : Z)
    (s e : Z * Z) : list (list Z) :=
  turn_line_clauses V c k s e
  ++ (if (0 <=? J c) && truthy (turn_line_vars V c k s e)
      then at_most_k_clauses V (ids k) (turn_line_vars V c k s e) (J c)
      else []).

(** A literal over the variables [1..n], and a store whose registry is
    as the encoder builds it and whose clauses are non-empty lists of
    literals over the variables allocated so far. *)
Definition lit_ok (n l : Z) : Prop := 1 ≤ Z.abs l ≤ n.

Definition var_ok (n v : Z) : Prop := 1 ≤ v ≤ n.

Definition vars_ok (n : Z) (vs : list Z) : Prop := Forall (var_ok n) vs.

Definition well_formed (st : store) : Prop :=
  (∃ seen, tracks st seen) ∧
  ∀ cl, cl ∈ clauses st → cl ≠ [] ∧ ∀ l, l ∈ cl → lit_ok (var_counter st) l.

(** From a well-formed store with at least [n0] variables, the
    computation [m] leaves a well-formed store with no fewer variables, and
    its answer satisfies [R] for the number of variables it leaves. *)
Definition safe {A} (n0 : Z) (R : Z → A → Prop) (m : enc A) : Prop :=
  ∀ st, n0 ≤ var_counter st → well_formed st →
    well_formed (exec m st) ∧ var_counter st ≤ var_counter (exec m st) ∧
    R (var_counter (exec m st)) (eval m st).

Definition any {A} (n : Z) (a : A) : Prop := True.

(** Two cells side by side in scenario 2, the right one popular. *)
Definition city_popular : city :=
  {| scenario := 2; N := 2; M := 1; K := 1; J := 0; P := 1;
     starts := [(0, 0)]; ends := [(1, 0)]; popular := [(1, 0)] |}.

(** On [city_3x1]: the line occupies the three cells and goes right
    twice. *)
Definition model_3x1 (v : Z) : bool := bool_decide (v ∈ [1; 2; 3; 5; 9]).

(** The tokens of a line the decoder reads: those before the first
    token ["0"]. *)
Fixpoint before_zero (tokens : list string) : list string :=
  match tokens with
  | [] => []
  | token :: tokens' => if decide (token = "0") then [] else token :: before_zero tokens'
  end.

(** The values of a list of tokens, when [py_int] reads them all. *)
Fixpoint all_ints (py_int : string → option Z) (tokens : list string) : option (list Z) :=
  match tokens with
  | [] => Some []
  | token :: tokens' =>
      match py_int token, all_ints py_int tokens' with
      | Some v, Some vs => Some (v :: vs)
      | _, _ => None
      end
  end.

(** The values the decoder reads on the lines of a solver output, line
    by line. *)
Fixpoint lines_values (py_int : string → option Z) (lines : list string)
    : option (list Z) :=
  match lines with
  | [] => Some []
  | line :: lines' =>
      match all_ints py_int (before_zero (split (strip line))),
            lines_values py_int lines' with
      | Some vs, Some ws => Some (vs ++ ws)
      | _, _ => None
      end
  end.

(** The set of the positive values of a list. *)
Definition positives (vs : list Z) : gset Z := list_to_set (filter (λ v, 0 < v) vs).

(** ** The parser of the city file and the command *)

(** [l[i]] with Python's negative indices; [None] is [IndexError]. *)
Definition py_item {A} (l : list A) (i : Z) : option A :=
  if 0 <=? i then l !! Z.to_nat i
  else if - len l <=? i then l !! Z.to_nat (len l + i)
  else None.

(** The planner that [__init__] builds. *)
Definition init_city : city :=
  {| scenario := 0; N := 0; M := 0; K := 0; J := 0; P := 0;
     starts := []; ends := []; popular := [] |}.

Section Parser.

(** [int(s)]; [None] is [ValueError]. *)
Variable py_int : string → option Z.

(** The loop [for i in range(self.K)] of [parse_input]: line [2 + i]
    must hold exactly four integers. *)
Fixpoint read_lines (lines : list string) (indices : list Z) (starts ends : list (Z * Z))
    : outcome (list (Z * Z) * list (Z * Z)) :=
  match indices with
  | [] => Done (starts, ends)
  | i :: rest =>
      match py_item lines (2 + i) with
      | None => Raised "IndexError"
      | Some line =>
          match all_ints py_int (split line) with
          | Some [sx; sy; ex; ey] =>
              read_lines lines rest (starts ++ [(sx, sy)]) (ends ++ [(ex, ey)])
          | _ => Raised "ValueError"
          end
      end
  end.

(** The loop [for i in range(self.P)] of [parse_input]. *)
Fixpoint read_popular (popular_coords : list Z) (indices : list Z) (popular : list (Z * Z))
    : outcome (list (Z * Z)) :=
  match indices with
  | [] => Done popular
  | i :: rest =>
      match py_item popular_coords (2 * i), py_item popular_coords (2 * i + 1) with
      | Some x, Some y => read_popular popular_coords rest (popular ++ [(x, y)])
      | _, _ => Raised "IndexError"
      end
  end.

(** [parse_input] on the planner [self]; [file] is what [readlines]
    returns.  The lists of starts, ends and popular cells are appended to. *)
Definition parse_input (self : city) (file : list string) : outcome city :=
  let lines := filter (λ line, line ≠ "") (map strip file) in
  match py_item lines 0 with
  | None => Raised "IndexError"
  | Some line0 =>
  match py_int line0 with
  | None => Raised "ValueError"
  | Some scenario =>
  match py_item lines 1 with
  | None => Raised "IndexError"
  | Some line1 =>
  match all_ints py_int (split line1) with
  | None => Raised "ValueError"
  | Some params =>
  match (if scenario =? 1
         then match params with [n; m; k; j] => Some (n, m, k, j, 0) | _ => None end
         else match params with [n; m; k; j; p] => Some (n, m, k, j, p) | _ => None end)
  with
  | None => Raised "ValueError"
  | Some (n, m, k, j, p) =>
  match read_lines lines (range k) (starts self) (ends self) with
  | Raised err => Raised err
  | OutOfFuel => OutOfFuel
  | Done (starts', ends') =>
      if scenario =? 2 then
        match py_item lines (2 + k) with
        | None => Raised "IndexError"
        | Some line =>
            match all_ints py_int (split line) with
            | None => Raised "ValueError"
            | Some popular_coords =>
                match read_popular popular_coords (range p) (popular self) with
                | Raised err => Raised err
                | OutOfFuel => OutOfFuel
                | Done popular' =>
                    Done {| scenario := scenario; N := n; M := m; K := k; J := j; P := p;
                            starts := starts'; ends := ends'; popular := popular' |}
                end
            end
        end
      else
        Done {| scenario := scenario; N := n; M := m; K := k; J := j; P := p;
                starts := starts'; ends := ends'; popular := popular self |}
  end end end end end end.

(** [main]: [argv] is [sys.argv], [fs] gives the lines of the files
    that exist, [ids] the values of [id(turn_vars)]; the answer is the list of
    the files written, in order, and how the command ended. *)
Definition main (ids : Z → Z) (fuel : nat) (argv : list string)
    (fs : string → option (list string)) : list (string * string) * outcome unit :=
  match argv with
  | [_; basename] =>
      match fs (basename +:+ ".city") with
      | None => ([], Raised "FileNotFoundError")
      | Some file =>
          match parse_input init_city file with
          | Raised err => ([], Raised err)
          | OutOfFuel => ([], OutOfFuel)
          | Done c =>
              match encode_to_sat c ids reset with
              | None => ([], Raised "IndexError")
              | Some (text, st) =>
                  let satinput := (basename +:+ ".satinput", text) in
                  match fs (basename +:+ ".satoutput") with
                  | None => ([satinput], Done tt)
                  | Some _ =>
                      match (decode_sat_output py_int fuel c
                               (fs (basename +:+ ".satoutput")) st).1 with
                      | Done metromap_text =>
                          ([satinput; (basename +:+ ".metromap", metromap_text)], Done tt)
                      | Raised err => ([satinput], Raised err)
                      | OutOfFuel => ([satinput], OutOfFuel)
                      end
                  end
              end
          end
      end
  | _ => ([], Raised "SystemExit")
  end.

End Parser.

(** The city file of [city_2x1]. *)
Definition file_2x1 : list string :=
  ["1" +:+ newline; "2 1 1 0" +:+ newline; newline; "  0 0 1 0" +:+ newline].

(** A directory that holds the city file of [city_2x1] and nothing
    else. *)
Definition fs_2x1 (name : string) : option (list string) :=
  if String.eqb name "two.city" then Some file_2x1 else None.

(** * Properties *)

(** ** Names of keys *)

Lemma free_of_app ch s t : free_of ch (s +:+ t) = free_of ch s && free_of ch t.
Proof.
  induction s as [|c s IH]; simpl; [done|].
  rewrite IH. by rewrite andb_assoc.
Qed.

Lemma free_of_uint d : free_of underscore (NilEmpty.string_of_uint d) = true.
Proof. induction d; simpl; auto. Qed.

Lemma free_of_str_int z : free_of underscore (str_int z) = true.
Proof.
  unfold str_int. destruct (Z.to_int z); simpl; apply free_of_uint.
Qed.

Lemma str_int_inj z1 z2 : str_int z1 = str_int z2 → z1 = z2.
Proof.
  unfold str_int. intros H.
  apply DecimalZ.to_int_inj.
  assert (Some (Z.to_int z1) = Some (Z.to_int z2)) as [=]; [|done].
  by rewrite <-!NilEmpty.isi, H.
Qed.

(** Two texts that agree and whose heads are free of the separator have
    the same head and the same rest. *)
Lemma app_sep_inj ch s1 s2 r1 r2 :
  free_of ch s1 = true → free_of ch s2 = true →
  s1 +:+ String ch r1 = s2 +:+ String ch r2 → s1 = s2 ∧ r1 = r2.
Proof.
  revert s2. induction s1 as [|c s1 IH]; intros [|c2 s2]; simpl; intros H1 H2 E.
  - by injection E.
  - injection E as -> _. by rewrite Ascii.eqb_refl in H2.
  - injection E as -> _. by rewrite Ascii.eqb_refl in H1.
  - injection E as -> E.
    apply andb_true_iff in H1 as [_ H1]. apply andb_true_iff in H2 as [_ H2].
    destruct (IH s2 H1 H2 E) as [-> ->]. done.
Qed.

Lemma app_sep_not_free ch s1 s2 r :
  free_of ch s1 = true → s1 ≠ s2 +:+ String ch r.
Proof.
  intros H E. rewrite E, free_of_app in H. simpl in H.
  rewrite Ascii.eqb_refl in H. simpl in H. by rewrite andb_false_r in H.
Qed.

Lemma join_cons sep s l : l ≠ [] → join sep (s :: l) = s +:+ sep +:+ join sep l.
Proof. by destruct l. Qed.

Lemma join_inj ch (l1 l2 : list string) :
  Forall (λ s, free_of ch s = true) l1 → Forall (λ s, free_of ch s = true) l2 →
  l1 ≠ [] → l2 ≠ [] →
  join (String ch "") l1 = join (String ch "") l2 → l1 = l2.
Proof.
  intros H1. revert l2. induction H1 as [|s1 l1 Hs1 Hl1 IH]; [done|].
  intros l2 H2 _ Hne2 E. destruct H2 as [|s2 l2 Hs2 Hl2]; [done|].
  destruct l1 as [|t1 l1], l2 as [|t2 l2].
  - simpl in E. by subst.
  - exfalso. rewrite (join_cons _ s2) in E by done. simpl in E.
    by eapply app_sep_not_free in E.
  - exfalso. rewrite (join_cons _ s1) in E by done. simpl in E.
    symmetry in E. by eapply app_sep_not_free in E.
  - rewrite !join_cons in E by done. simpl in E.
    apply app_sep_inj in E as [-> E]; [|done..].
    f_equal. by apply IH.
Qed.

Lemma planner_key_free a :
  planner_key a → Forall (λ s, free_of underscore s = true) (map str a).
Proof.
  intros [x y k|x y k d Hd|x y k|vid i j]; simpl;
    repeat (apply Forall_cons; split); try apply free_of_str_int; try done.
  - unfold decode_dirs in Hd.
    repeat (apply elem_of_cons in Hd as [->|Hd]; [done|]).
    by apply elem_of_nil in Hd.
Qed.

(** Distinct planner keys have distinct names. *)
Lemma var_name_inj a b :
  planner_key a → planner_key b → var_name a = var_name b → a = b.
Proof.
  intros Ha Hb E.
  assert (map str a = map str b) as Hm.
  { apply (join_inj underscore); try by apply planner_key_free.
    - by destruct Ha.
    - by destruct Hb.
    - exact E. }
  destruct Ha, Hb; simpl in Hm; try discriminate Hm;
    injection Hm; intros;
    repeat match goal with
           | H : str_int _ = str_int _ |- _ => apply str_int_inj in H
           end; by subst.
Qed.

(** ** The variable registry *)

Lemma tracks_reset : tracks reset [].
Proof.
  split; simpl; try done.
  - constructor.
  - intros name v. rewrite lookup_empty. split; [done|]. by intros [_ ?].
Qed.

Lemma note_prefix seen name : seen `prefix_of` note seen name.
Proof.
  unfold note. case_decide; [done|]. by apply prefix_app_r.
Qed.

Lemma first_seen_from_prefix names seen : seen `prefix_of` first_seen_from seen names.
Proof.
  revert seen. induction names as [|n names IH]; intros seen; simpl; [done|].
  etrans; [apply note_prefix|apply IH].
Qed.

Lemma note_elem seen name x : x ∈ note seen name ↔ x ∈ seen ∨ x = name.
Proof.
  unfold note. case_decide.
  - split; [auto|]. by intros [?| ->].
  - rewrite elem_of_app, list_elem_of_singleton. done.
Qed.

Lemma first_seen_from_elem names seen x :
  x ∈ first_seen_from seen names ↔ x ∈ seen ∨ x ∈ names.
Proof.
  revert seen. induction names as [|n names IH]; intros seen; simpl.
  - rewrite elem_of_nil. tauto.
  - unfold first_seen_from in IH. rewrite IH, note_elem, elem_of_cons. tauto.
Qed.

Lemma lookup_present st name v :
  var_map st !! name = Some v → ∀ a, var_name a = name → get_var a st = (v, st).
Proof. intros H a <-. unfold get_var. by rewrite H. Qed.

(** One request: the name is noted, and the id answered is its position
    (from 1) among the names seen. *)
Lemma get_var_tracks st seen a :
  tracks st seen →
  tracks (exec (get_var a) st) (note seen (var_name a)) ∧
  ∃ n : nat, note seen (var_name a) !! n = Some (var_name a) ∧
             eval (get_var a) st = Z.of_nat n + 1.
Proof.
  intros [Hnd Hc Hs Hl]. unfold exec, eval, get_var, note.
  destruct (var_map st !! var_name a) as [v|] eqn:E; simpl.
  - apply Hl in E as E'. destruct E' as [Hv Hn].
    assert (var_name a ∈ seen) by (by eapply list_elem_of_lookup_2).
    rewrite decide_True by done. split; [done|].
    exists (Z.to_nat (v - 1)). split; [done|lia].
  - assert (var_name a ∉ seen) as Hnot.
    { intros [n Hn]%list_elem_of_lookup.
      assert (var_map st !! var_name a = Some (Z.of_nat n + 1)) as E'.
      { apply Hl. split; [lia|]. by replace (Z.to_nat (Z.of_nat n + 1 - 1)) with n by lia. }
      congruence. }
    rewrite decide_False by done. split.
    + split; simpl.
      * apply NoDup_app. split; [done|]. split; [|apply NoDup_singleton].
        intros x Hx ->%list_elem_of_singleton. done.
      * unfold len. rewrite length_app. simpl. unfold len in Hc. lia.
      * rewrite map_size_insert_None by done. rewrite length_app. simpl. lia.
      * intros name v. destruct (decide (name = var_name a)) as [->|Hne].
        -- rewrite lookup_insert_eq. split.
           ++ intros [= <-]. split; [unfold len in Hc; lia|].
              rewrite Hc. unfold len.
              replace (Z.to_nat (Z.of_nat (length seen) + 1 - 1)) with (length seen) by lia.
              by rewrite list_lookup_middle.
           ++ intros [Hv Hn]. f_equal.
              apply lookup_app_Some in Hn as [Hn|[Hge Hn]].
              ** exfalso. apply Hnot. by eapply list_elem_of_lookup_2.
              ** apply list_lookup_singleton_Some in Hn as [Hn _].
                 rewrite Hc. unfold len. lia.
        -- rewrite lookup_insert_ne by done. rewrite Hl. split.
           ++ intros [Hv Hn]. split; [done|]. by apply lookup_app_l_Some.
           ++ intros [Hv Hn]. split; [done|].
              apply lookup_app_Some in Hn as [Hn|[Hge Hn]]; [done|].
              apply list_lookup_singleton_Some in Hn as [_ Hn]. done.
    + exists (length seen). split; [by rewrite list_lookup_middle|].
      unfold len in Hc. lia.
Qed.

(** What a registry that tracks [seen] guarantees. *)
Lemma tracks_range st seen name v :
  tracks st seen → var_map st !! name = Some v → 1 ≤ v ≤ var_counter st.
Proof.
  intros [_ Hc _ Hl] [Hv Hn]%Hl. apply lookup_lt_Some in Hn.
  rewrite Hc. unfold len. lia.
Qed.

Lemma tracks_inj st seen n1 n2 v :
  tracks st seen → var_map st !! n1 = Some v → var_map st !! n2 = Some v → n1 = n2.
Proof. intros [_ _ _ Hl] [_ H1]%Hl [_ H2]%Hl. congruence. Qed.

Lemma tracks_full st seen v :
  tracks st seen → 1 ≤ v ≤ var_counter st → ∃ name, var_map st !! name = Some v.
Proof.
  intros [_ Hc _ Hl] Hv. rewrite Hc in Hv. unfold len in Hv.
  destruct (lookup_lt_is_Some_2 seen (Z.to_nat (v - 1))) as [name Hn]; [lia|].
  exists name. apply Hl. split; [lia|done].
Qed.

Lemma bind_run {A B} (m : enc A) (f : A → enc B) st :
  bind m f st = f (m st).1 (m st).2.
Proof. unfold bind. by destruct (m st). Qed.

Lemma exec_bind {A B} (m : enc A) (f : A → enc B) st :
  exec (bind m f) st = exec (f (eval m st)) (exec m st).
Proof. unfold exec, eval. by rewrite bind_run. Qed.

Lemma eval_bind {A B} (m : enc A) (f : A → enc B) st :
  eval (bind m f) st = eval (f (eval m st)) (exec m st).
Proof. unfold exec, eval. by rewrite bind_run. Qed.

Lemma requests_cons_eval a keys st :
  eval (requests (a :: keys)) st
  = eval (get_var a) st :: eval (requests keys) (exec (get_var a) st).
Proof.
  unfold requests. simpl. by rewrite !eval_bind, !exec_bind.
Qed.

Lemma requests_cons_exec a keys st :
  exec (requests (a :: keys)) st = exec (requests keys) (exec (get_var a) st).
Proof.
  unfold requests. simpl. by rewrite !exec_bind.
Qed.

(** A run of requests from a registry that tracks [seen]. *)
Lemma requests_tracks keys st seen :
  tracks st seen →
  let names := map var_name keys in
  let ids := eval (requests keys) st in
  let st' := exec (requests keys) st in
  tracks st' (first_seen_from seen names) ∧
  length ids = length keys ∧
  ∀ i a, keys !! i = Some a →
    ∃ n : nat, first_seen_from seen names !! n = Some (var_name a) ∧
               ids !! i = Some (Z.of_nat n + 1).
Proof.
  revert st seen. induction keys as [|a keys IH]; intros st seen Ht; simpl.
  - split; [done|]. split; [done|]. intros i b. by rewrite lookup_nil.
  - destruct (get_var_tracks st seen a Ht) as [Ht1 [n [Hn Hid]]].
    rewrite requests_cons_eval, requests_cons_exec.
    specialize (IH _ _ Ht1) as [Ht2 [Hlen Hids]].
    split; [done|]. split; [simpl; by rewrite Hlen|].
    intros [|i] b Hb; simpl in *.
    + injection Hb as <-. exists n. split; [|by rewrite Hid].
      eapply prefix_lookup_Some; [exact Hn|apply first_seen_from_prefix].
    + by apply Hids.
Qed.

(** ** Every encoder goes through the registry *)

Lemma keeps_ret {A} (a : A) : keeps (ret a).
Proof. intros st. split; [done|]. intros seen H. by exists seen. Qed.

Lemma keeps_bind {A B} (m : enc A) (f : A → enc B) :
  keeps m → (∀ a, keeps (f a)) → keeps (bind m f).
Proof.
  intros Hm Hf st. rewrite exec_bind.
  destruct (Hm st) as [Hs1 Ht1].
  destruct (Hf (eval m st) (exec m st)) as [Hs2 Ht2].
  split; [by etrans|].
  intros seen [seen1 H1]%Ht1. by apply Ht2 in H1.
Qed.

Lemma keeps_get_var a : keeps (get_var a).
Proof.
  intros st. split.
  - unfold exec, get_var. destruct (var_map st !! var_name a) eqn:E; simpl; [done|].
    by apply insert_subseteq.
  - intros seen H. eexists. by apply get_var_tracks.
Qed.

Lemma keeps_add_clause lits : keeps (add_clause lits).
Proof.
  intros st. unfold exec, add_clause. destruct lits; simpl; (split; [done|]);
    intros seen [? ? ? ?]; exists seen; by split.
Qed.

Lemma keeps_for {A} (l : list A) (body : A → enc unit) :
  (∀ a, keeps (body a)) → keeps (for_ l body).
Proof.
  intros Hb. induction l as [|a l IH]; simpl; [apply keeps_ret|].
  apply keeps_bind; [apply Hb|done].
Qed.

Lemma keeps_collect {A B} (l : list A) (body : A → enc (list B)) :
  (∀ a, keeps (body a)) → keeps (collect l body).
Proof.
  intros Hb. induction l as [|a l IH]; simpl; [apply keeps_ret|].
  apply keeps_bind; [apply Hb|]. intros xs.
  apply keeps_bind; [done|]. intros ys. apply keeps_ret.
Qed.

Lemma get_var_present a st : is_Some (var_map (exec (get_var a) st) !! var_name a).
Proof.
  unfold exec, get_var. destruct (var_map st !! var_name a) eqn:E; simpl.
  - by rewrite E.
  - by rewrite lookup_insert_eq.
Qed.

Lemma keeps_present {A} (m : enc A) st name :
  keeps m → is_Some (var_map st !! name) → is_Some (var_map (exec m st) !! name).
Proof.
  intros Hk [v Hv]. exists v. eapply lookup_weaken; [exact Hv|]. apply Hk.
Qed.

Ltac keeps_step :=
  match goal with
  | |- keeps (ret _) => apply keeps_ret
  | |- keeps (get_var _) => apply keeps_get_var
  | |- keeps (add_clause _) => apply keeps_add_clause
  | |- keeps (bind _ _) => apply keeps_bind; [|intros ?]
  | |- keeps (for_ _ _) => apply keeps_for; intros ?
  | |- keeps (collect _ _) => apply keeps_collect; intros ?
  | |- keeps (let '(_, _) := ?p in _) => destruct p
  | |- keeps (if ?b then _ else _) => destruct b
  | |- keeps (match ?l with [] => _ | _ :: _ => _ end) => destruct l
  end.

Ltac keeps_tac := repeat keeps_step.

Lemma keeps_encode_at_most_one vars : keeps (encode_at_most_one vars).
Proof. unfold encode_at_most_one. keeps_tac. Qed.

Lemma keeps_encode_exactly_one vars : keeps (encode_exactly_one vars).
Proof.
  unfold encode_exactly_one. keeps_tac. apply keeps_encode_at_most_one.
Qed.

Lemma keeps_encode_at_most_k_simple vid vars k : keeps (encode_at_most_k_simple vid vars k).
Proof. unfold encode_at_most_k_simple. keeps_tac. Qed.

Lemma keeps_encode_cell_constraints c : keeps (encode_cell_constraints c).
Proof.
  unfold encode_cell_constraints. keeps_tac. apply keeps_encode_at_most_one.
Qed.

Lemma keeps_path_cell c k s e x y : keeps (path_cell c k s e x y).
Proof.
  unfold path_cell, out_dirs_of, inc_dirs_of.
  keeps_tac; first [apply keeps_encode_at_most_one | apply keeps_encode_exactly_one].
Qed.

Lemma keeps_path_line c k s e : keeps (path_line c k s e).
Proof. unfold path_line. keeps_tac. apply keeps_path_cell. Qed.

Lemma keeps_turn_cell c k s e x y : keeps (turn_cell c k s e x y).
Proof. unfold turn_cell. keeps_tac. Qed.

Lemma keeps_turn_line c ids k s e : keeps (turn_line c ids k s e).
Proof.
  unfold turn_line. keeps_tac; first [apply keeps_turn_cell | apply keeps_encode_at_most_k_simple].
Qed.

Lemma keeps_encode_popular_constraints c : keeps (encode_popular_constraints c).
Proof. unfold encode_popular_constraints. keeps_tac. Qed.

Lemma keeps_for_lines c ks body :
  (∀ k s e, keeps (body k s e)) → keeps_lines (for_lines c ks body).
Proof.
  intros Hb. induction ks as [|k ks IH]; intros st st'; simpl.
  - intros [= <-]. split; [done|]. intros seen H. by exists seen.
  - destruct (starts c !! Z.to_nat k) as [s|]; [|done].
    destruct (ends c !! Z.to_nat k) as [e|]; [|done].
    intros [Hs Ht]%IH. destruct (Hb k s e st) as [Hs1 Ht1].
    split; [by etrans|]. intros seen [seen1 H1]%Ht1. by apply Ht in H1.
Qed.

(** The registry after [encode_to_sat] tracks the names it has seen. *)
Lemma encode_to_sat_tracks c ids st text st' :
  encode_to_sat c ids st = Some (text, st') →
  text = dimacs st' ∧ ∃ seen, tracks st' seen.
Proof.
  unfold encode_to_sat. intros H.
  destruct (encode_path_constraints c _) as [st2|] eqn:E2; simpl in H; [|done].
  destruct (encode_turn_constraints c ids st2) as [st3|] eqn:E3; simpl in H; [|done].
  injection H as <- <-. split; [done|].
  destruct (keeps_encode_cell_constraints c reset) as [_ H1].
  destruct (H1 [] tracks_reset) as [seen1 Ht1].
  apply (keeps_for_lines c _ _ (keeps_path_line c)) in E2 as [_ H2].
  destruct (H2 _ Ht1) as [seen2 Ht2].
  apply (keeps_for_lines c _ _ (keeps_turn_line c ids)) in E3 as [_ H3].
  destruct (H3 _ Ht2) as [seen3 Ht3].
  destruct (keeps_encode_popular_constraints c st3) as [_ H4].
  by apply H4 in Ht3.
Qed.

(** C3.  The registry operation [get_var], within one run (the requests
    [keys] made since the reset of [encode_to_sat]): the same name always
    gets the same id and two names get the same id only when they are
    equal; for keys of the planner's families this holds of the keys
    themselves; the id of a name is its rank (from 1) in the order in which
    the names were first seen, so the ids are [1 .. var_counter] without
    gap; asking again afterwards answers the same id and allocates nothing;
    the counter is the number of distinct names, and it is the variable
    count of the header that [encode_to_sat] writes. *)
Theorem get_var_contract (keys : list (list arg)) :
  let names := map var_name keys in
  let ids := eval (requests keys) reset in
  let st := exec (requests keys) reset in
  length ids = length keys ∧
  (∀ i j a b v w,
      keys !! i = Some a → keys !! j = Some b → ids !! i = Some v → ids !! j = Some w →
      (v = w ↔ var_name a = var_name b)) ∧
  (∀ i j a b v w,
      planner_key a → planner_key b →
      keys !! i = Some a → keys !! j = Some b → ids !! i = Some v → ids !! j = Some w →
      (v = w ↔ a = b)) ∧
  (∀ i a, keys !! i = Some a →
      ∃ n : nat, first_seen names !! n = Some (var_name a) ∧ ids !! i = Some (Z.of_nat n + 1)) ∧
  (∀ i a v, keys !! i = Some a → ids !! i = Some v → get_var a st = (v, st)) ∧
  NoDup (first_seen names) ∧
  (∀ name, name ∈ first_seen names ↔ name ∈ names) ∧
  var_counter st = len (first_seen names) ∧
  size (var_map st) = length (first_seen names) ∧
  (∀ v, 1 ≤ v ≤ var_counter st ↔ ∃ name, var_map st !! name = Some v) ∧
  (∃ rest, dimacs st = "p cnf " +:+ str_int (len (first_seen names)) +:+ " " +:+ rest) ∧
  (∀ c oids st0 text st',
      encode_to_sat c oids st0 = Some (text, st') →
      var_counter st' = Z.of_nat (size (var_map st')) ∧
      (∀ n1 n2 v, var_map st' !! n1 = Some v → var_map st' !! n2 = Some v → n1 = n2) ∧
      (∀ v, 1 ≤ v ≤ var_counter st' ↔ ∃ name, var_map st' !! name = Some v) ∧
      ∃ rest, text = "p cnf " +:+ str_int (Z.of_nat (size (var_map st'))) +:+ " " +:+ rest).
Proof.
  intros names ids st.
  destruct (requests_tracks keys reset [] tracks_reset) as [Ht [Hlen Hids]].
  fold names ids st in Ht, Hlen, Hids. change (first_seen_from [] names) with (first_seen names) in *.
  assert (∀ i j a b v w,
      keys !! i = Some a → keys !! j = Some b → ids !! i = Some v → ids !! j = Some w →
      (v = w ↔ var_name a = var_name b)) as Hiff.
  { intros i j a b v w Ha Hb Hv Hw.
    destruct (Hids i a Ha) as [n [Hn Hv']]. destruct (Hids j b Hb) as [m [Hm Hw']].
    assert (v = Z.of_nat n + 1) as -> by congruence.
    assert (w = Z.of_nat m + 1) as -> by congruence.
    split.
    - intros E. assert (n = m) as -> by lia. congruence.
    - intros E. rewrite E in Hn.
      assert (n = m) as -> by (eapply NoDup_lookup; [apply Ht|done..]). done. }
  split; [done|]. split; [done|]. split.
  { intros i j a b v w Pa Pb Ha Hb Hv Hw. rewrite (Hiff i j a b v w) by done.
    split; [by apply var_name_inj|by intros ->]. }
  split; [done|]. split.
  { intros i a v Ha Hv. destruct (Hids i a Ha) as [n [Hn Hv']].
    apply (lookup_present st (var_name a)); [|done].
    assert (v = Z.of_nat n + 1) as -> by congruence.
    apply Ht. split; [lia|]. by replace (Z.to_nat (Z.of_nat n + 1 - 1)) with n by lia. }
  split; [apply Ht|]. split.
  { intros name. unfold first_seen. rewrite first_seen_from_elem, elem_of_nil. tauto. }
  split; [apply Ht|]. split; [apply Ht|]. split.
  { intros v. split; [by eapply tracks_full|].
    intros [name H]. by eapply tracks_range. }
  split.
  { unfold dimacs. rewrite (tracks_counter _ _ Ht). eexists. reflexivity. }
  intros c oids st0 text st' [-> [seen Hs]]%encode_to_sat_tracks.
  split; [rewrite (tracks_counter _ _ Hs), (tracks_size _ _ Hs); done|].
  split; [intros n1 n2 v; by eapply tracks_inj|].
  split.
  { intros v. split; [by eapply tracks_full|].
    intros [name H]. by eapply tracks_range. }
  unfold dimacs. rewrite (tracks_counter _ _ Hs), (tracks_size _ _ Hs). eexists. reflexivity.
Qed.

(** ** What a computation answers and appends *)

Section Yields.

Variable V : list arg → Z.

Lemma reads_mono st st' : var_map st ⊆ var_map st' → reads V st' → reads V st.
Proof. intros Hs Hr a v Hl. apply Hr. by eapply lookup_weaken. Qed.

Lemma yields_ret {A} (a : A) : yields V (ret a) a [].
Proof. intros st _. split; [done|]. simpl. by rewrite app_nil_r. Qed.

Lemma yields_bind {A B} (m : enc A) (f : A → enc B) a b cs1 cs2 :
  yields V m a cs1 → (∀ x, keeps (f x)) → yields V (f a) b cs2 →
  yields V (bind m f) b (cs1 ++ cs2).
Proof.
  intros Hm Hk Hf st. rewrite exec_bind, eval_bind. intros Hr.
  destruct (Hk (eval m st) (exec m st)) as [Hs _].
  destruct (Hm st (reads_mono _ _ Hs Hr)) as [Ha Hc1].
  rewrite Ha in *. destruct (Hf _ Hr) as [-> Hc2].
  split; [done|]. by rewrite Hc2, Hc1, app_assoc.
Qed.

Lemma yields_get_var a : yields V (get_var a) (V a) [].
Proof.
  intros st Hr. rewrite app_nil_r. unfold reads, exec, eval in *. unfold get_var in *.
  destruct (var_map st !! var_name a) as [v|] eqn:E; simpl in *.
  - split; [|done]. symmetry. by apply Hr.
  - split; [|done]. symmetry. apply Hr. by rewrite lookup_insert_eq.
Qed.

Lemma yields_add_clause lits :
  yields V (add_clause lits) tt (if truthy lits then [lits] else []).
Proof.
  intros st _. unfold exec, eval, add_clause. destruct lits; simpl; [|done].
  by rewrite app_nil_r.
Qed.

(** A request, then the rest with the id that [V] reads. *)
Lemma yields_get_var_then {B} a (f : Z → enc B) b cs :
  (∀ x, keeps (f x)) → yields V (f (V a)) b cs → yields V (bind (get_var a) f) b cs.
Proof.
  intros Hk Hf. change cs with ([] ++ cs). eapply yields_bind; [apply yields_get_var|done..].
Qed.

(** A clause, then the rest. *)
Lemma yields_add_clause_then {B} l lits (m : enc B) b cs :
  keeps m → yields V m b cs → yields V (add_clause (l :: lits) ;; m) b ((l :: lits) :: cs).
Proof.
  intros Hk Hm. change ((l :: lits) :: cs) with ([l :: lits] ++ cs).
  eapply yields_bind; [apply (yields_add_clause (l :: lits))|done..].
Qed.

Lemma yields_for {A} (l : list A) (body : A → enc unit) (cs : A → list (list Z)) :
  (∀ x, keeps (body x)) → (∀ x, x ∈ l → yields V (body x) tt (cs x)) →
  yields V (for_ l body) tt (flat_map cs l).
Proof.
  intros Hk Hb. induction l as [|x l IH]; simpl; [apply yields_ret|].
  eapply yields_bind.
  - apply Hb. by left.
  - intros _. by apply keeps_for.
  - apply IH. intros y Hy. apply Hb. by right.
Qed.

Lemma yields_collect {A B} (l : list A) (body : A → enc (list B))
    (xs : A → list B) (cs : A → list (list Z)) :
  (∀ x, keeps (body x)) → (∀ x, x ∈ l → yields V (body x) (xs x) (cs x)) →
  yields V (collect l body) (flat_map xs l) (flat_map cs l).
Proof.
  intros Hk Hb. induction l as [|x l IH]; simpl; [apply yields_ret|].
  eapply yields_bind; [apply Hb; by left| |].
  { intros ?. keeps_tac. apply Hk. }
  rewrite <-(app_nil_r (flat_map cs l)).
  eapply yields_bind; [apply IH| |apply yields_ret].
  - intros y Hy. apply Hb. by right.
  - intros ?. apply keeps_ret.
Qed.

End Yields.

(** A computation that makes no request leaves the registry alone. *)
Lemma yields_any {A} (m : enc A) a cs st :
  (∀ V, yields V m a cs) → eval m st = a ∧ clauses (exec m st) = clauses st ++ cs.
Proof. intros H. apply (H (id_of (exec m st))). intros k v Hl. unfold id_of. by rewrite Hl. Qed.

(** ** Computations that only add clauses *)

Lemma store_eq (s1 s2 : store) :
  var_counter s1 = var_counter s2 → clauses s1 = clauses s2 → var_map s1 = var_map s2 →
  s1 = s2.
Proof. destruct s1, s2; simpl; by intros -> -> ->. Qed.

Lemma frames_ret {A} (a : A) : frames (ret a).
Proof. by intros st. Qed.

Lemma frames_bind {A B} (m : enc A) (f : A → enc B) :
  frames m → (∀ a, frames (f a)) → frames (bind m f).
Proof.
  intros Hm Hf st. rewrite exec_bind.
  destruct (Hm st) as [<- <-]. apply Hf.
Qed.

Lemma frames_add_clause lits : frames (add_clause lits).
Proof. intros st. unfold exec, add_clause. by destruct lits. Qed.

Lemma frames_for {A} (l : list A) (body : A → enc unit) :
  (∀ a, frames (body a)) → frames (for_ l body).
Proof.
  intros Hb. induction l as [|a l IH]; simpl; [apply frames_ret|].
  apply frames_bind; [apply Hb|done].
Qed.

(** The run of a computation that leaves the registry alone and appends
    the same clauses whatever the registry holds. *)
Lemma run_unit (m : enc unit) cs st :
  frames m → (∀ V, yields V m tt cs) → m st = (tt, with_clauses st cs).
Proof.
  intros Hf Hy. destruct (yields_any m tt cs st Hy) as [_ Hc].
  destruct (Hf st) as [Hn Hm]. unfold exec in *.
  destruct (m st) as [[] st']. simpl in *. f_equal. by apply store_eq.
Qed.

Lemma yields_for_add_in V {A} (l : list A) (f : A → list Z) :
  (∀ x, x ∈ l → f x ≠ []) → yields V (for_ l (fun x => add_clause (f x))) tt (map f l).
Proof.
  intros Hne.
  replace (map f l) with (flat_map (fun x => [f x]) l)
    by (clear Hne; induction l; simpl; congruence).
  apply yields_for; [intros; apply keeps_add_clause|].
  intros x Hx. pose proof (yields_add_clause V (f x)) as H.
  specialize (Hne x Hx). by destruct (f x).
Qed.

Lemma yields_for_add V {A} (l : list A) (f : A → list Z) :
  (∀ x, f x ≠ []) → yields V (for_ l (fun x => add_clause (f x))) tt (map f l).
Proof. intros Hne. apply yields_for_add_in. auto. Qed.

Lemma elem_of_range n x : x ∈ range n ↔ 0 ≤ x < n.
Proof.
  unfold range. rewrite list_elem_of_fmap. split.
  - intros [i [-> Hi%elem_of_seq]]. lia.
  - intros H. exists (Z.to_nat x). split; [lia|]. apply elem_of_seq. lia.
Qed.

Lemma elem_of_range2 a b x : x ∈ range2 a b ↔ a ≤ x < b.
Proof.
  unfold range2. rewrite list_elem_of_fmap. split.
  - intros [i [-> Hi%elem_of_seq]]. lia.
  - intros H. exists (Z.to_nat (x - a)). split; [lia|]. apply elem_of_seq. lia.
Qed.

Lemma elem_of_flat_map {A B} (f : A → list B) (l : list A) (y : B) :
  y ∈ flat_map f l ↔ ∃ x, x ∈ l ∧ y ∈ f x.
Proof.
  rewrite list_elem_of_In, in_flat_map. split; intros [x [H1 H2]]; exists x;
    by rewrite ?list_elem_of_In in *.
Qed.

Lemma item_lookup (l : list Z) (i : nat) v : l !! i = Some v → item l (Z.of_nat i) = v.
Proof.
  intros H. unfold item. rewrite Nat2Z.id. by apply list_lookup_total_correct.
Qed.

Lemma cnf_holds_iff asg cls :
  cnf_holds asg cls = true ↔ ∀ cl, cl ∈ cls → clause_holds asg cl = true.
Proof.
  unfold cnf_holds. rewrite forallb_forall. by setoid_rewrite list_elem_of_In.
Qed.

Lemma lit_holds_neg asg v : 0 < v → lit_holds asg (- v) = negb (asg v).
Proof.
  intros H. unfold lit_holds. destruct (0 <? - v) eqn:E; [lia|]. by rewrite Z.opp_involutive.
Qed.

(** ** At-most-one *)

Lemma frames_encode_at_most_one vars : frames (encode_at_most_one vars).
Proof.
  unfold encode_at_most_one. repeat (apply frames_for; intros ?). apply frames_add_clause.
Qed.

Lemma yields_encode_at_most_one V vars :
  yields V (encode_at_most_one vars) tt (pair_clauses vars).
Proof.
  unfold encode_at_most_one, pair_clauses.
  apply yields_for; [intros; keeps_tac|].
  intros i _. by apply yields_for_add.
Qed.

Lemma elem_of_pair_clauses vars cl :
  cl ∈ pair_clauses vars ↔
  ∃ (i j : nat) vi vj,
    (i < j)%nat ∧ vars !! i = Some vi ∧ vars !! j = Some vj ∧ cl = [- vi; - vj].
Proof.
  unfold pair_clauses. rewrite elem_of_flat_map. split.
  - intros [i [Hi Hcl]]. apply elem_of_range in Hi.
    apply list_elem_of_fmap in Hcl as [j [-> Hj]]. apply elem_of_range2 in Hj.
    unfold len in *.
    destruct (lookup_lt_is_Some_2 vars (Z.to_nat i)) as [vi Hvi]; [lia|].
    destruct (lookup_lt_is_Some_2 vars (Z.to_nat j)) as [vj Hvj]; [lia|].
    exists (Z.to_nat i), (Z.to_nat j), vi, vj.
    split; [lia|]. split; [done|]. split; [done|].
    unfold item. by rewrite (list_lookup_total_correct _ _ _ Hvi),
      (list_lookup_total_correct _ _ _ Hvj).
  - intros (i & j & vi & vj & Hij & Hi & Hj & ->).
    apply lookup_lt_Some in Hi as Hi'. apply lookup_lt_Some in Hj as Hj'.
    exists (Z.of_nat i). split; [apply elem_of_range; unfold len; lia|].
    apply list_elem_of_fmap. exists (Z.of_nat j).
    split; [|apply elem_of_range2; unfold len; lia].
    by rewrite (item_lookup _ _ _ Hi), (item_lookup _ _ _ Hj).
Qed.

(** C5.  The at-most-one encoder appends, for every pair of positions
    [i < j] of its input, exactly the clause [[-vars[i]; -vars[j]]] and
    nothing else, leaving the registry alone; over a set of (positive)
    variables an assignment satisfies these clauses if and only if at most
    one variable of the set is true under it. *)
Theorem encode_at_most_one_correct (vars : list Z) (st : store) (asg : Z → bool) :
  Forall (λ v, 0 < v) vars → NoDup vars →
  encode_at_most_one vars st = (tt, with_clauses st (pair_clauses vars)) ∧
  (∀ cl, cl ∈ pair_clauses vars ↔
         ∃ (i j : nat) vi vj,
           (i < j)%nat ∧ vars !! i = Some vi ∧ vars !! j = Some vj ∧ cl = [- vi; - vj]) ∧
  (cnf_holds asg (pair_clauses vars) = true ↔ at_most_one_true asg vars).
Proof.
  intros Hpos Hnd.
  split; [apply run_unit; [apply frames_encode_at_most_one|]; intros V;
          apply yields_encode_at_most_one|].
  split; [apply elem_of_pair_clauses|].
  rewrite cnf_holds_iff. rewrite Forall_forall in Hpos. split.
  - intros H v w Hv Hw Av Aw.
    apply list_elem_of_lookup in Hv as [i Hi]. apply list_elem_of_lookup in Hw as [j Hj].
    assert (∀ (i j : nat) vi vj, (i < j)%nat → vars !! i = Some vi → vars !! j = Some vj →
              asg vi = true → asg vj = true → False) as Hno.
    { intros i' j' vi vj Hlt Hi' Hj' Ai Aj.
      assert (clause_holds asg [- vi; - vj] = true) as Hc.
      { apply H, elem_of_pair_clauses. by exists i', j', vi, vj. }
      unfold clause_holds in Hc. simpl in Hc.
      rewrite !lit_holds_neg, Ai, Aj in Hc; [done|..];
        apply Hpos; by eapply list_elem_of_lookup_2. }
    destruct (lt_eq_lt_dec i j) as [[Hlt|Heq]|Hgt].
    + exfalso. by eapply (Hno i j v w).
    + subst. congruence.
    + exfalso. by eapply (Hno j i w v).
  - intros H cl (i & j & vi & vj & Hij & Hi & Hj & ->)%elem_of_pair_clauses.
    assert (vi ∈ vars) as Hvi by (by eapply list_elem_of_lookup_2).
    assert (vj ∈ vars) as Hvj by (by eapply list_elem_of_lookup_2).
    unfold clause_holds. simpl. rewrite !lit_holds_neg by (by apply Hpos).
    destruct (asg vi) eqn:Ai, (asg vj) eqn:Aj; try done.
    exfalso. assert (vi = vj) as -> by (by apply H).
    assert (i = j) by (by eapply NoDup_lookup). lia.
Qed.

(** An instance of C5: three variables, the second one true. *)
Lemma encode_at_most_one_correct_witness :
  cnf_holds (fun v => v =? 2) (pair_clauses [1; 2; 3]) = true ↔
  at_most_one_true (fun v => v =? 2) [1; 2; 3].
Proof.
  apply (encode_at_most_one_correct [1; 2; 3] reset (fun v => v =? 2)).
  - repeat constructor.
  - apply (bool_decide_unpack _). by vm_compute.
Defined.

(** ** Exactly-one *)

(** C6 as the code has it: on the empty list the exactly-one encoder
    returns at once; it adds no clause, leaves the registry alone and
    raises nothing.  On a list that is not empty it appends the disjunction
    of the variables and then the pairwise clauses. *)
Theorem encode_exactly_one_empty_noop (st : store) :
  encode_exactly_one [] st = (tt, st) ∧
  ∀ v vars, encode_exactly_one (v :: vars) st
            = (tt, with_clauses st ((v :: vars) :: pair_clauses (v :: vars))).
Proof.
  split; [done|]. intros v vars. unfold encode_exactly_one.
  apply run_unit.
  - apply frames_bind; [apply frames_add_clause|]. intros _. apply frames_encode_at_most_one.
  - intros V. apply yields_add_clause_then; [apply keeps_encode_at_most_one|].
    apply yields_encode_at_most_one.
Qed.

(** C6 as the claim states it fails: the call on the empty list is a
    silent no-op.  The encoder makes this call on the grid of a single cell,
    whose start has no in-bound neighbour, and runs to its end. *)
Lemma encode_exactly_one_empty_is_silent :
  encode_exactly_one [] reset = (tt, reset) ∧
  eval (out_dirs_of city_1x1 0 0 0) reset = [] ∧
  encode_to_sat city_1x1 some_ids reset
  = Some (dimacs (encoded city_1x1 some_ids), encoded city_1x1 some_ids) ∧
  clauses (encoded city_1x1 some_ids)
  = [[1]; [1]; [-2; 1]; [-3; 1]; [-4; 1]; [-5; 1]].
Proof. repeat split; vm_compute; reflexivity. Qed.

(** ** At-most-k *)

Lemma with_clauses_nil st : with_clauses st [] = st.
Proof. destruct st. unfold with_clauses. simpl. by rewrite app_nil_r. Qed.

Lemma combinations_0 {A} (l : list A) : combinations l 0 = [[]].
Proof. by destruct l. Qed.

Lemma combinations_too_long {A} (l : list A) (r : nat) :
  (length l < r)%nat → combinations l r = [].
Proof.
  revert r. induction l as [|x l IH]; intros [|r] H; simpl in *; try lia; [done|].
  rewrite (IH r), (IH (S r)) by lia. done.
Qed.

Lemma combinations_all {A} (l : list A) : combinations l (length l) = [l].
Proof.
  induction l as [|x l IH]; simpl; [done|].
  rewrite IH, combinations_too_long by lia. done.
Qed.

Lemma combinations_1 {A} (l : list A) : combinations l 1 = map (fun x => [x]) l.
Proof.
  induction l as [|x l IH]; simpl; [done|]. by rewrite combinations_0, IH.
Qed.

(** The combinations are the subsequences of the given length. *)
Lemma elem_of_combinations {A} (l s : list A) (r : nat) :
  s ∈ combinations l r ↔ s `sublist_of` l ∧ length s = r.
Proof.
  revert s r. induction l as [|x l IH]; intros s r.
  - destruct r; simpl.
    + rewrite list_elem_of_singleton. split.
      * intros ->. done.
      * intros [_ H]. by destruct s.
    + rewrite elem_of_nil. split; [done|]. intros [->%sublist_nil_r H]. done.
  - destruct r; simpl.
    + rewrite list_elem_of_singleton. split.
      * intros ->. split; [apply sublist_nil_l|done].
      * intros [_ H]. by destruct s.
    + rewrite elem_of_app, list_elem_of_fmap. split.
      * intros [[s' [-> Hs']]|Hs].
        -- apply IH in Hs' as [Hsub <-]. split; [by apply sublist_skip|done].
        -- apply IH in Hs as [Hsub Hlen]. split; [by apply sublist_cons|done].
      * intros [Hsub Hlen]. apply sublist_cons_r in Hsub as [Hsub|[s' [-> Hsub]]].
        -- right. by apply IH.
        -- left. exists s'. split; [done|]. apply IH. simpl in Hlen. split; [done|lia].
Qed.

Lemma cnf_holds_app asg c1 c2 :
  cnf_holds asg (c1 ++ c2) = cnf_holds asg c1 && cnf_holds asg c2.
Proof. unfold cnf_holds. apply forallb_app. Qed.

Lemma units_hold asg (vars : list Z) :
  Forall (λ v, 0 < v) vars →
  cnf_holds asg (map (fun v => [- v]) vars) = true ↔ ∀ v, v ∈ vars → asg v = false.
Proof.
  intros Hpos. rewrite cnf_holds_iff. rewrite Forall_forall in Hpos. split.
  - intros H v Hv. specialize (H [- v]).
    unfold clause_holds in H. simpl in H. rewrite lit_holds_neg in H by auto.
    destruct (asg v); [|done]. discriminate H. apply list_elem_of_fmap. by exists v.
  - intros H cl [v [-> Hv]]%list_elem_of_fmap. unfold clause_holds. simpl.
    rewrite lit_holds_neg, H by auto. done.
Qed.

Lemma all_negated_fails asg (vars : list Z) :
  Forall (λ v, 0 < v) vars →
  clause_holds asg (map Z.opp vars) = false ↔ ∀ v, v ∈ vars → asg v = true.
Proof.
  intros Hpos. unfold clause_holds. induction Hpos as [|v vars Hv Hvars IH]; simpl.
  - split; [|done]. intros _ v Hv. by apply elem_of_nil in Hv.
  - rewrite orb_false_iff, IH, lit_holds_neg by done. split.
    + intros [Hn H] w [->|Hw]%elem_of_cons; [|by apply H]. by destruct (asg v).
    + intros H. split; [rewrite H; [done|by left]|]. intros w Hw. apply H. by right.
Qed.

Lemma reads_id_of st : reads (id_of st) st.
Proof. intros a v H. unfold id_of. by rewrite H. Qed.

Lemma flat_map_singleton {A B} (f : A → B) (l : list A) :
  flat_map (fun x => [f x]) l = map f l.
Proof. induction l; simpl; congruence. Qed.

Lemma flat_map_nil {A B} (l : list A) : flat_map (fun _ => @nil B) l = [].
Proof. by induction l. Qed.

Ltac yields_tac V :=
  repeat match goal with
         | |- yields _ (ret _) _ _ => apply yields_ret
         | |- yields _ (add_clause _) _ _ => apply (yields_add_clause V (_ :: _))
         | |- yields _ (bind (get_var _) _) _ _ =>
             apply yields_get_var_then; [intros; keeps_tac|]
         | |- yields _ (bind (add_clause _) _) _ _ =>
             apply yields_add_clause_then; [keeps_tac|]
         end.

(** A list of variables collected from the registry. *)
Lemma yields_collect_get_vars V (l : list Z) (key : Z → list arg) :
  yields V (collect l (fun j => v <- get_var (key j) ;; ret [v]))
    (map (fun j => V (key j)) l) [].
Proof.
  rewrite <-(flat_map_nil (B := list Z) l), <-flat_map_singleton.
  apply yields_collect; [intros; keeps_tac|]. intros j _. yields_tac V.
Qed.

(** The sequential-counter branch appends the clauses of the counter. *)
Lemma yields_sequential_counter V vid vars k :
  3 < k → k < len vars →
  yields V (encode_at_most_k_simple vid vars k) tt
    (seq_clauses (fun i j => V (key_SEQ vid i j)) vars k).
Proof.
  intros Hk Hn. unfold encode_at_most_k_simple, seq_clauses.
  destruct (len vars <=? k) eqn:E1; [lia|].
  destruct (k <? 0) eqn:E2; [lia|].
  destruct (k <=? 3) eqn:E3; [lia|].
  eapply yields_bind.
  - apply yields_for; [intros; keeps_tac|]. intros i _.
    apply yields_for; [intros; keeps_tac|]. intros j _.
    unfold seq_state_clauses. apply yields_get_var_then; [intros; keeps_tac|].
    destruct (i =? 0); [destruct (j =? 0); yields_tac V|].
    destruct (i <? j); [yields_tac V|].
    destruct (j =? 0); [yields_tac V|].
    destruct (j <=? k); yields_tac V.
  - intros _. keeps_tac.
  - rewrite <-(app_nil_l [map _ _]).
    eapply yields_bind.
    + apply (yields_collect_get_vars V (range (k + 1)) (key_SEQ vid (len vars))).
    + intros ?. keeps_tac.
    + pose proof (yields_add_clause V (map (λ j, V (key_SEQ vid (len vars) j)) (range (k + 1)))) as H.
      assert (truthy (map (λ j, V (key_SEQ vid (len vars) j)) (range (k + 1))) = true) as Ht.
      { unfold range. replace (Z.to_nat (k + 1)) with (S (Z.to_nat k)) by lia. done. }
      by rewrite Ht in H.
Qed.

Lemma amk_trivial vid vars k st :
  len vars ≤ k → encode_at_most_k_simple vid vars k st = (tt, st).
Proof.
  intros H. unfold encode_at_most_k_simple. by destruct (len vars <=? k) eqn:E; [|lia].
Qed.

Lemma amk_negative vid vars k st :
  k < 0 →
  encode_at_most_k_simple vid vars k st = (tt, with_clauses st (map (fun v => [- v]) vars)).
Proof.
  intros H. unfold encode_at_most_k_simple.
  pose proof (Zle_0_nat (length vars)) as Hlen. fold (len vars) in Hlen.
  destruct (Z.leb_spec (len vars) k); [lia|].
  destruct (Z.ltb_spec k 0); [|lia].
  apply run_unit.
  - apply frames_for. intros. apply frames_add_clause.
  - intros V. by apply yields_for_add.
Qed.

Lemma amk_direct vid vars k st :
  0 ≤ k ≤ 3 →
  encode_at_most_k_simple vid vars k st
  = (tt, with_clauses st (map (map Z.opp) (combinations vars (Z.to_nat (k + 1))))).
Proof.
  intros H. destruct (decide (len vars ≤ k)) as [Hle|Hgt].
  - rewrite amk_trivial by done. unfold len in Hle.
    rewrite combinations_too_long by lia. simpl. by rewrite with_clauses_nil.
  - unfold encode_at_most_k_simple.
    destruct (Z.leb_spec (len vars) k); [lia|].
    destruct (Z.ltb_spec k 0); [lia|].
    destruct (Z.leb_spec k 3); [|lia].
    apply run_unit.
    + apply frames_for. intros. apply frames_add_clause.
    + intros V. apply yields_for_add_in.
      intros s [_ Hs]%elem_of_combinations. destruct s; simpl in *; [lia|done].
Qed.

(** ** The sequential counter bounds the count *)

Lemma lit_holds_pos asg v : 0 < v → lit_holds asg v = asg v.
Proof. intros H. unfold lit_holds. by destruct (Z.ltb_spec 0 v); [|lia]. Qed.

Lemma count_true_snoc asg l x :
  count_true asg (l ++ [x]) = count_true asg l + (if asg x then 1 else 0).
Proof.
  unfold count_true, len. rewrite filter_app, length_app.
  rewrite filter_cons, filter_nil. destruct (asg x) eqn:E.
  - rewrite decide_True by done. simpl. lia.
  - rewrite decide_False by congruence. simpl. lia.
Qed.

Lemma count_true_bounds asg l : 0 ≤ count_true asg l ≤ len l.
Proof.
  unfold count_true, len. pose proof (length_filter (λ v, asg v = true) l). lia.
Qed.

Lemma seq_state_clause_in S vars k i j cl :
  0 ≤ i ≤ len vars → 0 ≤ j ≤ Z.min i k + 1 →
  cl ∈ seq_state_clauses S vars k i j → cl ∈ seq_clauses S vars k.
Proof.
  intros Hi Hj Hcl. unfold seq_clauses. apply elem_of_app. left.
  apply elem_of_flat_map. exists i. split; [apply elem_of_range; lia|].
  apply elem_of_flat_map. exists j. split; [apply elem_of_range; lia|done].
Qed.

Section Counter.

Variable ctr : Z → Z → Z.
Variable vars : list Z.
Variable k : Z.
Variable asg : Z → bool.
Hypothesis ctr_pos :
  ∀ i j, 0 ≤ i ≤ len vars → 0 ≤ j ≤ Z.min i k + 1 → 0 < ctr i j.
Hypothesis vars_pos : Forall (λ v, 0 < v) vars.
Hypothesis k_nonneg : 0 ≤ k.
Hypothesis holds : cnf_holds asg (seq_clauses ctr vars k) = true.

Local Abbreviation cnt i := (count_true asg (take i vars)).

Lemma seq_clause_holds i j cl :
  0 ≤ i ≤ len vars → 0 ≤ j ≤ Z.min i k + 1 →
  cl ∈ seq_state_clauses ctr vars k i j → clause_holds asg cl = true.
Proof.
  intros Hi Hj Hcl. pose proof holds as H. rewrite cnf_holds_iff in H.
  apply H. by eapply seq_state_clause_in.
Qed.

Lemma lit_ctr i j :
  0 ≤ i ≤ len vars → 0 ≤ j ≤ Z.min i k + 1 → lit_holds asg (ctr i j) = asg (ctr i j).
Proof. intros. by apply lit_holds_pos, ctr_pos. Qed.

Lemma lit_ctr_neg i j :
  0 ≤ i ≤ len vars → 0 ≤ j ≤ Z.min i k + 1 →
  lit_holds asg (- ctr i j) = negb (asg (ctr i j)).
Proof. intros. by apply lit_holds_neg, ctr_pos. Qed.

Ltac lits x Hx H :=
  repeat first [ rewrite lit_ctr in H by (unfold len; lia)
               | rewrite lit_ctr_neg in H by (unfold len; lia)
               | rewrite (lit_holds_neg asg x Hx) in H
               | rewrite (lit_holds_pos asg x Hx) in H ].

(** The counter variable [ctr i j], for [j <= k], is true exactly when
    [j] of the first [i] variables are. *)
Lemma seq_counter_counts (i : nat) :
  (i ≤ length vars)%nat →
  ∀ j, 0 ≤ j ≤ Z.min (Z.of_nat i) k + 1 → j ≤ k →
       (asg (ctr (Z.of_nat i) j) = true ↔ cnt i = j).
Proof.
  induction i as [|i IH]; intros Hi j Hj Hjk.
  - assert (∀ cl, cl ∈ seq_state_clauses ctr vars k 0 j → clause_holds asg cl = true) as Hc.
    { intros cl. apply seq_clause_holds; unfold len; lia. }
    unfold seq_state_clauses in Hc. simpl in Hc.
    assert (cnt 0 = 0) as -> by reflexivity. change (Z.of_nat 0) with 0.
    destruct (Z.eqb_spec j 0) as [->|Hne].
    + specialize (Hc [ctr 0 0]). unfold clause_holds in Hc. simpl in Hc.
      rewrite lit_ctr, orb_false_r in Hc by (unfold len; lia). split; [done|].
      intros _. apply Hc. by left.
    + specialize (Hc [- ctr 0 j]). unfold clause_holds in Hc. simpl in Hc.
      rewrite lit_ctr_neg, orb_false_r in Hc by (unfold len; lia). split; [|intros; lia].
      intros Ht. rewrite Ht in Hc. discriminate Hc. by left.
  - assert (∀ cl, cl ∈ seq_state_clauses ctr vars k (Z.of_nat (S i)) j →
                  clause_holds asg cl = true) as Hc.
    { intros cl. apply seq_clause_holds; unfold len; lia. }
    destruct (lookup_lt_is_Some_2 vars i) as [x Hx]; [lia|].
    assert (0 < x) as Hxpos.
    { rewrite Forall_forall in vars_pos. apply vars_pos. by eapply list_elem_of_lookup_2. }
    assert (cnt (S i) = cnt i + (if asg x then 1 else 0)) as Hcnt.
    { rewrite (take_S_r _ _ _ Hx). apply count_true_snoc. }
    pose proof (count_true_bounds asg (take i vars)) as Hb.
    assert (len (take i vars) = Z.of_nat i) as Hlen.
    { unfold len. rewrite length_take. lia. }
    unfold seq_state_clauses in Hc.
    destruct (Z.eqb_spec (Z.of_nat (S i)) 0) as [?|_]; [lia|].
    replace (Z.of_nat (S i) - 1) with (Z.of_nat i) in Hc by lia.
    rewrite (item_lookup _ _ _ Hx) in Hc.
    destruct (Z.ltb_spec (Z.of_nat (S i)) j) as [Hgt|Hle].
    { specialize (Hc [- ctr (Z.of_nat (S i)) j]).
      unfold clause_holds in Hc. simpl in Hc.
      rewrite lit_ctr_neg, orb_false_r in Hc by (unfold len; lia). split.
      - intros Ht. rewrite Ht in Hc. discriminate Hc. by left.
      - intros. destruct (asg x); lia. }
    destruct (Z.eqb_spec j 0) as [->|Hne].
    { pose proof (Hc [- x; - ctr (Z.of_nat (S i)) 0]) as H1.
      pose proof (Hc [x; - ctr (Z.of_nat i) 0; ctr (Z.of_nat (S i)) 0]) as H2.
      pose proof (Hc [- ctr (Z.of_nat (S i)) 0; ctr (Z.of_nat i) 0]) as H3.
      unfold clause_holds in H1, H2, H3. simpl in H1, H2, H3.
      lits x Hxpos H1. lits x Hxpos H2. lits x Hxpos H3.
      assert (asg (ctr (Z.of_nat i) 0) = true ↔ cnt i = 0) as IH0 by (apply IH; lia).
      specialize (H1 ltac:(by left)). specialize (H2 ltac:(right; by left)).
      specialize (H3 ltac:(right; right; by left)).
      rewrite Hcnt.
      assert (asg (ctr (Z.of_nat (S i)) 0) = negb (asg x) && asg (ctr (Z.of_nat i) 0)) as ->.
      { destruct (asg x), (asg (ctr (Z.of_nat i) 0)), (asg (ctr (Z.of_nat (S i)) 0)); done. }
      destruct (asg x); simpl.
      - split; [done|intros; lia].
      - rewrite IH0. split; intros; lia. }
    destruct (Z.leb_spec j k) as [_|?]; [|lia].
    pose proof (Hc [- x; - ctr (Z.of_nat i) (j - 1); ctr (Z.of_nat (S i)) j]) as H1.
    pose proof (Hc [x; - ctr (Z.of_nat i) j; ctr (Z.of_nat (S i)) j]) as H2.
    pose proof (Hc [- ctr (Z.of_nat (S i)) j; x; ctr (Z.of_nat i) j]) as H3.
    pose proof (Hc [- ctr (Z.of_nat (S i)) j; - x; ctr (Z.of_nat i) (j - 1)]) as H4.
    unfold clause_holds in H1, H2, H3, H4. simpl in H1, H2, H3, H4.
    lits x Hxpos H1. lits x Hxpos H2. lits x Hxpos H3. lits x Hxpos H4.
    assert (asg (ctr (Z.of_nat i) j) = true ↔ cnt i = j) as IHj by (apply IH; lia).
    assert (asg (ctr (Z.of_nat i) (j - 1)) = true ↔ cnt i = j - 1) as IHj1 by (apply IH; lia).
    specialize (H1 ltac:(by left)). specialize (H2 ltac:(right; by left)).
    specialize (H3 ltac:(right; right; by left)).
    specialize (H4 ltac:(right; right; right; by left)).
    rewrite Hcnt.
    assert (asg (ctr (Z.of_nat (S i)) j)
            = if asg x then asg (ctr (Z.of_nat i) (j - 1)) else asg (ctr (Z.of_nat i) j)) as ->.
    { destruct (asg x), (asg (ctr (Z.of_nat i) j)), (asg (ctr (Z.of_nat i) (j - 1))),
        (asg (ctr (Z.of_nat (S i)) j)); done. }
    destruct (asg x).
    + rewrite IHj1. split; intros; lia.
    + rewrite IHj. split; intros; lia.
Qed.

(** Every assignment that satisfies the clauses of the counter makes at
    most [k] of the variables true. *)
Lemma seq_clauses_sound : count_true asg vars ≤ k.
Proof.
  pose proof (count_true_bounds asg vars) as Hb.
  destruct (decide (len vars ≤ k)) as [?|Hgt]; [lia|].
  pose proof holds as H. rewrite cnf_holds_iff in H.
  specialize (H (map (ctr (len vars)) (range (k + 1)))).
  assert (clause_holds asg (map (ctr (len vars)) (range (k + 1))) = true) as Hc.
  { apply H. unfold seq_clauses. apply elem_of_app. right. by left. }
  unfold clause_holds in Hc. apply existsb_exists in Hc as [l [Hl Hlit]].
  apply list_elem_of_In, list_elem_of_fmap in Hl as [j [-> Hj%elem_of_range]].
  rewrite lit_ctr in Hlit by lia.
  pose proof (seq_counter_counts (length vars) ltac:(lia) j) as Hinv.
  fold (len vars) in Hinv. rewrite firstn_all in Hinv.
  apply Hinv in Hlit; lia.
Qed.

End Counter.

(** The keys requested in a loop are in the registry after it. *)
Lemma for_present {A} (l : list A) (body : A → enc unit) name x :
  (∀ a, keeps (body a)) → x ∈ l →
  (∀ st, is_Some (var_map (exec (body x) st) !! name)) →
  ∀ st, is_Some (var_map (exec (for_ l body) st) !! name).
Proof.
  intros Hk Hx Hb. induction l as [|a l IH]; intros st; [by apply elem_of_nil in Hx|].
  simpl. rewrite exec_bind. apply elem_of_cons in Hx as [<-|Hx].
  - apply keeps_present; [by apply keeps_for|]. apply Hb.
  - by apply IH.
Qed.

(** The sequential-counter branch leaves every counter variable in the
    registry. *)
Lemma seq_keys_present vid vars k st i j :
  3 < k → k < len vars →
  0 ≤ i ≤ len vars → 0 ≤ j ≤ Z.min i k + 1 →
  is_Some (var_map (exec (encode_at_most_k_simple vid vars k) st)
             !! var_name (key_SEQ vid i j)).
Proof.
  intros Hk Hn Hi Hj. unfold encode_at_most_k_simple.
  destruct (Z.leb_spec (len vars) k); [lia|].
  destruct (Z.ltb_spec k 0); [lia|].
  destruct (Z.leb_spec k 3); [lia|].
  rewrite exec_bind. apply keeps_present; [keeps_tac|].
  apply (for_present _ _ _ i); [intros; keeps_tac|apply elem_of_range; lia|].
  intros st1.
  apply (for_present _ _ _ j); [intros; keeps_tac|apply elem_of_range; lia|].
  intros st2. rewrite exec_bind. apply keeps_present; [keeps_tac|].
  apply get_var_present.
Qed.

(** In a registry built by the encoder, the clauses of the
    sequential-counter branch bound the number of true variables. *)
Lemma sequential_counter_sound vid vars k st seen asg :
  3 < k → k < len vars →
  tracks st seen → Forall (λ v, 0 < v) vars →
  cnf_holds asg (clauses (exec (encode_at_most_k_simple vid vars k) st)) = true →
  count_true asg vars ≤ k.
Proof.
  intros Hk Hn Ht Hpos Hholds.
  set (st' := exec (encode_at_most_k_simple vid vars k) st) in *.
  destruct (keeps_encode_at_most_k_simple vid vars k st) as [_ Hkeep].
  destruct (Hkeep seen Ht) as [seen' Ht']. fold st' in Ht'.
  assert (clauses st' = clauses st ++ seq_clauses (fun i j => id_of st' (key_SEQ vid i j)) vars k)
    as Hcl.
  { apply (yields_sequential_counter _ vid vars k Hk Hn st). apply reads_id_of. }
  rewrite Hcl, cnf_holds_app in Hholds. apply andb_true_iff in Hholds as [_ Hholds].
  apply (seq_clauses_sound (fun i j => id_of st' (key_SEQ vid i j)) vars k asg);
    [|done|lia|done].
  intros i j Hi Hj.
  destruct (seq_keys_present vid vars k st i j Hk Hn Hi Hj) as [v Hv]. fold st' in Hv.
  unfold id_of. rewrite Hv. simpl.
  pose proof (tracks_range _ _ _ _ Ht' Hv). lia.
Qed.

(** C4.  The at-most-k encoder by the magnitude of [k]: with
    [k >= |vars|] it appends nothing (every assignment is accepted); with
    [k < 0] it appends the unit clause [[-v]] for each variable; with
    [0 <= k <= 3] it appends, for every subsequence of [vars] of length
    [k + 1], the clause of its negated members, in the order of
    [itertools.combinations], so that [k = 0] forces every variable false and
    [k = |vars| - 1] rejects exactly the assignments that make every
    variable true; with [3 < k < |vars|] it appends the clauses of the
    sequential counter over the counter variables of its registry keys, and
    an assignment that satisfies them makes at most [k] variables true. *)
Theorem encode_at_most_k_simple_policy (vid : Z) (vars : list Z) (k : Z) (st : store) :
  let run := encode_at_most_k_simple vid vars k st in
  (len vars ≤ k → run = (tt, st)) ∧
  (k < 0 → run = (tt, with_clauses st (map (fun v => [- v]) vars))) ∧
  (0 ≤ k ≤ 3 →
     run = (tt, with_clauses st (map (map Z.opp) (combinations vars (Z.to_nat (k + 1)))))) ∧
  (∀ r s, s ∈ combinations vars r ↔ s `sublist_of` vars ∧ length s = r) ∧
  (Forall (λ v, 0 < v) vars → ∀ asg,
     (k ≤ 0 →
        (cnf_holds asg (clauses run.2) = true ↔
         cnf_holds asg (clauses st) = true ∧ ∀ v, v ∈ vars → asg v = false)) ∧
     (0 ≤ k ≤ 3 → k = len vars - 1 →
        (cnf_holds asg (clauses run.2) = true ↔
         cnf_holds asg (clauses st) = true ∧ ¬ ∀ v, v ∈ vars → asg v = true))) ∧
  (3 < k < len vars →
     var_map st ⊆ var_map run.2 ∧
     clauses run.2
     = clauses st ++ seq_clauses (fun i j => id_of run.2 (key_SEQ vid i j)) vars k ∧
     (∀ seen asg, tracks st seen → Forall (λ v, 0 < v) vars →
        cnf_holds asg (clauses run.2) = true → count_true asg vars ≤ k)).
Proof.
  intros run. subst run.
  split; [apply amk_trivial|]. split; [apply amk_negative|]. split; [apply amk_direct|].
  split; [intros r s; apply elem_of_combinations|]. split.
  - intros Hpos asg. split.
    + intros Hk.
      assert (clauses (encode_at_most_k_simple vid vars k st).2
              = clauses st ++ map (fun v => [- v]) vars) as ->.
      { destruct (decide (k < 0)) as [Hneg|Hz].
        - by rewrite amk_negative.
        - assert (k = 0) as -> by lia. rewrite amk_direct by lia. simpl.
          by rewrite combinations_1, map_map. }
      rewrite cnf_holds_app, andb_true_iff, units_hold by done. done.
    + intros Hk ->. rewrite amk_direct by done. simpl.
      replace (Z.to_nat (len vars - 1 + 1)) with (length vars) by (unfold len; lia).
      rewrite combinations_all, cnf_holds_app, andb_true_iff. simpl.
      rewrite andb_true_r. pose proof (all_negated_fails asg vars Hpos) as Hall.
      destruct (clause_holds asg (map Z.opp vars)).
      * split; intros [H1 _]; (split; [done|]); [|done].
        intros H. by apply Hall in H.
      * split; intros [H1 H2]; [done|]. exfalso. apply H2. by apply Hall.
  - intros [H3 Hn]. split; [|split].
    + apply (keeps_encode_at_most_k_simple vid vars k st).
    + apply (yields_sequential_counter _ vid vars k H3 Hn st). apply reads_id_of.
    + intros seen asg Ht Hpos Hholds. by eapply sequential_counter_sound.
Qed.

Lemma run_yields {A} V (m : enc A) a cs :
  (∀ st, m st = (a, with_clauses st cs)) → yields V m a cs.
Proof. intros H st _. unfold eval, exec. by rewrite H. Qed.

Lemma yields_encode_at_most_k_simple V vid vars k :
  yields V (encode_at_most_k_simple vid vars k) tt (at_most_k_clauses V vid vars k).
Proof.
  unfold at_most_k_clauses.
  destruct (Z.leb_spec (len vars) k).
  { apply run_yields. intros st. by rewrite amk_trivial, with_clauses_nil. }
  destruct (Z.ltb_spec k 0).
  { apply run_yields. intros st. by apply amk_negative. }
  destruct (Z.leb_spec k 3).
  { apply run_yields. intros st. by apply amk_direct. }
  by apply yields_sequential_counter.
Qed.

(** ** The turn-budget encoder *)

Lemma yields_turn_cell V c k s e x y :
  yields V (turn_cell c k s e x y) (turn_cell_vars V k s e x y)
    (turn_cell_clauses V c k s e x y).
Proof.
  unfold turn_cell, turn_cell_vars, turn_cell_clauses.
  destruct (cell_eqb (x, y) s || cell_eqb (x, y) e); [apply yields_ret|].
  apply yields_get_var_then; [intros; keeps_tac|].
  rewrite <-(app_nil_r (flat_map _ directions)).
  eapply yields_bind; [|intros; keeps_tac|apply yields_ret].
  apply yields_for; [intros; keeps_tac|].
  intros [d_in [dx_in dy_in]] _.
  destruct (in_bounds c (x - dx_in, y - dy_in)); cbn [negb]; [|apply yields_ret].
  apply yields_get_var_then; [intros; keeps_tac|].
  apply yields_for; [intros; keeps_tac|].
  intros [d_out [dx_out dy_out]] _.
  destruct (in_bounds c (x + dx_out, y + dy_out)); cbn [negb]; [|apply yields_ret].
  apply yields_get_var_then; [intros; keeps_tac|].
  destruct (String.eqb d_in d_out); cbn [negb]; apply (yields_add_clause V (_ :: _)).
Qed.

Lemma yields_turn_line V c ids k s e :
  0 ≤ J c →
  yields V (turn_line c ids k s e) tt
    (turn_line_clauses V c k s e
     ++ at_most_k_clauses V (ids k) (turn_line_vars V c k s e) (J c)).
Proof.
  intros HJ. unfold turn_line.
  eapply yields_bind.
  - apply yields_collect; [intros; keeps_tac; apply keeps_turn_cell|]. intros x _.
    apply yields_collect; [intros; apply keeps_turn_cell|]. intros y _.
    apply yields_turn_cell.
  - intros; keeps_tac. apply keeps_encode_at_most_k_simple.
  - fold (turn_line_vars V c k s e). destruct (Z.leb_spec 0 (J c)); [|lia]. simpl.
    destruct (turn_line_vars V c k s e) as [|v vars] eqn:E; simpl.
    + unfold at_most_k_clauses. change (len (@nil Z)) with 0.
      destruct (Z.leb_spec 0 (J c)); [apply yields_ret|lia].
    + apply yields_encode_at_most_k_simple.
Qed.

(** A loop over the lines, read in the registry it leaves. *)
Lemma for_lines_clauses c ks body cs st st' :
  (∀ k s e, keeps (body k s e)) →
  (∀ k s e, yields (id_of st') (body k s e) tt (cs k s e)) →
  for_lines c ks body st = Some st' →
  clauses st' = clauses st ++ lines_clauses c ks cs.
Proof.
  intros Hk Hy. revert st. induction ks as [|k ks IH]; intros st; simpl.
  - intros [= <-]. by rewrite app_nil_r.
  - unfold lines_clauses. simpl.
    destruct (starts c !! Z.to_nat k) as [s|]; [|done].
    destruct (ends c !! Z.to_nat k) as [e|]; [|done].
    intros H. rewrite (IH _ H).
    destruct (keeps_for_lines c ks body Hk _ _ H) as [Hsub _].
    destruct (Hy k s e st) as [_ ->].
    + eapply reads_mono; [exact Hsub|apply reads_id_of].
    + unfold lines_clauses. by rewrite <-app_assoc.
Qed.

(** The turn clauses of a cell, clause by clause. *)
Lemma elem_of_turn_cell_clauses V c k s e x y cl :
  cl ∈ turn_cell_clauses V c k s e x y ↔
  (x, y) ≠ s ∧ (x, y) ≠ e ∧
  ∃ d_in dx_in dy_in d_out dx_out dy_out,
    (d_in, (dx_in, dy_in)) ∈ directions ∧ (d_out, (dx_out, dy_out)) ∈ directions ∧
    in_bounds c (x - dx_in, y - dy_in) = true ∧
    in_bounds c (x + dx_out, y + dy_out) = true ∧
    cl = [- V (key_D (x - dx_in) (y - dy_in) k d_in);
          - V (key_D x y k d_out);
          if decide (d_in = d_out) then - V (key_T x y k) else V (key_T x y k)].
Proof.
  assert (∀ p q : Z * Z, cell_eqb p q = true ↔ p = q) as Hcell.
  { intros [p1 p2] [q1 q2]. unfold cell_eqb. simpl.
    rewrite andb_true_iff, !Z.eqb_eq. split; [by intros [-> ->]|by intros [= -> ->]]. }
  unfold turn_cell_clauses.
  destruct (cell_eqb (x, y) s || cell_eqb (x, y) e) eqn:E.
  - rewrite elem_of_nil. split; [done|]. intros (Hs & He & _).
    apply orb_true_iff in E as [E|E]; apply Hcell in E; done.
  - apply orb_false_iff in E as [Es Ee].
    assert ((x, y) ≠ s) by (intros E%Hcell; congruence).
    assert ((x, y) ≠ e) by (intros E%Hcell; congruence).
    rewrite elem_of_flat_map. split.
    + intros [[d_in [dx_in dy_in]] [Hin Hcl]].
      destruct (in_bounds c (x - dx_in, y - dy_in)) eqn:Bin; [|by apply elem_of_nil in Hcl].
      apply elem_of_flat_map in Hcl as [[d_out [dx_out dy_out]] [Hout Hcl]].
      destruct (in_bounds c (x + dx_out, y + dy_out)) eqn:Bout; [|by apply elem_of_nil in Hcl].
      apply list_elem_of_singleton in Hcl as ->.
      split; [done|]. split; [done|].
      exists d_in, dx_in, dy_in, d_out, dx_out, dy_out.
      repeat (split; [done|]).
      destruct (String.eqb_spec d_in d_out); by case_decide.
    + intros (_ & _ & d_in & dx_in & dy_in & d_out & dx_out & dy_out
              & Hin & Hout & Bin & Bout & ->).
      exists (d_in, (dx_in, dy_in)). split; [done|]. rewrite Bin.
      apply elem_of_flat_map. exists (d_out, (dx_out, dy_out)). split; [done|]. rewrite Bout.
      apply list_elem_of_singleton.
      destruct (String.eqb_spec d_in d_out); by case_decide.
Qed.

(** C9.  With a turn budget [J >= 0], the turn-budget encoder appends,
    line after line, the turn clauses of the line and then the clauses
    of the at-most-k encoder over the line's turn indicators and [J]; the
    turn clauses of a line are, at each cell that is neither its start nor its
    end and for each in-bound incoming direction [d_in] and in-bound outgoing
    direction [d_out], the clause [[-in; -out; turn]] when the directions
    differ and [[-in; -out; -turn]] when they are equal; the variables are
    the ids of the keys in the registry the encoder leaves. *)
Theorem encode_turn_constraints_spec (c : city) (ids : Z → Z) (st st' : store) :
  0 ≤ J c →
  encode_turn_constraints c ids st = Some st' →
  let V := id_of st' in
  clauses st'
  = clauses st
    ++ lines_clauses c (range (K c)) (fun k s e =>
         turn_line_clauses V c k s e
         ++ at_most_k_clauses V (ids k) (turn_line_vars V c k s e) (J c)) ∧
  (∀ k s e cl,
     cl ∈ turn_line_clauses V c k s e ↔
     ∃ x y, 0 ≤ x < N c ∧ 0 ≤ y < M c ∧ (x, y) ≠ s ∧ (x, y) ≠ e ∧
       ∃ d_in dx_in dy_in d_out dx_out dy_out,
         (d_in, (dx_in, dy_in)) ∈ directions ∧ (d_out, (dx_out, dy_out)) ∈ directions ∧
         in_bounds c (x - dx_in, y - dy_in) = true ∧
         in_bounds c (x + dx_out, y + dy_out) = true ∧
         cl = [- V (key_D (x - dx_in) (y - dy_in) k d_in);
               - V (key_D x y k d_out);
               if decide (d_in = d_out) then - V (key_T x y k) else V (key_T x y k)]) ∧
  (∀ k s e v,
     v ∈ turn_line_vars V c k s e ↔
     ∃ x y, 0 ≤ x < N c ∧ 0 ≤ y < M c ∧ (x, y) ≠ s ∧ (x, y) ≠ e ∧ v = V (key_T x y k)) ∧
  (∀ vid vars k st0,
     clauses (exec (encode_at_most_k_simple vid vars k) st0)
     = clauses st0
       ++ at_most_k_clauses (id_of (exec (encode_at_most_k_simple vid vars k) st0)) vid vars k).
Proof.
  intros HJ Hrun V. split.
  { apply (for_lines_clauses c _ (turn_line c ids)); [apply keeps_turn_line| |done].
    intros k s e. by apply yields_turn_line. }
  split.
  { intros k s e cl. unfold turn_line_clauses. rewrite elem_of_flat_map. split.
    - intros [x [Hx [y [Hy Hcl]]%elem_of_flat_map]].
      apply elem_of_range in Hx. apply elem_of_range in Hy.
      apply elem_of_turn_cell_clauses in Hcl as (Hs & He & Hcl).
      exists x, y. done.
    - intros (x & y & Hx & Hy & Hs & He & Hcl).
      exists x. split; [by apply elem_of_range|].
      apply elem_of_flat_map. exists y. split; [by apply elem_of_range|].
      by apply elem_of_turn_cell_clauses. }
  split.
  { assert (∀ p q : Z * Z, cell_eqb p q = true ↔ p = q) as Hcell.
    { intros [p1 p2] [q1 q2]. unfold cell_eqb. simpl.
      rewrite andb_true_iff, !Z.eqb_eq. split; [by intros [-> ->]|by intros [= -> ->]]. }
    intros k s e v. unfold turn_line_vars. rewrite elem_of_flat_map. split.
    - intros [x [Hx [y [Hy Hv]]%elem_of_flat_map]].
      apply elem_of_range in Hx. apply elem_of_range in Hy.
      unfold turn_cell_vars in Hv.
      destruct (cell_eqb (x, y) s || cell_eqb (x, y) e) eqn:E; [by apply elem_of_nil in Hv|].
      apply list_elem_of_singleton in Hv as ->.
      apply orb_false_iff in E as [Es Ee].
      exists x, y. repeat (split; [done|]).
      split; [intros E%Hcell; congruence|]. split; [intros E%Hcell; congruence|done].
    - intros (x & y & Hx & Hy & Hs & He & ->).
      exists x. split; [by apply elem_of_range|].
      apply elem_of_flat_map. exists y. split; [by apply elem_of_range|].
      unfold turn_cell_vars.
      destruct (cell_eqb (x, y) s || cell_eqb (x, y) e) eqn:E.
      + apply orb_true_iff in E as [E|E]; apply Hcell in E; done.
      + by apply list_elem_of_singleton. }
  intros vid vars k st0.
  apply (yields_encode_at_most_k_simple _ vid vars k st0), reads_id_of.
Qed.

(** An instance of C9: the square of four cells with one turn allowed. *)
Lemma encode_turn_constraints_spec_witness :
  let st' := default reset (encode_turn_constraints city_2x2 some_ids reset) in
  clauses st'
  = clauses reset
    ++ lines_clauses city_2x2 (range (K city_2x2)) (fun k s e =>
         turn_line_clauses (id_of st') city_2x2 k s e
         ++ at_most_k_clauses (id_of st') (some_ids k)
              (turn_line_vars (id_of st') city_2x2 k s e) (J city_2x2)).
Proof.
  refine (proj1 (encode_turn_constraints_spec city_2x2 some_ids reset _ _ _)).
  - simpl. lia.
  - vm_compute. reflexivity.
Defined.

(** What the guard [self.J >= 0] does with a negative budget: the
    at-most-k encoder is not called, although it would force every turn
    indicator false. *)
Lemma turn_line_negative_budget c ids k s e st :
  J c < 0 →
  exec (turn_line c ids k s e) st
  = exec (collect (range (N c)) (fun x =>
            collect (range (M c)) (fun y => turn_cell c k s e x y))) st.
Proof.
  intros HJ. unfold turn_line. rewrite exec_bind.
  destruct (Z.leb_spec 0 (J c)); [lia|]. done.
Qed.

(** ** Edge variables that point out of the grid *)

(** The first loop of [path_cell] requests the edge variable of the cell
    in every direction, in bounds or not. *)
Lemma path_cell_requests_every_direction c k s e x y st d :
  d ∈ decode_dirs →
  is_Some (var_map (exec (path_cell c k s e x y) st) !! var_name (key_D x y k d)).
Proof.
  intros Hd. unfold path_cell. rewrite exec_bind, exec_bind. cbv beta.
  apply keeps_present.
  { unfold out_dirs_of, inc_dirs_of.
    keeps_tac; first [apply keeps_encode_at_most_one | apply keeps_encode_exactly_one]. }
  set (st1 := exec (get_var (key_C x y k)) st). clearbody st1.
  set (cell_var := eval (get_var (key_C x y k)) st). clearbody cell_var.
  unfold decode_dirs in Hd. unfold directions. simpl.
  rewrite !exec_bind.
  repeat (apply elem_of_cons in Hd as [->|Hd];
          [repeat first [apply get_var_present
                        | apply keeps_present; [keeps_tac|] ]|]).
  by apply elem_of_nil in Hd.
Qed.

(** C1 fails on the code: the first loop of the cell body requests the
    edge variable of the cell in each of the four directions, whether or not
    the neighbour is in the grid.  On the grid of two cells side by side the
    encoder so allocates the variable of the edge that leaves the cell
    [(0, 0)] to the left, whose neighbour [(-1, 0)] is out of the grid; the
    only clause that mentions it (variable 3) is the implication to the
    occupancy of its own cell. *)
Theorem encode_to_sat_allocates_outward_edge :
  (∀ c k s e x y st d,
     d ∈ decode_dirs →
     is_Some (var_map (exec (path_cell c k s e x y) st) !! var_name (key_D x y k d))) ∧
  in_bounds city_2x1 (0 + -1, 0 + 0) = false ∧
  var_map (encoded city_2x1 some_ids) !! var_name (key_D 0 0 0 "L") = Some 3 ∧
  encode_to_sat city_2x1 some_ids reset
  = Some (dimacs (encoded city_2x1 some_ids), encoded city_2x1 some_ids) ∧
  var_counter (encoded city_2x1 some_ids) = 10 ∧
  clauses (encoded city_2x1 some_ids)
  = [[1]; [2]; [-3; 1]; [-4; 1]; [-5; 1]; [-6; 1]; [4]; [-7]; [-4; 2];
     [-7; 2]; [-8; 2]; [-9; 2]; [-10; 2]; [-7]; [-8]; [-9]; [-10]; [4]; [-7; 1]].
Proof.
  split; [intros; by apply path_cell_requests_every_direction|].
  repeat split; vm_compute; reflexivity.
Qed.

(** ** Calls that share their counter variables *)

Section Quiet.

Variable P : list arg → Prop.

Lemma quiet_ret {A} (a : A) : quiet P (ret a).
Proof. by intros st _. Qed.

Lemma quiet_bind {A B} (m : enc A) (f : A → enc B) :
  quiet P m → (∀ a, quiet P (f a)) → quiet P (bind m f).
Proof.
  intros Hm Hf st HP. rewrite exec_bind.
  destruct (Hm st HP) as [Hc Hv].
  destruct (Hf (eval m st) (exec m st)) as [Hc' Hv'].
  - intros a Ha. rewrite Hv. by apply HP.
  - split; congruence.
Qed.

Lemma quiet_get_var a : P a → quiet P (get_var a).
Proof.
  intros Ha st HP. destruct (HP a Ha) as [v Hv].
  unfold exec, get_var. by rewrite Hv.
Qed.

Lemma quiet_add_clause lits : quiet P (add_clause lits).
Proof. intros st _. unfold exec, add_clause. by destruct lits. Qed.

Lemma quiet_for {A} (l : list A) (body : A → enc unit) :
  (∀ x, x ∈ l → quiet P (body x)) → quiet P (for_ l body).
Proof.
  intros Hb. induction l as [|x l IH]; simpl; [apply quiet_ret|].
  apply quiet_bind; [apply Hb; by left|]. intros _. apply IH.
  intros y Hy. apply Hb. by right.
Qed.

Lemma quiet_collect {A B} (l : list A) (body : A → enc (list B)) :
  (∀ x, x ∈ l → quiet P (body x)) → quiet P (collect l body).
Proof.
  intros Hb. induction l as [|x l IH]; simpl; [apply quiet_ret|].
  apply quiet_bind; [apply Hb; by left|]. intros xs.
  apply quiet_bind; [|intros; apply quiet_ret]. apply IH.
  intros y Hy. apply Hb. by right.
Qed.

End Quiet.

(** The sequential-counter branch requests only its counter keys, which
    depend on [id(variables)], on the number of variables and on the bound,
    and not on the variables. *)
Lemma quiet_sequential_counter vid vars k :
  3 < k → k < len vars →
  quiet (seq_key vid (len vars) k) (encode_at_most_k_simple vid vars k).
Proof.
  intros Hk Hn. unfold encode_at_most_k_simple.
  destruct (Z.leb_spec (len vars) k); [lia|].
  destruct (Z.ltb_spec k 0); [lia|].
  destruct (Z.leb_spec k 3); [lia|].
  assert (∀ i j, 0 ≤ i ≤ len vars → 0 ≤ j ≤ Z.min i k + 1 →
                 quiet (seq_key vid (len vars) k) (get_var (key_SEQ vid i j))) as Hq.
  { intros i j Hi Hj. apply quiet_get_var. by exists i, j. }
  apply quiet_bind.
  - apply quiet_for. intros i Hi%elem_of_range.
    apply quiet_for. intros j Hj%elem_of_range.
    apply quiet_bind; [apply Hq; lia|]. intros s.
    destruct (Z.eqb_spec i 0); [destruct (j =? 0); apply quiet_add_clause|].
    destruct (Z.ltb_spec i j); [apply quiet_add_clause|].
    destruct (Z.eqb_spec j 0).
    { apply quiet_bind; [apply Hq; lia|]. intros ?.
      repeat (apply quiet_bind; [apply quiet_add_clause|intros ?]).
      apply quiet_add_clause. }
    destruct (Z.leb_spec j k); [|apply quiet_ret].
    apply quiet_bind; [apply Hq; lia|]. intros ?.
    apply quiet_bind; [apply Hq; lia|]. intros ?.
    repeat (apply quiet_bind; [apply quiet_add_clause|intros ?]).
    apply quiet_add_clause.
  - intros _. apply quiet_bind; [|intros; apply quiet_add_clause].
    apply quiet_collect. intros j Hj%elem_of_range.
    apply quiet_bind; [apply Hq; lia|]. intros ?. apply quiet_ret.
Qed.

(** Two calls of the sequential-counter branch with the same value of
    [id(variables)], over lists of the same length: the second allocates
    nothing, every counter variable it uses is one of the first call. *)
Lemma sequential_counter_shared vid vars1 vars2 k st :
  3 < k → k < len vars1 → len vars2 = len vars1 →
  var_counter (exec (encode_at_most_k_simple vid vars2 k)
                 (exec (encode_at_most_k_simple vid vars1 k) st))
  = var_counter (exec (encode_at_most_k_simple vid vars1 k) st) ∧
  var_map (exec (encode_at_most_k_simple vid vars2 k)
             (exec (encode_at_most_k_simple vid vars1 k) st))
  = var_map (exec (encode_at_most_k_simple vid vars1 k) st).
Proof.
  intros Hk Hn Hlen.
  apply (quiet_sequential_counter vid vars2 k); [done|lia|].
  intros a (i & j & Hi & Hj & ->). rewrite Hlen in Hi.
  by apply seq_keys_present.
Qed.

(** C2 fails on the code: two calls of the sequential-counter branch
    that get the same value of [id(variables)], over lists of the same length,
    share every counter variable: the second call allocates none.  For
    instance, in a registry that holds ten turn indicators (ids 1 to 10), the
    first call counts the first five and allocates 26 counter variables, the
    second call counts the other five and allocates none; the clauses of the
    two calls then tie the first variables of the two lists together, so an
    assignment with variable 1 true and variable 6 false is rejected whatever
    it gives to the other variables.  In the encoder, on nine cells with three
    lines and a budget of 4, the registry ends with 270 variables when the
    three lists have different addresses and with 232 when the third list has
    the address of the first: the 38 counter variables of the third line are
    those of the first. *)
Theorem sequential_counter_calls_alias :
  (∀ vid vars1 vars2 k st,
     3 < k → k < len vars1 → len vars2 = len vars1 →
     let st1 := exec (encode_at_most_k_simple vid vars1 k) st in
     let st2 := exec (encode_at_most_k_simple vid vars2 k) st1 in
     var_counter st2 = var_counter st1 ∧ var_map st2 = var_map st1) ∧
  (let st0 := exec (requests (map (fun y => key_T 0 y 0) (range 5)
                              ++ map (fun y => key_T 0 y 1) (range 5))) reset in
   let st1 := exec (encode_at_most_k_simple 140000 [1; 2; 3; 4; 5] 4) st0 in
   let st2 := exec (encode_at_most_k_simple 140000 [6; 7; 8; 9; 10] 4) st1 in
   var_counter st0 = 10 ∧ var_counter st1 = 36 ∧ var_counter st2 = 36 ∧
   var_map st2 = var_map st1 ∧
   (∀ asg, asg 1 = true → asg 6 = false → cnf_holds asg (clauses st2) = false)) ∧
  var_counter (encoded city_3x3 some_ids) = 270 ∧
  var_counter (encoded city_3x3 reused_ids) = 232.
Proof.
  split; [intros vid vars1 vars2 k st Hk Hn Hlen; by apply sequential_counter_shared|].
  split; [|split; vm_compute; reflexivity].
  intros st0 st1 st2.
  split; [vm_compute; reflexivity|]. split; [vm_compute; reflexivity|].
  split; [vm_compute; reflexivity|]. split; [vm_compute; reflexivity|].
  intros asg H1 H6. destruct (cnf_holds asg (clauses st2)) eqn:E; [|done].
  exfalso. rewrite cnf_holds_iff in E.
  assert ([11] ∈ clauses st2) as Ha by (apply (bool_decide_unpack _); by vm_compute).
  assert ([-1; -13] ∈ clauses st2) as Hb by (apply (bool_decide_unpack _); by vm_compute).
  assert ([6; -11; 13] ∈ clauses st2) as Hc by (apply (bool_decide_unpack _); by vm_compute).
  apply E in Ha, Hb, Hc. unfold clause_holds, lit_holds in *. simpl in *.
  change (- (-1)) with 1 in Hb. change (- (-13)) with 13 in Hb.
  change (- (-11)) with 11 in Hc.
  rewrite H1 in Hb. rewrite H6 in Hc.
  destruct (asg 11), (asg 13); done.
Qed.

(** ** The decoder *)

(** C7.  When the solver output file does not exist, or is empty, or
    its first line reads [UNSAT] once stripped, the decoder writes the line
    [0] and nothing else, whatever the lines of the city and the state of the
    encoder, which it leaves as it is. *)
Theorem decode_sat_output_sentinel (py_int : string → option Z) (fuel : nat) (c : city)
    (sat_output : option (list string)) (st : store) :
  (sat_output = None ∨ sat_output = Some [] ∨
   ∃ first rest, sat_output = Some (first :: rest) ∧ strip first = "UNSAT") →
  decode_sat_output py_int fuel c sat_output st = (Done ("0" +:+ newline), st).
Proof.
  intros [->|[->|(first & rest & -> & H)]]; [done..|].
  unfold decode_sat_output. by rewrite decide_True.
Qed.

(** An instance of C7: the report of a solver, with a line of statistics
    after it. *)
Lemma decode_sat_output_sentinel_witness :
  decode_sat_output int_of_token 0 city_3x1
    (Some [" UNSAT" +:+ newline; "c 12 conflicts" +:+ newline])
    (encoded city_3x1 some_ids)
  = (Done ("0" +:+ newline), encoded city_3x1 some_ids).
Proof.
  apply decode_sat_output_sentinel.
  right. right. eexists _, _. split; [reflexivity|]. by vm_compute.
Defined.

(** C8 fails on the code: on the grid of two cells side by side, the
    assignment that makes the variables 1 to 4 true satisfies every clause of
    the encoder, and variable 3 is the edge that leaves [(0, 0)] to the left.
    The decoder follows it out of the grid and requests the four edge
    variables of the cell [(-1, 0)], which the registry did not hold: the
    counter goes from 10 to 14 and [var_map] gets four new names. *)
Theorem decode_sat_output_allocates :
  let st := encoded city_2x1 some_ids in
  let sat_output :=
    Some ["SAT" +:+ newline; "1 2 3 4 -5 -6 -7 -8 -9 -10 0" +:+ newline] in
  let r := decode_sat_output int_of_token 10 city_2x1 sat_output st in
  cnf_holds (fun v => bool_decide (v ∈ [1; 2; 3; 4])) (clauses st) = true ∧
  r.1 = Done ("L 0" +:+ newline) ∧
  var_counter st = 10 ∧ var_counter r.2 = 14 ∧
  var_map st !! var_name (key_D (-1) 0 0 "L") = None ∧
  var_map r.2 !! var_name (key_D (-1) 0 0 "L") = Some 11 ∧
  clauses r.2 = clauses st.
Proof. repeat split; vm_compute; reflexivity. Qed.

(** ** The walk of the decoder *)

Lemma walk_O A k e p path st :
  walk 0 A k e p path st
  = if cell_eqb p e then (Done path, st) else (OutOfFuel, st).
Proof. simpl. by destruct (cell_eqb p e). Qed.

Lemma walk_S fuel A k e p path st :
  walk (S fuel) A k e p path st
  = if cell_eqb p e then (Done path, st)
    else match (first_dir A k p decode_dirs st).1 with
         | Some (d, p') =>
             walk fuel A k e p' (path ++ [d]) (first_dir A k p decode_dirs st).2
         | None => (Done path, (first_dir A k p decode_dirs st).2)
         end.
Proof.
  cbn [walk]. destruct (cell_eqb p e); [done|].
  rewrite bind_run. by destruct ((first_dir A k p decode_dirs st).1) as [[d p']|].
Qed.

Lemma walk_cells_S fuel A k e p st :
  walk_cells (S fuel) A k e p st
  = p :: (if cell_eqb p e then []
          else match (first_dir A k p decode_dirs st).1 with
               | Some (_, p') =>
                   walk_cells fuel A k e p' (first_dir A k p decode_dirs st).2
               | None => []
               end).
Proof.
  cbn [walk_cells]. destruct (cell_eqb p e); [done|].
  by destruct (first_dir A k p decode_dirs st) as [[[d p']|] st1].
Qed.

Lemma cell_eqb_eq p q : cell_eqb p q = true ↔ p = q.
Proof.
  destruct p as [p1 p2], q as [q1 q2]. unfold cell_eqb. simpl.
  rewrite andb_true_iff, !Z.eqb_eq. split; [by intros [-> ->]|by intros [= -> ->]].
Qed.

(** One iteration of the walk: the registry grows and keeps tracking, no
    clause is added, and the answer is the first direction, in the order
    tried, whose variable is asserted true. *)
Lemma first_dir_spec (A : gset Z) k p ds st seen :
  tracks st seen →
  var_map st ⊆ var_map (first_dir A k p ds st).2 ∧
  clauses (first_dir A k p ds st).2 = clauses st ∧
  (∃ seen', tracks (first_dir A k p ds st).2 seen') ∧
  match (first_dir A k p ds st).1 with
  | Some (d, p') =>
      d ∈ ds ∧ p' = move p d ∧
      ∃ v, v ∈ A ∧ var_map (first_dir A k p ds st).2 !! var_name (key_D p.1 p.2 k d) = Some v
  | None =>
      ∀ d, d ∈ ds →
        ∃ v, (v ∉ A) ∧ var_map (first_dir A k p ds st).2 !! var_name (key_D p.1 p.2 k d) = Some v
  end.
Proof.
  revert st seen. induction ds as [|d ds IH]; intros st seen Ht; simpl.
  - split; [done|]. split; [done|]. split; [by exists seen|]. intros d Hd. by apply elem_of_nil in Hd.
  - rewrite bind_run.
    destruct (get_var_tracks st seen (key_D p.1 p.2 k d) Ht) as [Ht1 _].
    destruct (keeps_get_var (key_D p.1 p.2 k d) st) as [Hsub _].
    pose proof (get_var_present (key_D p.1 p.2 k d) st) as [v Hv].
    assert (clauses (exec (get_var (key_D p.1 p.2 k d)) st) = clauses st) as Hcl.
    { unfold exec, get_var. by destruct (var_map st !! _). }
    assert (eval (get_var (key_D p.1 p.2 k d)) st = v) as Hev.
    { unfold exec, eval, get_var in *.
      destruct (var_map st !! var_name (key_D p.1 p.2 k d)) eqn:E; simpl in *.
      - congruence.
      - rewrite lookup_insert_eq in Hv. congruence. }
    unfold exec, eval in *. destruct (get_var (key_D p.1 p.2 k d) st) as [v' st1].
    simpl in *. subst v'.
    destruct (decide (v ∈ A)) as [Hin|Hnot]; simpl.
    + split; [done|]. split; [done|]. split; [by eexists|].
      split; [by left|]. split; [done|]. by exists v.
    + destruct (IH st1 _ Ht1) as (Hsub2 & Hcl2 & Ht2 & Hres).
      split; [by etrans|]. split; [congruence|]. split; [done|].
      destruct ((first_dir A k p ds st1).1) as [[d' p']|].
      * destruct Hres as (Hd' & -> & Hv'). split; [by right|]. done.
      * intros d0 [->|Hd0]%elem_of_cons; [|by apply Hres].
        exists v. split; [done|]. by eapply lookup_weaken.
Qed.

(** Edge keys of different cells have different names. *)
Lemma key_D_cell_inj (p q : Z * Z) k d d' :
  d ∈ decode_dirs → d' ∈ decode_dirs →
  var_name (key_D p.1 p.2 k d) = var_name (key_D q.1 q.2 k d') → p = q.
Proof.
  intros Hd Hd' E. apply var_name_inj in E; [|by constructor..].
  destruct p, q. simpl in E. by injection E as -> -> _.
Qed.

(** The walk stops when it never stands twice on a cell: every move uses
    an asserted variable that no earlier move has used. *)
Lemma walk_stops_aux (A : gset Z) k e fuel :
  ∀ p path st seen (vis : list (Z * Z)) (U : gset Z),
    tracks st seen →
    U ⊆ A →
    (∀ u, u ∈ U → ∃ q d, q ∈ vis ∧ d ∈ decode_dirs ∧
                         var_map st !! var_name (key_D q.1 q.2 k d) = Some u) →
    NoDup (vis ++ walk_cells fuel A k e p st) →
    (size A < size U + fuel)%nat →
    ∃ suffix st',
      walk fuel A k e p path st = (Done (path ++ suffix), st') ∧
      (length suffix + size U ≤ size A)%nat ∧
      (foldl move p suffix = e ∨
       ∀ d, d ∈ decode_dirs →
            id_of st' (key_D (foldl move p suffix).1 (foldl move p suffix).2 k d) ∉ A).
Proof.
  induction fuel as [|fuel IH]; intros p path st seen vis U Ht HU Hused Hnd Hfuel.
  - apply subseteq_size in HU. lia.
  - rewrite walk_S. rewrite walk_cells_S in Hnd.
    destruct (cell_eqb p e) eqn:Ee.
    { exists [], st. rewrite app_nil_r. split; [done|]. split.
      - apply subseteq_size in HU. simpl. lia.
      - left. by apply cell_eqb_eq. }
    destruct (first_dir_spec A k p decode_dirs st seen Ht) as (Hsub & _ & [seen1 Ht1] & Hres).
    destruct ((first_dir A k p decode_dirs st).1) as [[d p']|].
    + destruct Hres as (Hd & -> & v & Hv & Hlook).
      assert (p ∉ vis) as Hp.
      { apply NoDup_app in Hnd as (_ & Hdisj & _). intros Hin.
        apply (Hdisj p Hin). by left. }
      assert (v ∉ U) as HvU.
      { intros (q & d' & Hq & Hd' & Hq')%Hused.
        apply (lookup_weaken _ _ _ _ Hq') in Hsub.
        assert (q = p) as ->; [|done].
        eapply (key_D_cell_inj q p k d' d); [done..|].
        by eapply tracks_inj. }
      destruct (IH (move p d) (path ++ [d]) (first_dir A k p decode_dirs st).2 seen1
                  (vis ++ [p]) ({[v]} ∪ U))
        as (suffix & st' & Hw & Hlen & Hend).
      * done.
      * apply union_subseteq. split; [by apply singleton_subseteq_l|done].
      * intros u [->%elem_of_singleton|Hu]%elem_of_union.
        -- exists p, d. split; [apply elem_of_app; right; by left|]. done.
        -- destruct (Hused u Hu) as (q & d' & Hq & Hd' & Hq').
           exists q, d'. split; [apply elem_of_app; by left|].
           split; [done|]. by eapply lookup_weaken.
      * by rewrite <-app_assoc.
      * rewrite size_union, size_singleton by (by apply disjoint_singleton_l). lia.
      * exists (d :: suffix), st'. rewrite Hw, <-app_assoc. split; [done|].
        rewrite size_union, size_singleton in Hlen by (by apply disjoint_singleton_l).
        split; [simpl; lia|done].
    + exists [], (first_dir A k p decode_dirs st).2. rewrite app_nil_r.
      split; [done|]. split.
      * apply subseteq_size in HU. simpl. lia.
      * right. cbn [foldl]. intros d Hd. destruct (Hres d Hd) as (v & Hv & Hlook).
        unfold id_of. by rewrite Hlook.
Qed.

(** The walk only adds to the registry. *)
Lemma first_dir_mono (A : gset Z) k p ds st :
  var_map st ⊆ var_map (first_dir A k p ds st).2 ∧
  clauses (first_dir A k p ds st).2 = clauses st.
Proof.
  revert st. induction ds as [|d ds IH]; intros st; simpl; [done|].
  rewrite bind_run.
  destruct (keeps_get_var (key_D p.1 p.2 k d) st) as [Hsub _].
  assert (clauses (exec (get_var (key_D p.1 p.2 k d)) st) = clauses st) as Hcl.
  { unfold exec, get_var. by destruct (var_map st !! _). }
  unfold exec in *. destruct (get_var (key_D p.1 p.2 k d) st) as [v st1]. simpl in *.
  destruct (decide (v ∈ A)); simpl; [done|].
  destruct (IH st1) as [Hsub1 Hcl1]. split; [by etrans|congruence].
Qed.

(** A move of the walk is repeated in every later registry: the keys it
    requested are there, with the same ids. *)
Lemma first_dir_stable (A : gset Z) k p ds st d p' :
  (first_dir A k p ds st).1 = Some (d, p') →
  ∀ st2, var_map (first_dir A k p ds st).2 ⊆ var_map st2 →
         first_dir A k p ds st2 = (Some (d, p'), st2).
Proof.
  revert st. induction ds as [|d0 ds IH]; intros st; simpl; [done|].
  rewrite !bind_run.
  pose proof (get_var_present (key_D p.1 p.2 k d0) st) as [v Hv].
  assert (eval (get_var (key_D p.1 p.2 k d0)) st = v) as Hev.
  { unfold exec, eval, get_var in *.
    destruct (var_map st !! var_name (key_D p.1 p.2 k d0)) eqn:E; simpl in *.
    - congruence.
    - rewrite lookup_insert_eq in Hv. congruence. }
  unfold exec, eval in *. destruct (get_var (key_D p.1 p.2 k d0) st) as [v' st1].
  simpl in *. subst v'.
  destruct (decide (v ∈ A)) as [Hin|Hnot]; simpl.
  - intros [= <- <-] st2 Hsub. rewrite bind_run.
    rewrite (lookup_present st2 _ v (lookup_weaken _ _ _ _ Hv Hsub) _ eq_refl). simpl.
    by rewrite decide_True.
  - intros Hres st2 Hsub. rewrite bind_run.
    assert (var_map st1 ⊆ var_map st2) as Hsub1.
    { etrans; [|exact Hsub].
      destruct (first_dir_mono A k p ds st1) as [H _]. exact H. }
    rewrite (lookup_present st2 _ v (lookup_weaken _ _ _ _ Hv Hsub1) _ eq_refl). simpl.
    rewrite decide_False by done. by apply (IH st1).
Qed.

(** A set of cells that the walk cannot leave: none is the end cell, and
    from each of them the walk moves, in every registry that extends [st],
    to a cell of the set, without changing the registry. *)
Lemma walk_trapped (A : gset Z) k e (vis : list (Z * Z)) st :
  (∀ q, q ∈ vis →
        cell_eqb q e = false ∧
        ∃ d q', q' ∈ vis ∧ first_dir A k q decode_dirs st = (Some (d, q'), st)) →
  ∀ fuel p path, p ∈ vis → walk fuel A k e p path st = (OutOfFuel, st).
Proof.
  intros Hvis. induction fuel as [|fuel IH]; intros p path Hp.
  - rewrite walk_O. by destruct (Hvis p Hp) as [-> _].
  - rewrite walk_S. destruct (Hvis p Hp) as [-> (d & q' & Hq' & ->)]. simpl. by apply IH.
Qed.

(** A walk that stops has not stood twice on a cell.  [vis] holds the
    cells left so far: each of them leads, in every later registry, to
    another of them or to the present cell. *)
Lemma walk_done_nodup (A : gset Z) k e fuel :
  ∀ p path st (vis : list (Z * Z)) path' st',
    NoDup vis →
    (∀ q, q ∈ vis →
          cell_eqb q e = false ∧
          ∃ d q', (q' ∈ vis ∨ q' = p) ∧
                  ∀ st2, var_map st ⊆ var_map st2 →
                         first_dir A k q decode_dirs st2 = (Some (d, q'), st2)) →
    walk fuel A k e p path st = (Done path', st') →
    ∀ F, NoDup (vis ++ walk_cells F A k e p st).
Proof.
  induction fuel as [|fuel IH]; intros p path st vis path' st' Hnd Hvis Hw F.
  - rewrite walk_O in Hw. destruct (cell_eqb p e) eqn:Ee; [|done].
    assert (walk_cells F A k e p st = [p]) as ->.
    { destruct F; simpl; by rewrite Ee. }
    apply NoDup_app. split; [done|]. split; [|apply NoDup_singleton].
    intros q Hq ->%list_elem_of_singleton. destruct (Hvis _ Hq) as [? _]. congruence.
  - assert (p ∉ vis) as Hp.
    { intros Hp.
      assert (walk (S fuel) A k e p path st = (OutOfFuel, st)) as Hloop; [|congruence].
      apply (walk_trapped A k e vis); [|done].
      intros q Hq. destruct (Hvis q Hq) as [He (d & q' & Hq' & Hst)].
      split; [done|]. exists d, q'. split; [|by apply Hst].
      destruct Hq' as [?| ->]; done. }
    rewrite walk_S in Hw. destruct (cell_eqb p e) eqn:Ee.
    { assert (walk_cells F A k e p st = [p]) as ->.
      { destruct F; simpl; by rewrite Ee. }
      apply NoDup_app. split; [done|]. split; [|apply NoDup_singleton].
      by intros q Hq ->%list_elem_of_singleton. }
    pose proof (first_dir_stable A k p decode_dirs st) as Hstable.
    pose proof (first_dir_mono A k p decode_dirs st) as [Hsub _].
    destruct F as [|F].
    { simpl. rewrite Ee. apply NoDup_app. split; [done|]. split; [|apply NoDup_singleton].
      by intros q Hq ->%list_elem_of_singleton. }
    rewrite walk_cells_S, Ee.
    destruct ((first_dir A k p decode_dirs st).1) as [[d p']|] eqn:E1.
    + replace (vis ++ p :: walk_cells F A k e p' (first_dir A k p decode_dirs st).2)
        with ((vis ++ [p]) ++ walk_cells F A k e p' (first_dir A k p decode_dirs st).2)
        by (by rewrite <-app_assoc).
      eapply IH; [| |exact Hw].
      * apply NoDup_app. split; [done|]. split; [|apply NoDup_singleton].
        by intros q Hq ->%list_elem_of_singleton.
      * intros q [Hq| ->%list_elem_of_singleton]%elem_of_app.
        -- destruct (Hvis q Hq) as [He (d' & q' & Hq' & Hst)].
           split; [done|]. exists d', q'. split.
           ++ left. apply elem_of_app. destruct Hq' as [?| ->]; [by left|right; by left].
           ++ intros st2 Hsub2. apply Hst. by etrans.
        -- split; [done|]. exists d, p'. split; [by right|].
           intros st2 Hsub2. by apply Hstable.
    + apply NoDup_app. split; [done|]. split; [|apply NoDup_singleton].
      by intros q Hq ->%list_elem_of_singleton.
Qed.

(** C10 as the code has it: from a registry built by the encoder, and
    for every finite set of variables asserted true, the walk of a line stops
    if and only if it never stands twice on a cell; it then stops after at
    most as many moves as there are asserted variables, at the end cell of
    the line or at a cell where no outgoing-direction variable is asserted
    true. *)
Theorem walk_stops_without_revisit (A : gset Z) (k : Z) (e s : Z * Z) (st : store)
    (seen : list string) :
  tracks st seen →
  (walk_stops A k e s st ↔ NoDup (walk_cells (S (size A)) A k e s st)) ∧
  (NoDup (walk_cells (S (size A)) A k e s st) →
   ∃ path st',
     walk (S (size A)) A k e s [] st = (Done path, st') ∧
     (length path ≤ size A)%nat ∧
     (foldl move s path = e ∨
      ∀ d, d ∈ decode_dirs →
           id_of st' (key_D (foldl move s path).1 (foldl move s path).2 k d) ∉ A)).
Proof.
  intros Ht.
  assert (NoDup (walk_cells (S (size A)) A k e s st) →
          ∃ path st',
            walk (S (size A)) A k e s [] st = (Done path, st') ∧
            (length path ≤ size A)%nat ∧
            (foldl move s path = e ∨
             ∀ d, d ∈ decode_dirs →
                  id_of st' (key_D (foldl move s path).1 (foldl move s path).2 k d) ∉ A))
    as Hstops.
  { intros Hnd.
    destruct (walk_stops_aux A k e (S (size A)) s [] st seen [] ∅ Ht)
      as (path & st' & Hw & Hlen & Hend).
    - apply empty_subseteq.
    - intros u Hu. by apply elem_of_empty in Hu.
    - done.
    - rewrite size_empty. lia.
    - exists path, st'. rewrite size_empty in Hlen. split; [done|]. split; [lia|done]. }
  split; [|done]. split.
  - intros (fuel & path & st' & Hw).
    change (NoDup ([] ++ walk_cells (S (size A)) A k e s st)).
    apply (walk_done_nodup A k e fuel s [] st [] path st'); [constructor| |done].
    intros q Hq. by apply elem_of_nil in Hq.
  - intros Hnd. destruct (Hstops Hnd) as (path & st' & Hw & _). by exists (S (size A)), path, st'.
Qed.

(** An instance of C10: on three cells in a row, the two edges to the
    right asserted true lead the walk from the start to the end. *)
Lemma walk_stops_without_revisit_witness :
  ∃ path st',
    walk (S (size edges_right)) edges_right 0 (2, 0) (0, 0) []
      (encoded city_3x1 some_ids) = (Done path, st') ∧
    (length path ≤ size edges_right)%nat ∧
    (foldl move (0, 0) path = (2, 0) ∨
     ∀ d, d ∈ decode_dirs →
          id_of st' (key_D (foldl move (0, 0) path).1 (foldl move (0, 0) path).2 0 d)
          ∉ edges_right).
Proof.
  destruct (encode_to_sat_tracks city_3x1 some_ids reset
              (dimacs (encoded city_3x1 some_ids)) (encoded city_3x1 some_ids))
    as [_ [seen Hseen]]; [vm_compute; reflexivity|].
  apply (proj2 (walk_stops_without_revisit edges_right 0 (2, 0) (0, 0) _ seen Hseen)).
  apply (bool_decide_unpack _). by vm_compute.
Defined.

(** C10 as the claim states it fails: on three cells in a row, with
    the edge from [(0, 0)] to the right (variable 5) and the edge from
    [(1, 0)] to the left (variable 8) asserted true, the walk of the line from
    [(0, 0)] to [(2, 0)] goes back and forth between the first two cells and
    never stops. *)
Lemma walk_cycles_forever :
  id_of (encoded city_3x1 some_ids) (key_D 0 0 0 "R") = 5 ∧
  id_of (encoded city_3x1 some_ids) (key_D 1 0 0 "L") = 8 ∧
  ¬ walk_stops edges_back_and_forth 0 (2, 0) (0, 0) (encoded city_3x1 some_ids).
Proof.
  split; [vm_compute; reflexivity|]. split; [vm_compute; reflexivity|].
  set (st := encoded city_3x1 some_ids).
  assert (first_dir edges_back_and_forth 0 (0, 0) decode_dirs st = (Some ("R", (1, 0)), st)) as H0
    by (vm_compute; reflexivity).
  assert (first_dir edges_back_and_forth 0 (1, 0) decode_dirs st = (Some ("L", (0, 0)), st)) as H1
    by (vm_compute; reflexivity).
  clearbody st.
  assert (∀ fuel path,
            walk fuel edges_back_and_forth 0 (2, 0) (0, 0) path st = (OutOfFuel, st) ∧
            walk fuel edges_back_and_forth 0 (2, 0) (1, 0) path st = (OutOfFuel, st)) as Hloop.
  { induction fuel as [|fuel IH]; intros path.
    - rewrite !walk_O. done.
    - rewrite !walk_S, H0, H1. split; apply IH. }
  intros (fuel & path & st' & Hw).
  destruct (Hloop fuel []) as [Hw' _]. congruence.
Qed.

(** ** Lines without a start or an end *)

Lemma for_lines_is_Some c ks body st :
  is_Some (for_lines c ks body st) ↔
  ∀ k, k ∈ ks → is_Some (starts c !! Z.to_nat k) ∧ is_Some (ends c !! Z.to_nat k).
Proof.
  revert st. induction ks as [|k ks IH]; intros st; simpl.
  - split; [|by eexists]. intros _ k Hk. by apply elem_of_nil in Hk.
  - split.
    + intros H k' Hk'.
      destruct (starts c !! Z.to_nat k) as [s|] eqn:Es; [|by destruct H].
      destruct (ends c !! Z.to_nat k) as [e|] eqn:Ee; [|by destruct H].
      apply elem_of_cons in Hk' as [->|Hk'].
      * rewrite Es, Ee. split; by eexists.
      * by apply (IH (exec (body k s e) st)).
    + intros H. destruct (H k) as [[s Es] [e Ee]]; [by left|].
      rewrite Es, Ee. apply IH. intros k' Hk'. apply H. by right.
Qed.

Lemma lines_known c :
  (∀ k, k ∈ range (K c) →
        is_Some (starts c !! Z.to_nat k) ∧ is_Some (ends c !! Z.to_nat k)) ↔
  K c ≤ 0 ∨ (K c ≤ len (starts c) ∧ K c ≤ len (ends c)).
Proof.
  unfold len. split.
  - intros H. destruct (decide (K c ≤ 0)) as [?|Hpos]; [by left|]. right.
    destruct (H (K c - 1)) as [Hs He]; [apply elem_of_range; lia|].
    apply lookup_lt_is_Some in Hs, He. lia.
  - intros H k Hk%elem_of_range. destruct H as [?|[Hs He]]; [lia|].
    split; apply lookup_lt_is_Some; lia.
Qed.

(** X1.  The encoder raises [IndexError] exactly when there are more lines
    than starts or than ends; otherwise it runs to its end and writes the
    text of the store it leaves. *)
Theorem encode_to_sat_index_error (c : city) (ids : Z → Z) (st : store) :
  (encode_to_sat c ids st = None ↔
   0 < K c ∧ (len (starts c) < K c ∨ len (ends c) < K c)) ∧
  (∀ text st', encode_to_sat c ids st = Some (text, st') → text = dimacs st').
Proof.
  assert (∀ st1, is_Some (encode_path_constraints c st1) ↔
                 K c ≤ 0 ∨ (K c ≤ len (starts c) ∧ K c ≤ len (ends c))) as Hp.
  { intros st1. unfold encode_path_constraints. by rewrite for_lines_is_Some, lines_known. }
  assert (∀ st1, is_Some (encode_turn_constraints c ids st1) ↔
                 K c ≤ 0 ∨ (K c ≤ len (starts c) ∧ K c ≤ len (ends c))) as Ht.
  { intros st1. unfold encode_turn_constraints. by rewrite for_lines_is_Some, lines_known. }
  split.
  - unfold encode_to_sat.
    set (st1 := exec (encode_cell_constraints c) _).
    specialize (Hp st1).
    destruct (encode_path_constraints c st1) as [st2|] eqn:E2; simpl.
    + specialize (Ht st2).
      destruct (encode_turn_constraints c ids st2) as [st3|] eqn:E3; simpl.
      * split; [done|]. intros [Hpos Hshort].
        destruct Ht as [Ht _]. destruct Ht as [?|[? ?]]; [by eexists|lia|lia].
      * split; [|done]. intros _.
        destruct Hp as [Hp _]. destruct Hp as [?|[? ?]]; [by eexists| |].
        -- destruct Ht as [_ Ht]. destruct Ht as [? Ht]; [by left|done].
        -- destruct Ht as [_ Ht]. destruct Ht as [? Ht]; [by right|done].
    + split; [|done]. intros _.
      destruct (decide (K c ≤ 0)) as [?|?].
      * destruct Hp as [_ Hp]. destruct Hp as [? Hp]; [by left|done].
      * split; [lia|].
        destruct (decide (K c ≤ len (starts c))); [|lia].
        destruct (decide (K c ≤ len (ends c))); [|lia].
        destruct Hp as [_ Hp]. destruct Hp as [? Hp]; [by right|done].
  - intros text st' H. unfold encode_to_sat in H.
    destruct (encode_path_constraints c _) as [st2|]; simpl in H; [|done].
    destruct (encode_turn_constraints c ids st2) as [st3|]; simpl in H; [|done].
    by injection H as <- <-.
Qed.

(** ** What the direct encodings mean *)

Lemma count_true_cons asg x l :
  count_true asg (x :: l) = (if asg x then 1 else 0) + count_true asg l.
Proof.
  unfold count_true, len. rewrite filter_cons. destruct (asg x) eqn:E.
  - rewrite decide_True by done. simpl length. lia.
  - rewrite decide_False by congruence. lia.
Qed.

Lemma count_true_zero asg l :
  count_true asg l = 0 ↔ ∀ v, v ∈ l → asg v = false.
Proof.
  induction l as [|x l IH].
  - split; [|done]. intros _ v Hv. by apply elem_of_nil in Hv.
  - rewrite count_true_cons. pose proof (count_true_bounds asg l) as Hb. split.
    + intros H v [->|Hv]%elem_of_cons.
      * destruct (asg x); [lia|done].
      * apply IH; [|done]. destruct (asg x); lia.
    + intros H. rewrite (H x) by (by left).
      assert (count_true asg l = 0) as ->; [|done]. apply IH. intros v Hv. apply H. by right.
Qed.

Lemma clause_holds_cons asg l cl :
  clause_holds asg (l :: cl) = lit_holds asg l || clause_holds asg cl.
Proof. done. Qed.

Lemma cnf_holds_map_ext {A} asg (f g : A → list Z) (l : list A) :
  (∀ s, clause_holds asg (f s) = clause_holds asg (g s)) →
  cnf_holds asg (map f l) = cnf_holds asg (map g l).
Proof.
  intros H. induction l as [|s l IH]; simpl; [done|]. by rewrite H, IH.
Qed.

(** The clauses over the [r]-element subsequences hold exactly when
    fewer than [r] variables are true. *)
Lemma combinations_hold asg (vars : list Z) (r : nat) :
  Forall (λ v, 0 < v) vars →
  cnf_holds asg (map (map Z.opp) (combinations vars r)) = true ↔
  count_true asg vars < Z.of_nat r.
Proof.
  intros Hpos. revert r. induction Hpos as [|x l Hx Hl IH]; intros r.
  - destruct r; simpl.
    + change (count_true asg []) with 0. split; [done|lia].
    + change (count_true asg []) with 0. split; [lia|done].
  - pose proof (count_true_bounds asg l) as Hb. rewrite count_true_cons.
    destruct r as [|r]; simpl.
    + split; [done|]. destruct (asg x); lia.
    + rewrite map_app, cnf_holds_app, andb_true_iff, (IH (S r)), map_map.
      destruct (asg x) eqn:Ex.
      * assert (cnf_holds asg (map (λ s, map Z.opp (x :: s)) (combinations l r))
                = cnf_holds asg (map (map Z.opp) (combinations l r))) as ->.
        { apply cnf_holds_map_ext. intros s.
          change (map Z.opp (x :: s)) with (- x :: map Z.opp s).
          rewrite clause_holds_cons, lit_holds_neg, Ex by done. done. }
        rewrite (IH r). lia.
      * assert (cnf_holds asg (map (λ s, map Z.opp (x :: s)) (combinations l r)) = true) as ->.
        { apply cnf_holds_iff. intros cl [s [-> _]]%list_elem_of_fmap.
          change (map Z.opp (x :: s)) with (- x :: map Z.opp s).
          rewrite clause_holds_cons, lit_holds_neg, Ex by done. done. }
        lia.
Qed.

(** X2.  The direct branch of the at-most-k encoder is exact: the clause
    list it leaves holds exactly when the one it was given holds and at most
    [k] of the variables are true.  The same is true when [k] is at least the
    number of variables, where nothing is appended. *)
Theorem encode_at_most_k_simple_exact (vid : Z) (vars : list Z) (k : Z) (st : store)
    (asg : Z → bool) :
  Forall (λ v, 0 < v) vars →
  0 ≤ k ≤ 3 ∨ (0 ≤ k ∧ len vars ≤ k) →
  cnf_holds asg (clauses (exec (encode_at_most_k_simple vid vars k) st)) = true ↔
  cnf_holds asg (clauses st) = true ∧ count_true asg vars ≤ k.
Proof.
  intros Hpos Hk. pose proof (count_true_bounds asg vars) as Hb.
  destruct (decide (len vars ≤ k)) as [Hle|Hgt].
  - unfold exec. rewrite amk_trivial by done. simpl. split; [|tauto]. intros H. split; [done|lia].
  - destruct Hk as [Hk|[? ?]]; [|lia].
    unfold exec. rewrite amk_direct by done. simpl.
    rewrite cnf_holds_app, andb_true_iff, combinations_hold by done. 
    replace (Z.of_nat (Z.to_nat (k + 1))) with (k + 1) by lia.
    split; intros [? ?]; (split; [done|lia]).
Qed.

(** An instance: three variables, at most one of them true. *)
Lemma encode_at_most_k_simple_exact_witness :
  cnf_holds (fun v => v =? 2)
    (clauses (exec (encode_at_most_k_simple 0 [1; 2; 3] 1) reset)) = true ↔
  cnf_holds (fun v => v =? 2) (clauses reset) = true ∧
  count_true (fun v => v =? 2) [1; 2; 3] ≤ 1.
Proof.
  apply encode_at_most_k_simple_exact.
  - repeat constructor.
  - left. lia.
Defined.

(** The pairwise clauses hold exactly when at most one position of the
    list holds a true variable. *)
Lemma pair_clauses_hold asg (vars : list Z) :
  Forall (λ v, 0 < v) vars →
  cnf_holds asg (pair_clauses vars) = true ↔ count_true asg vars ≤ 1.
Proof.
  intros Hpos.
  assert (cnf_holds asg (pair_clauses vars) = true ↔
          ∀ (i j : nat) vi vj, (i < j)%nat → vars !! i = Some vi → vars !! j = Some vj →
                               asg vi = false ∨ asg vj = false) as ->.
  { rewrite cnf_holds_iff. rewrite Forall_forall in Hpos. split.
    - intros H i j vi vj Hij Hi Hj.
      assert (clause_holds asg [- vi; - vj] = true) as Hc.
      { apply H, elem_of_pair_clauses. by exists i, j, vi, vj. }
      unfold clause_holds in Hc. simpl in Hc.
      rewrite !lit_holds_neg in Hc by (apply Hpos; by eapply list_elem_of_lookup_2).
      destruct (asg vi), (asg vj); auto.
    - intros H cl (i & j & vi & vj & Hij & Hi & Hj & ->)%elem_of_pair_clauses.
      unfold clause_holds. simpl.
      rewrite !lit_holds_neg by (apply Hpos; by eapply list_elem_of_lookup_2).
      destruct (H i j vi vj Hij Hi Hj) as [-> | ->]; simpl; [done|by rewrite orb_true_r]. }
  clear Hpos. induction vars as [|x l IH].
  - change (count_true asg []) with 0. split; [lia|]. intros _ i j vi vj _ Hi. by rewrite lookup_nil in Hi.
  - rewrite count_true_cons. pose proof (count_true_bounds asg l) as Hb. split.
    + intros H.
      assert (count_true asg l ≤ 1) as Hl.
      { apply IH. intros i j vi vj Hij Hi Hj. apply (H (S i) (S j)); [lia|done..]. }
      destruct (asg x) eqn:Ex; [|lia].
      assert (count_true asg l = 0) as ->; [|lia].
      apply count_true_zero. intros v [j Hj]%list_elem_of_lookup.
      destruct (H 0%nat (S j) x v) as [?|?]; [lia|done|done|congruence|done].
    + intros H [|i] [|j] vi vj Hij Hi Hj; simpl in *; try lia.
      * injection Hi as ->. destruct (asg vi) eqn:Ex; [|by left]. right.
        assert (count_true asg l = 0) as Hz by lia.
        eapply count_true_zero; [exact Hz|]. by eapply list_elem_of_lookup_2.
      * assert (count_true asg l ≤ 1) as Hl by (destruct (asg x); lia).
        destruct IH as [_ IH]. apply (IH Hl i j); [lia|done..].
Qed.

Lemma clause_holds_pos asg (vars : list Z) :
  Forall (λ v, 0 < v) vars →
  clause_holds asg vars = true ↔ 1 ≤ count_true asg vars.
Proof.
  intros Hpos. induction Hpos as [|x l Hx Hl IH].
  - change (count_true asg []) with 0. simpl. split; [done|lia].
  - rewrite clause_holds_cons, count_true_cons, lit_holds_pos, orb_true_iff, IH by done.
    pose proof (count_true_bounds asg l) as Hb.
    destruct (asg x); split; try lia; auto; intros [?|?]; try done; lia.
Qed.

(** X3.  On a list of variables that is not empty, the exactly-one encoder
    is exact: the clause list it leaves holds exactly when the one it was
    given holds and exactly one position of the list holds a true variable. *)
Theorem encode_exactly_one_exact (vars : list Z) (st : store) (asg : Z → bool) :
  Forall (λ v, 0 < v) vars → vars ≠ [] →
  cnf_holds asg (clauses (exec (encode_exactly_one vars) st)) = true ↔
  cnf_holds asg (clauses st) = true ∧ count_true asg vars = 1.
Proof.
  intros Hpos Hne. destruct vars as [|v vars]; [done|].
  assert (clauses (exec (encode_exactly_one (v :: vars)) st)
          = clauses st ++ (v :: vars) :: pair_clauses (v :: vars)) as ->.
  { unfold encode_exactly_one, exec.
    rewrite (run_unit _ ((v :: vars) :: pair_clauses (v :: vars))); [done| |].
    - apply frames_bind; [apply frames_add_clause|]. intros _. apply frames_encode_at_most_one.
    - intros V. apply yields_add_clause_then; [apply keeps_encode_at_most_one|].
      apply yields_encode_at_most_one. }
  rewrite cnf_holds_app, andb_true_iff.
  change (cnf_holds asg ((v :: vars) :: pair_clauses (v :: vars)))
    with (clause_holds asg (v :: vars) && cnf_holds asg (pair_clauses (v :: vars))).
  rewrite andb_true_iff, clause_holds_pos, pair_clauses_hold by done.
  split; [intros [? [? ?]]|intros [? ?]]; (split; [done|lia]).
Qed.

(** An instance: three variables, the second one true. *)
Lemma encode_exactly_one_exact_witness :
  cnf_holds (fun v => v =? 2) (clauses (exec (encode_exactly_one [1; 2; 3]) reset)) = true ↔
  cnf_holds (fun v => v =? 2) (clauses reset) = true ∧
  count_true (fun v => v =? 2) [1; 2; 3] = 1.
Proof.
  apply encode_exactly_one_exact.
  - repeat constructor.
  - done.
Defined.

(** ** Ids of the keys a registry holds *)

Lemma id_of_range st seen a :
  tracks st seen → is_Some (var_map st !! var_name a) → 1 ≤ id_of st a ≤ var_counter st.
Proof.
  intros Ht [v Hv]. unfold id_of. rewrite Hv. simpl. by eapply tracks_range.
Qed.

Lemma id_of_inj st seen a b :
  tracks st seen → planner_key a → planner_key b →
  is_Some (var_map st !! var_name a) → is_Some (var_map st !! var_name b) →
  id_of st a = id_of st b → a = b.
Proof.
  intros Ht Pa Pb [v Hv] [w Hw]. unfold id_of. rewrite Hv, Hw. simpl. intros ->.
  apply var_name_inj; [done..|]. by eapply tracks_inj.
Qed.

Lemma collect_present {A B} (l : list A) (body : A → enc (list B)) name x :
  (∀ a, keeps (body a)) → x ∈ l →
  (∀ st, is_Some (var_map (exec (body x) st) !! name)) →
  ∀ st, is_Some (var_map (exec (collect l body) st) !! name).
Proof.
  intros Hk Hx Hb. induction l as [|a l IH]; intros st; [by apply elem_of_nil in Hx|].
  simpl. rewrite exec_bind. apply elem_of_cons in Hx as [<-|Hx].
  - apply keeps_present; [keeps_tac; apply Hk|]. apply Hb.
  - rewrite exec_bind. apply keeps_present; [apply keeps_ret|]. by apply IH.
Qed.

Lemma cnf_holds_flat_map {A} asg (f : A → list (list Z)) (l : list A) :
  cnf_holds asg (flat_map f l) = true ↔ ∀ x, x ∈ l → cnf_holds asg (f x) = true.
Proof.
  induction l as [|a l IH]; simpl.
  - split; [|done]. intros _ x Hx. by apply elem_of_nil in Hx.
  - rewrite cnf_holds_app, andb_true_iff, IH. split.
    + intros [Ha Hl] x [->|Hx]%elem_of_cons; auto.
    + intros H. split; [apply H; by left|]. intros x Hx. apply H. by right.
Qed.

(** Over a set of variables the pairwise clauses hold exactly when at
    most one of them is true. *)
Lemma pair_clauses_at_most_one asg (vars : list Z) :
  Forall (λ v, 0 < v) vars → NoDup vars →
  cnf_holds asg (pair_clauses vars) = true ↔ at_most_one_true asg vars.
Proof.
  intros Hpos Hnd. rewrite pair_clauses_hold by done. split.
  - intros Hc v w Hv Hw Av Aw.
    destruct (decide (v = w)) as [|Hne]; [done|]. exfalso.
    assert ([v; w] ⊆+ vars) as Hsub.
    { apply NoDup_submseteq.
      - apply NoDup_cons. split; [by intros ->%list_elem_of_singleton|apply NoDup_singleton].
      - intros z [->|[->|[]%elem_of_nil]%elem_of_cons]%elem_of_cons; done. }
    apply submseteq_Permutation in Hsub as [rest Hperm].
    assert (count_true asg vars = count_true asg ([v; w] ++ rest)) as Hcount.
    { unfold count_true, len. by rewrite Hperm. }
    rewrite Hcount in Hc. simpl in Hc. rewrite !count_true_cons, Av, Aw in Hc.
    pose proof (count_true_bounds asg rest). lia.
  - intros Hone. clear Hpos. induction vars as [|x l IH].
    + change (count_true asg []) with 0. lia.
    + apply NoDup_cons in Hnd as [Hx Hnd]. rewrite count_true_cons.
      assert (count_true asg l ≤ 1) as Hl.
      { apply IH; [done|]. intros v w Hv Hw. apply Hone; by right. }
      destruct (asg x) eqn:Ex; [|lia].
      assert (count_true asg l = 0) as ->; [|lia].
      apply count_true_zero. intros v Hv. destruct (asg v) eqn:Ev; [|done].
      exfalso. apply Hx. rewrite (Hone x v); [done|by left|by right|done..].
Qed.

(** ** The cell-exclusivity encoder *)

Lemma yields_encode_cell_constraints V c :
  yields V (encode_cell_constraints c) tt (cell_clauses V c).
Proof.
  unfold encode_cell_constraints, cell_clauses.
  apply yields_for; [intros; keeps_tac; apply keeps_encode_at_most_one|]. intros x _.
  apply yields_for; [intros; keeps_tac; apply keeps_encode_at_most_one|]. intros y _.
  rewrite <-(app_nil_l (pair_clauses _)).
  eapply yields_bind.
  - apply (yields_collect_get_vars V (range (K c)) (key_C x y)).
  - intros; apply keeps_encode_at_most_one.
  - apply yields_encode_at_most_one.
Qed.

Lemma cell_keys_present c st x y k :
  0 ≤ x < N c → 0 ≤ y < M c → 0 ≤ k < K c →
  is_Some (var_map (exec (encode_cell_constraints c) st) !! var_name (key_C x y k)).
Proof.
  intros Hx Hy Hk. unfold encode_cell_constraints.
  apply (for_present _ _ _ x);
    [intros; keeps_tac; apply keeps_encode_at_most_one|by apply elem_of_range|].
  intros st1.
  apply (for_present _ _ _ y);
    [intros; keeps_tac; apply keeps_encode_at_most_one|by apply elem_of_range|].
  intros st2. rewrite exec_bind. apply keeps_present; [apply keeps_encode_at_most_one|].
  apply (collect_present _ _ _ k); [intros; keeps_tac|by apply elem_of_range|].
  intros st3. rewrite exec_bind. apply keeps_present; [apply keeps_ret|].
  apply get_var_present.
Qed.

(** X4.  From a registry built by the encoder, the cell-exclusivity encoder
    appends, cell by cell, the pairwise clauses over the occupancy variables
    of the cell, one variable per line; these variables are allocated ids,
    different for different lines, and an assignment satisfies the clauses
    exactly when no cell of the grid is occupied by two different lines. *)
Theorem encode_cell_constraints_spec (c : city) (st : store) (seen : list string)
    (asg : Z → bool) :
  tracks st seen →
  let st' := exec (encode_cell_constraints c) st in
  let V := id_of st' in
  clauses st' = clauses st ++ cell_clauses V c ∧
  (∀ x y k, 0 ≤ x < N c → 0 ≤ y < M c → 0 ≤ k < K c →
            1 ≤ V (key_C x y k) ≤ var_counter st') ∧
  (cnf_holds asg (cell_clauses V c) = true ↔
   ∀ x y k1 k2, 0 ≤ x < N c → 0 ≤ y < M c → 0 ≤ k1 < K c → 0 ≤ k2 < K c →
                asg (V (key_C x y k1)) = true → asg (V (key_C x y k2)) = true → k1 = k2).
Proof.
  intros Ht st' V.
  destruct (keeps_encode_cell_constraints c st) as [_ Hk].
  destruct (Hk seen Ht) as [seen' Ht']. fold st' in Ht'.
  assert (∀ x y k, 0 ≤ x < N c → 0 ≤ y < M c → 0 ≤ k < K c →
                   is_Some (var_map st' !! var_name (key_C x y k))) as Hpres.
  { intros. by apply cell_keys_present. }
  split; [apply (yields_encode_cell_constraints V c st), reads_id_of|].
  split; [intros; eapply id_of_range; eauto|].
  unfold cell_clauses. rewrite cnf_holds_flat_map.
  assert (∀ x y, 0 ≤ x < N c → 0 ≤ y < M c →
                 Forall (λ v, 0 < v) (cell_vars_of V c x y) ∧ NoDup (cell_vars_of V c x y))
    as Hvars.
  { intros x y Hx Hy. unfold cell_vars_of. split.
    - apply Forall_forall. intros v [k [-> Hk']]%list_elem_of_fmap. apply elem_of_range in Hk'.
      pose proof (id_of_range st' seen' (key_C x y k) Ht' (Hpres x y k Hx Hy Hk')). fold V in H. lia.
    - apply NoDup_fmap_2_strong.
      + intros k1 k2 Hk1%elem_of_range Hk2%elem_of_range E.
        apply (id_of_inj st' seen') in E; [|done|constructor|constructor|by apply Hpres..].
        by injection E.
      + unfold range. apply NoDup_fmap_2; [apply Nat2Z.inj'|apply NoDup_seq]. }
  split.
  - intros H x y k1 k2 Hx Hy Hk1 Hk2 A1 A2.
    destruct (Hvars x y Hx Hy) as [Hpos Hnd].
    assert (cnf_holds asg (pair_clauses (cell_vars_of V c x y)) = true) as Hc.
    { apply elem_of_range in Hx, Hy. specialize (H x Hx).
      rewrite cnf_holds_flat_map in H. by apply H. }
    apply pair_clauses_at_most_one in Hc; [|done..].
    assert (V (key_C x y k1) = V (key_C x y k2)) as E.
    { apply Hc; [| |done..]; apply list_elem_of_fmap; eexists; split; eauto;
        by apply elem_of_range. }
    apply (id_of_inj st' seen') in E; [|done|constructor|constructor|by apply Hpres..].
    by injection E.
  - intros H x Hx%elem_of_range. apply cnf_holds_flat_map. intros y Hy%elem_of_range.
    destruct (Hvars x y Hx Hy) as [Hpos Hnd].
    apply pair_clauses_at_most_one; [done..|].
    intros v w [k1 [-> Hk1]]%list_elem_of_fmap [k2 [-> Hk2]]%list_elem_of_fmap A1 A2.
    apply elem_of_range in Hk1, Hk2.
    by rewrite (H x y k1 k2).
Qed.

(** An instance: the square of four cells, from the reset registry. *)
Lemma encode_cell_constraints_spec_witness :
  clauses (exec (encode_cell_constraints city_2x2) reset)
  = clauses reset
    ++ cell_clauses (id_of (exec (encode_cell_constraints city_2x2) reset)) city_2x2.
Proof.
  refine (proj1 (encode_cell_constraints_spec city_2x2 reset [] (fun _ => false) _)).
  apply tracks_reset.
Defined.

(** ** The coverage encoder *)

Lemma clause_holds_some asg (vars : list Z) :
  Forall (λ v, 0 < v) vars →
  clause_holds asg vars = true ↔ ∃ v, v ∈ vars ∧ asg v = true.
Proof.
  intros Hpos. unfold clause_holds. rewrite existsb_exists. split.
  - intros [v [Hv%list_elem_of_In Hl]]. exists v. split; [done|].
    rewrite Forall_forall in Hpos. by rewrite lit_holds_pos in Hl by auto.
  - intros [v [Hv Hl]]. exists v. split; [by apply list_elem_of_In|].
    rewrite Forall_forall in Hpos. by rewrite lit_holds_pos by auto.
Qed.

Lemma yields_encode_popular_constraints V c :
  yields V (encode_popular_constraints c) tt (popular_clauses V c).
Proof.
  unfold encode_popular_constraints, popular_clauses.
  destruct (scenario c =? 2); simpl; [|apply yields_ret].
  apply yields_for; [intros [x y]; keeps_tac|]. intros [x y] _.
  rewrite <-(app_nil_l (if truthy _ then _ else _)).
  eapply yields_bind.
  - apply (yields_collect_get_vars V (range (K c)) (key_C x y)).
  - intros; apply keeps_add_clause.
  - apply yields_add_clause.
Qed.

Lemma popular_keys_present c st x y k :
  scenario c = 2 → (x, y) ∈ popular c → 0 ≤ k < K c →
  is_Some (var_map (exec (encode_popular_constraints c) st) !! var_name (key_C x y k)).
Proof.
  intros Hs Hp Hk. unfold encode_popular_constraints. rewrite Hs. simpl.
  revert st. apply (for_present _ _ _ (x, y)); [intros [x' y']; keeps_tac|done|].
  intros st. rewrite exec_bind. apply keeps_present; [apply keeps_add_clause|].
  apply (collect_present _ _ _ k); [intros; keeps_tac|by apply elem_of_range|].
  intros st3. rewrite exec_bind. apply keeps_present; [apply keeps_ret|].
  apply get_var_present.
Qed.

(** X5.  From a registry built by the encoder, the coverage encoder changes
    nothing outside scenario 2 and nothing when there is no line (the empty
    disjunction of a popular cell is dropped, not emitted as an
    unsatisfiable clause); otherwise it appends one disjunction per entry of
    the popular list, in order, and an assignment satisfies them exactly
    when every popular cell is occupied by some line.  The cell need not lie
    on the grid. *)
Theorem encode_popular_constraints_spec (c : city) (st : store) (seen : list string)
    (asg : Z → bool) :
  tracks st seen →
  let st' := exec (encode_popular_constraints c) st in
  let V := id_of st' in
  clauses st' = clauses st ++ popular_clauses V c ∧
  (scenario c ≠ 2 ∨ K c ≤ 0 → st' = st) ∧
  (scenario c = 2 → 0 < K c →
   len (popular_clauses V c) = len (popular c) ∧
   (cnf_holds asg (popular_clauses V c) = true ↔
    ∀ x y, (x, y) ∈ popular c → ∃ k, 0 ≤ k < K c ∧ asg (V (key_C x y k)) = true)).
Proof.
  intros Ht st' V.
  destruct (keeps_encode_popular_constraints c st) as [_ Hk].
  destruct (Hk seen Ht) as [seen' Ht']. fold st' in Ht'.
  split; [apply (yields_encode_popular_constraints V c st), reads_id_of|].
  split.
  - subst st'. unfold encode_popular_constraints. intros [Hs|HK].
    + apply Z.eqb_neq in Hs. by rewrite Hs.
    + destruct (scenario c =? 2); [|done]. simpl.
      assert (range (K c) = []) as ->.
      { unfold range. by replace (Z.to_nat (K c)) with 0%nat by lia. }
      simpl. induction (popular c) as [|[x y] l IH]; [done|]. simpl.
      rewrite exec_bind. done.
  - intros Hs HK. unfold popular_clauses. rewrite Hs. simpl.
    assert (∀ x y, cell_vars_of V c x y ≠ []) as Hne.
    { intros x y. unfold cell_vars_of, range.
      destruct (Z.to_nat (K c)) eqn:E; [lia|]. done. }
    assert (∀ l : list (Z * Z),
      flat_map (fun p : Z * Z =>
        if truthy (cell_vars_of V c p.1 p.2) then [cell_vars_of V c p.1 p.2] else []) l
      = map (fun p => cell_vars_of V c p.1 p.2) l) as ->.
    { induction l as [|p l IH]; [done|]. simpl. rewrite IH.
      specialize (Hne p.1 p.2). by destruct (cell_vars_of V c p.1 p.2). }
    split; [unfold len; by rewrite length_map|].
    unfold cnf_holds. rewrite forallb_forall. split.
    + intros H x y Hp.
      assert (clause_holds asg (cell_vars_of V c x y) = true) as Hc.
      { apply H, in_map_iff. exists (x, y). split; [done|by apply list_elem_of_In]. }
      apply clause_holds_some in Hc as [v [[k [-> Hk']]%list_elem_of_fmap Hv]].
      * exists k. split; [by apply elem_of_range|done].
      * apply Forall_forall. intros v [k [-> Hk']]%list_elem_of_fmap.
        apply elem_of_range in Hk'.
        pose proof (id_of_range st' seen' (key_C x y k) Ht'
                      (popular_keys_present c st x y k Hs Hp Hk')) as Hr.
        fold V in Hr. lia.
    + intros H cl [[x y] [<- Hp%list_elem_of_In]]%in_map_iff. simpl.
      destruct (H x y Hp) as [k [Hk' Hv]].
      apply clause_holds_some.
      * apply Forall_forall. intros v [k' [-> Hk'']]%list_elem_of_fmap.
        apply elem_of_range in Hk''.
        pose proof (id_of_range st' seen' (key_C x y k') Ht'
                      (popular_keys_present c st x y k' Hs Hp Hk'')) as Hr.
        fold V in Hr. lia.
      * exists (V (key_C x y k)). split; [|done].
        apply list_elem_of_fmap. exists k. split; [done|by apply elem_of_range].
Qed.

(** ** The path encoder *)

Lemma yields_out_dirs_of V c k x y :
  yields V (out_dirs_of c k x y) (out_vars V c k x y) [].
Proof.
  unfold out_dirs_of, out_vars.
  rewrite <-(flat_map_nil (B := list Z) directions).
  apply yields_collect.
  - intros [d [dx dy]]. destruct (in_bounds c (x + dx, y + dy)); keeps_tac.
  - intros [d [dx dy]] _. destruct (in_bounds c (x + dx, y + dy)); yields_tac V.
Qed.

Lemma yields_inc_dirs_of V c k x y :
  yields V (inc_dirs_of c k x y) (inc_vars V c k x y) [].
Proof.
  unfold inc_dirs_of, inc_vars.
  rewrite <-(flat_map_nil (B := list Z) directions).
  apply yields_collect.
  - intros [d [dx dy]]. destruct (in_bounds c (x - dx, y - dy)); keeps_tac.
  - intros [d [dx dy]] _. destruct (in_bounds c (x - dx, y - dy)); yields_tac V.
Qed.

Lemma keeps_out_dirs_of c k x y : keeps (out_dirs_of c k x y).
Proof.
  unfold out_dirs_of. apply keeps_collect.
  intros [d [dx dy]]. destruct (in_bounds c (x + dx, y + dy)); keeps_tac.
Qed.

Lemma keeps_inc_dirs_of c k x y : keeps (inc_dirs_of c k x y).
Proof.
  unfold inc_dirs_of. apply keeps_collect.
  intros [d [dx dy]]. destruct (in_bounds c (x - dx, y - dy)); keeps_tac.
Qed.

Lemma yields_encode_exactly_one V vars :
  yields V (encode_exactly_one vars) tt (exactly_one_clauses vars).
Proof.
  unfold encode_exactly_one, exactly_one_clauses. destruct vars as [|v vars]; simpl.
  - apply yields_ret.
  - apply yields_add_clause_then; [apply keeps_encode_at_most_one|].
    apply yields_encode_at_most_one.
Qed.

Lemma yields_guarded V cell_var vars :
  yields V (match vars with
            | [] => ret tt
            | _ => add_clause ([- cell_var] ++ vars) ;; encode_at_most_one vars
            end) tt (guarded_clauses cell_var vars).
Proof.
  unfold guarded_clauses. destruct vars as [|v vars]; simpl.
  - apply yields_ret.
  - apply yields_add_clause_then; [apply keeps_encode_at_most_one|].
    apply yields_encode_at_most_one.
Qed.

Lemma keeps_guarded cell_var vars :
  keeps (match vars with
         | [] => ret tt
         | _ => add_clause ([- cell_var] ++ vars) ;; encode_at_most_one vars
         end).
Proof.
  destruct vars; [apply keeps_ret|].
  apply keeps_bind; [apply keeps_add_clause|intros; apply keeps_encode_at_most_one].
Qed.

Lemma yields_bind_quiet V {A B} (m : enc A) (f : A → enc B) a b cs :
  yields V m a [] → (∀ x, keeps (f x)) → yields V (f a) b cs → yields V (bind m f) b cs.
Proof. intros Hm Hk Hf. change cs with ([] ++ cs). by eapply yields_bind. Qed.

Ltac keeps_path :=
  unfold out_dirs_of, inc_dirs_of; keeps_tac;
  first [apply keeps_encode_at_most_one | apply keeps_encode_exactly_one].

Lemma yields_path_cell V c k s e x y :
  yields V (path_cell c k s e x y) tt (path_cell_clauses V c k s e x y).
Proof.
  unfold path_cell, path_cell_clauses. cbv zeta.
  apply yields_get_var_then; [intros; keeps_path|].
  eapply yields_bind; [|intros; keeps_path|].
  { apply yields_for; [intros [d ?]; keeps_tac|]. intros [d ?] _. yields_tac V. }
  eapply yields_bind; [|intros; keeps_path|].
  - destruct (cell_eqb (x, y) s); [|destruct (cell_eqb (x, y) e)].
    + eapply yields_bind_quiet; [apply yields_out_dirs_of|intros; keeps_path|].
      eapply yields_bind; [apply yields_encode_exactly_one|intros; keeps_path|].
      apply yields_for; [intros [d [dx dy]]; keeps_tac|]. intros [d [dx dy]] _.
      destruct (in_bounds c (x - dx, y - dy)); yields_tac V.
    + eapply yields_bind; [|intros; keeps_path|].
      { apply yields_for; [intros [d ?]; keeps_tac|]. intros [d ?] _. yields_tac V. }
      eapply yields_bind_quiet; [apply yields_inc_dirs_of|intros; keeps_path|].
      apply yields_encode_exactly_one.
    + eapply yields_bind_quiet; [apply yields_out_dirs_of|intros; keeps_path|].
      eapply yields_bind_quiet; [apply yields_inc_dirs_of|intros; keeps_path|].
      eapply yields_bind; [apply yields_guarded|intros; keeps_path|].
      eapply yields_bind; [apply yields_guarded|intros; keeps_path|].
      by apply yields_for_add.
  - apply yields_for; [intros [d [dx dy]]; keeps_tac|]. intros [d [dx dy]] _.
    destruct (in_bounds c (x + dx, y + dy)); yields_tac V.
Qed.

Lemma yields_path_line V c k s e :
  yields V (path_line c k s e) tt (path_line_clauses V c k s e).
Proof.
  unfold path_line, path_line_clauses.
  apply yields_get_var_then; [intros; keeps_tac; apply keeps_path_cell|].
  apply yields_add_clause_then; [keeps_tac; apply keeps_path_cell|].
  apply yields_get_var_then; [intros; keeps_tac; apply keeps_path_cell|].
  apply yields_add_clause_then; [keeps_tac; apply keeps_path_cell|].
  apply yields_for; [intros; keeps_tac; apply keeps_path_cell|]. intros x _.
  apply yields_for; [intros; apply keeps_path_cell|]. intros y _.
  apply yields_path_cell.
Qed.

Lemma yields_turn_budget V c ids k s e :
  yields V (turn_line c ids k s e) tt (turn_budget_clauses V c ids k s e).
Proof.
  unfold turn_line, turn_budget_clauses.
  eapply yields_bind.
  - apply yields_collect; [intros; keeps_tac; apply keeps_turn_cell|]. intros x _.
    apply yields_collect; [intros; apply keeps_turn_cell|]. intros y _.
    apply yields_turn_cell.
  - intros; keeps_tac. apply keeps_encode_at_most_k_simple.
  - fold (turn_line_vars V c k s e).
    destruct ((0 <=? J c) && truthy (turn_line_vars V c k s e)).
    + apply yields_encode_at_most_k_simple.
    + apply yields_ret.
Qed.

(** ** Well-formed output *)

Lemma well_formed_reset : well_formed reset.
Proof.
  split; [exists []; apply tracks_reset|]. intros cl Hcl. by apply elem_of_nil in Hcl.
Qed.

Lemma safe_ret {A} n0 (R : Z → A → Prop) a : (∀ n, n0 ≤ n → R n a) → safe n0 R (ret a).
Proof. intros H st Hn Hw. split; [done|]. split; [done|]. by apply H. Qed.

Lemma safe_bind {A B} n0 (R : Z → A → Prop) (R' : Z → B → Prop) (m : enc A) (f : A → enc B) :
  safe n0 R m → (∀ x n, n0 ≤ n → R n x → safe n R' (f x)) → safe n0 R' (bind m f).
Proof.
  intros Hm Hf st Hn Hw. rewrite exec_bind, eval_bind.
  destruct (Hm st Hn Hw) as (Hw1 & Hn1 & HR).
  destruct (Hf _ _ (Z.le_trans _ _ _ Hn Hn1) HR (exec m st) (Z.le_refl _) Hw1)
    as (Hw2 & Hn2 & HR').
  split; [done|]. split; [lia|done].
Qed.

Lemma safe_weaken {A} n0 (R R' : Z → A → Prop) (m : enc A) :
  safe n0 R m → (∀ n a, R n a → R' n a) → safe n0 R' m.
Proof.
  intros Hm HR st Hn Hw. destruct (Hm st Hn Hw) as (? & ? & ?). auto.
Qed.

Lemma safe_get_var n0 a : safe n0 var_ok (get_var a).
Proof.
  intros st Hn [[seen Ht] Hcl].
  destruct (keeps_get_var a st) as [_ Hk]. destruct (Hk seen Ht) as [seen' Ht'].
  assert (var_counter st ≤ var_counter (exec (get_var a) st)) as Hmono.
  { unfold exec, get_var. destruct (var_map st !! var_name a); simpl; lia. }
  split; [split; [by exists seen'|]|split; [done|]].
  - assert (clauses (exec (get_var a) st) = clauses st) as ->.
    { unfold exec, get_var. by destruct (var_map st !! var_name a). }
    intros cl Hin. destruct (Hcl cl Hin) as [Hne Hl]. split; [done|].
    intros l Hlin. specialize (Hl l Hlin). unfold lit_ok in *. lia.
  - destruct (get_var_present a st) as [v Hv].
    assert (eval (get_var a) st = v) as ->.
    { unfold exec, eval, get_var in *. destruct (var_map st !! var_name a) eqn:E; simpl in *.
      - congruence.
      - rewrite lookup_insert_eq in Hv. congruence. }
    by eapply tracks_range.
Qed.

Lemma safe_add_clause n0 lits :
  (∀ l, l ∈ lits → lit_ok n0 l) → safe n0 any (add_clause lits).
Proof.
  intros Hl st Hn [[seen Ht] Hcl].
  destruct (keeps_add_clause lits st) as [_ Hk]. destruct (Hk seen Ht) as [seen' Ht'].
  revert Ht'. unfold exec, eval, add_clause.
  destruct lits as [|l0 lits]; simpl; intros Ht'.
  { split; [split; [by exists seen|done]|]. split; [lia|done]. }
  split; [|split; [lia|done]]. split; [by exists seen'|]. simpl.
  intros cl [Hin| ->%list_elem_of_singleton]%elem_of_app; [by apply Hcl|].
  split; [done|]. intros l Hin. specialize (Hl l Hin). unfold lit_ok in *. lia.
Qed.

Lemma safe_for {A} n0 (l : list A) (body : A → enc unit) :
  (∀ x n, x ∈ l → n0 ≤ n → safe n any (body x)) → safe n0 any (for_ l body).
Proof.
  revert n0. induction l as [|a l IH]; intros n0 Hb; simpl.
  - by apply safe_ret.
  - eapply safe_bind; [apply Hb; [by left|done]|].
    intros _ n Hn _. apply IH. intros x n' Hx Hn'. apply Hb; [by right|lia].
Qed.

Lemma vars_ok_mono n n' vs : n ≤ n' → vars_ok n vs → vars_ok n' vs.
Proof.
  intros Hn H. eapply Forall_impl; [exact H|]. unfold var_ok. intros; lia.
Qed.

Lemma safe_collect {A} n0 (l : list A) (body : A → enc (list Z)) :
  (∀ x n, x ∈ l → n0 ≤ n → safe n vars_ok (body x)) → safe n0 vars_ok (collect l body).
Proof.
  revert n0. induction l as [|a l IH]; intros n0 Hb; simpl.
  - apply safe_ret. intros. constructor.
  - eapply safe_bind; [apply Hb; [by left|done]|].
    intros xs n Hn Hxs. eapply safe_bind.
    + apply IH. intros x n' Hx Hn'. apply Hb; [by right|lia].
    + intros ys n' Hn' Hys. apply safe_ret. intros n'' Hn''.
      apply Forall_app. split; eapply vars_ok_mono; [|exact Hxs| |exact Hys]; lia.
Qed.

Lemma item_in (vars : list Z) i : 0 ≤ i < len vars → item vars i ∈ vars.
Proof.
  intros Hi. unfold item, len in *.
  destruct (lookup_lt_is_Some_2 vars (Z.to_nat i)) as [v Hv]; [lia|].
  rewrite (list_lookup_total_correct _ _ _ Hv). by eapply list_elem_of_lookup_2.
Qed.

Lemma var_ok_in n vs v : vars_ok n vs → v ∈ vs → var_ok n v.
Proof. intros H Hv. by apply (proj1 (Forall_forall _ _) H). Qed.

(** Literals built from ids in the context. *)
Ltac lits_ok :=
  let l := fresh "l" in
  let Hl := fresh "Hl" in
  intros l Hl;
  repeat (apply elem_of_cons in Hl as [->|Hl]);
  [..|by apply elem_of_nil in Hl];
  repeat match goal with
         | H : vars_ok _ ?vs, Hv : ?v ∈ ?vs |- _ =>
             pose proof (var_ok_in _ _ _ H Hv); clear Hv
         end;
  unfold lit_ok, var_ok in *; lia.

Ltac safe_step :=
  match goal with
  | |- safe _ any (ret _) => apply safe_ret; intros; exact I
  | |- safe _ _ (ret _) => apply safe_ret; intros
  | |- safe _ _ (bind (get_var _) _) =>
      eapply safe_bind; [apply safe_get_var|intros ? ? ? ?]
  | |- safe _ _ (bind (add_clause _) _) =>
      eapply safe_bind; [apply safe_add_clause|intros ? ? ? _]
  | |- safe _ _ (add_clause _) => apply safe_add_clause
  | |- safe _ _ (bind (for_ _ _) _) =>
      eapply safe_bind; [apply safe_for; intros ? ? ? ?|intros ? ? ? _]
  | |- safe _ _ (for_ _ _) => apply safe_for; intros ? ? ? ?
  | |- safe _ _ (let '(_, _) := ?p in _) => destruct p
  | |- safe _ _ (if ?b then _ else _) => destruct b
  end.

Ltac safe_tac := repeat safe_step.

Lemma safe_encode_at_most_one n0 vars :
  vars_ok n0 vars → safe n0 any (encode_at_most_one vars).
Proof.
  intros Hv. unfold encode_at_most_one.
  apply safe_for. intros i n Hi%elem_of_range Hn.
  apply safe_for. intros j n' Hj%elem_of_range2 Hn'.
  apply safe_add_clause.
  pose proof (item_in vars i ltac:(lia)). pose proof (item_in vars j ltac:(lia)).
  lits_ok.
Qed.

Lemma safe_encode_exactly_one n0 vars :
  vars_ok n0 vars → safe n0 any (encode_exactly_one vars).
Proof.
  intros Hv. unfold encode_exactly_one. destruct vars as [|v vars]; [by apply safe_ret|].
  eapply safe_bind.
  - apply safe_add_clause. intros l Hl. pose proof (var_ok_in _ _ _ Hv Hl).
    unfold lit_ok, var_ok in *. lia.
  - intros _ n Hn _. apply safe_encode_at_most_one. by eapply vars_ok_mono.
Qed.

Lemma safe_collect_get_vars n0 (l : list Z) (key : Z → list arg) :
  safe n0 vars_ok (collect l (fun j => v <- get_var (key j) ;; ret [v])).
Proof.
  apply safe_collect. intros j n _ Hn. eapply safe_bind; [apply safe_get_var|].
  intros v n' Hn' Hv. apply safe_ret. intros n'' Hn''. constructor; [|constructor].
  unfold var_ok in *. lia.
Qed.

Lemma safe_encode_at_most_k_simple n0 vid vars k :
  vars_ok n0 vars → safe n0 any (encode_at_most_k_simple vid vars k).
Proof.
  intros Hv. unfold encode_at_most_k_simple. cbv zeta.
  destruct (Z.leb_spec (len vars) k); [by apply safe_ret|].
  destruct (Z.ltb_spec k 0); [safe_tac; lits_ok|].
  destruct (Z.leb_spec k 3).
  { apply safe_for. intros subset n [Hsub _]%elem_of_combinations Hn.
    apply safe_add_clause. intros l [v [-> Hin]]%list_elem_of_fmap.
    assert (v ∈ vars) as Hvin by (by eapply elem_of_sublist).
    pose proof (var_ok_in _ _ _ Hv Hvin). unfold lit_ok, var_ok in *. lia. }
  eapply safe_bind.
  - apply safe_for. intros i n Hi%elem_of_range Hn.
    apply safe_for. intros j n' Hj%elem_of_range Hn'.
    eapply safe_bind; [apply safe_get_var|]. intros s n1 Hn1 Hs.
    destruct (Z.eqb_spec i 0); [safe_tac; lits_ok|].
    destruct (Z.ltb_spec i j); [safe_tac; lits_ok|].
    cbv zeta. pose proof (item_in vars (i - 1) ltac:(lia)) as Hx.
    safe_tac; lits_ok.
  - intros _ n Hn _. eapply safe_bind; [apply safe_collect_get_vars|].
    intros vs n' Hn' Hvs. apply safe_add_clause. intros l Hl.
    pose proof (var_ok_in _ _ _ Hvs Hl). unfold lit_ok, var_ok in *. lia.
Qed.

Lemma safe_encode_cell_constraints n0 c : safe n0 any (encode_cell_constraints c).
Proof.
  unfold encode_cell_constraints.
  apply safe_for. intros x n _ Hn. apply safe_for. intros y n' _ Hn'.
  eapply safe_bind; [apply safe_collect_get_vars|].
  intros vs n1 Hn1 Hvs. by apply safe_encode_at_most_one.
Qed.

Lemma safe_out_dirs_of n0 c k x y : safe n0 vars_ok (out_dirs_of c k x y).
Proof.
  unfold out_dirs_of. apply safe_collect. intros [d [dx dy]] n _ Hn.
  destruct (in_bounds c (x + dx, y + dy)); [|apply safe_ret; intros; constructor].
  eapply safe_bind; [apply safe_get_var|].
  intros v n' Hn' Hv. apply safe_ret. intros n'' Hn''. constructor; [|constructor].
  unfold var_ok in *. lia.
Qed.

Lemma safe_inc_dirs_of n0 c k x y : safe n0 vars_ok (inc_dirs_of c k x y).
Proof.
  unfold inc_dirs_of. apply safe_collect. intros [d [dx dy]] n _ Hn.
  destruct (in_bounds c (x - dx, y - dy)); [|apply safe_ret; intros; constructor].
  eapply safe_bind; [apply safe_get_var|].
  intros v n' Hn' Hv. apply safe_ret. intros n'' Hn''. constructor; [|constructor].
  unfold var_ok in *. lia.
Qed.

Lemma safe_guarded n0 cell_var vars :
  var_ok n0 cell_var → vars_ok n0 vars →
  safe n0 any (match vars with
               | [] => ret tt
               | _ => add_clause ([- cell_var] ++ vars) ;; encode_at_most_one vars
               end).
Proof.
  intros Hc Hv. destruct vars as [|v vars]; [by apply safe_ret|].
  eapply safe_bind.
  - apply safe_add_clause. intros l [->%list_elem_of_singleton|Hl]%elem_of_app.
    + unfold lit_ok, var_ok in *. lia.
    + pose proof (var_ok_in _ _ _ Hv Hl). unfold lit_ok, var_ok in *. lia.
  - intros _ n Hn _. apply safe_encode_at_most_one. by eapply vars_ok_mono.
Qed.

Lemma safe_path_cell n0 c k s e x y : safe n0 any (path_cell c k s e x y).
Proof.
  unfold path_cell.
  eapply safe_bind; [apply safe_get_var|]. intros cell_var n1 Hn1 Hc.
  eapply safe_bind; [safe_tac; lits_ok|]. intros _ n2 Hn2 _.
  eapply safe_bind; [|intros _ n3 Hn3 _; safe_tac; lits_ok].
  destruct (cell_eqb (x, y) s); [|destruct (cell_eqb (x, y) e)].
  - eapply safe_bind; [apply safe_out_dirs_of|]. intros out n3 Hn3 Hout.
    eapply safe_bind; [by apply safe_encode_exactly_one|]. intros _ n4 Hn4 _.
    safe_tac; lits_ok.
  - eapply safe_bind; [safe_tac; lits_ok|]. intros _ n3 Hn3 _.
    eapply safe_bind; [apply safe_inc_dirs_of|]. intros inc n4 Hn4 Hinc.
    by apply safe_encode_exactly_one.
  - eapply safe_bind; [apply safe_out_dirs_of|]. intros out n3 Hn3 Hout.
    eapply safe_bind; [apply safe_inc_dirs_of|]. intros inc n4 Hn4 Hinc.
    assert (var_ok n4 cell_var) as Hc4 by (unfold var_ok in *; lia).
    assert (vars_ok n4 out) as Hout4 by (by eapply vars_ok_mono).
    eapply safe_bind; [by apply safe_guarded|]. intros _ n5 Hn5 _.
    assert (var_ok n5 cell_var) as Hc5 by (unfold var_ok in *; lia).
    assert (vars_ok n5 inc) as Hinc5 by (by eapply vars_ok_mono).
    eapply safe_bind; [by apply safe_guarded|]. intros _ n6 Hn6 _.
    apply safe_for. intros v n7 Hv Hn7. apply safe_add_clause.
    assert (var_ok n7 v) as Hv7.
    { apply elem_of_app in Hv as [Hv|Hv].
      - pose proof (var_ok_in _ _ _ Hout Hv). unfold var_ok in *. lia.
      - pose proof (var_ok_in _ _ _ Hinc Hv). unfold var_ok in *. lia. }
    clear Hv. lits_ok.
Qed.

Lemma safe_path_line n0 c k s e : safe n0 any (path_line c k s e).
Proof.
  unfold path_line.
  eapply safe_bind; [apply safe_get_var|]. intros v1 n1 Hn1 Hv1.
  eapply safe_bind; [apply safe_add_clause; lits_ok|]. intros _ n2 Hn2 _.
  eapply safe_bind; [apply safe_get_var|]. intros v2 n3 Hn3 Hv2.
  eapply safe_bind; [apply safe_add_clause; lits_ok|]. intros _ n4 Hn4 _.
  apply safe_for. intros x n5 _ Hn5. apply safe_for. intros y n6 _ Hn6.
  apply safe_path_cell.
Qed.

Lemma safe_turn_cell n0 c k s e x y : safe n0 vars_ok (turn_cell c k s e x y).
Proof.
  unfold turn_cell.
  destruct (cell_eqb (x, y) s || cell_eqb (x, y) e); [apply safe_ret; intros; constructor|].
  eapply safe_bind; [apply safe_get_var|]. intros turn_var n1 Hn1 Ht.
  eapply safe_bind.
  - apply safe_for. intros [d_in [dx_in dy_in]] n2 _ Hn2.
    destruct (in_bounds c (x - dx_in, y - dy_in)); cbn [negb]; [|by apply safe_ret].
    eapply safe_bind; [apply safe_get_var|]. intros in_var n3 Hn3 Hin.
    apply safe_for. intros [d_out [dx_out dy_out]] n4 _ Hn4.
    destruct (in_bounds c (x + dx_out, y + dy_out)); cbn [negb]; [|by apply safe_ret].
    eapply safe_bind; [apply safe_get_var|]. intros out_var n5 Hn5 Hout.
    destruct (String.eqb d_in d_out); cbn [negb]; apply safe_add_clause; lits_ok.
  - intros _ n2 Hn2 _. apply safe_ret. intros n3 Hn3. constructor; [|constructor].
    unfold var_ok in *. lia.
Qed.

Lemma safe_turn_line n0 c ids k s e : safe n0 any (turn_line c ids k s e).
Proof.
  unfold turn_line. eapply safe_bind.
  - apply safe_collect. intros x n _ Hn. apply safe_collect. intros y n' _ Hn'.
    apply safe_turn_cell.
  - intros vs n Hn Hvs. destruct ((0 <=? J c) && truthy vs); [|by apply safe_ret].
    by apply safe_encode_at_most_k_simple.
Qed.

Lemma safe_encode_popular_constraints n0 c : safe n0 any (encode_popular_constraints c).
Proof.
  unfold encode_popular_constraints.
  destruct (negb (scenario c =? 2)); [by apply safe_ret|].
  apply safe_for. intros [x y] n _ Hn.
  eapply safe_bind; [apply safe_collect_get_vars|]. intros vs n' Hn' Hvs.
  apply safe_add_clause. intros l Hl.
  pose proof (var_ok_in _ _ _ Hvs Hl). unfold lit_ok, var_ok in *. lia.
Qed.

Lemma for_lines_well_formed c ks body st st' :
  (∀ n k s e, safe n any (body k s e)) →
  for_lines c ks body st = Some st' → well_formed st → well_formed st'.
Proof.
  intros Hb. revert st. induction ks as [|k ks IH]; intros st; simpl.
  - by intros [= <-].
  - destruct (starts c !! Z.to_nat k) as [s|]; [|done].
    destruct (ends c !! Z.to_nat k) as [e|]; [|done].
    intros H Hw. apply (IH _ H).
    by apply (Hb (var_counter st) k s e st).
Qed.

Lemma encode_to_sat_well_formed c ids st text st' :
  encode_to_sat c ids st = Some (text, st') → well_formed st'.
Proof.
  unfold encode_to_sat. intros H.
  destruct (encode_path_constraints c _) as [st2|] eqn:E2; simpl in H; [|done].
  destruct (encode_turn_constraints c ids st2) as [st3|] eqn:E3; simpl in H; [|done].
  injection H as <- <-.
  apply (safe_encode_popular_constraints (var_counter st3) c st3); [done|].
  eapply for_lines_well_formed; [|exact E3|].
  { intros. apply safe_turn_line. }
  eapply for_lines_well_formed; [|exact E2|].
  { intros. apply safe_path_line. }
  apply (safe_encode_cell_constraints 0 c); [done|]. apply well_formed_reset.
Qed.

(** ** The whole encoder *)

(** A loop over the lines, read by any [V] that reads the registry it
    leaves. *)
Lemma for_lines_reads V c ks body cs st st' :
  (∀ k s e, keeps (body k s e)) →
  (∀ k s e, yields V (body k s e) tt (cs k s e)) →
  for_lines c ks body st = Some st' → reads V st' →
  clauses st' = clauses st ++ lines_clauses c ks cs.
Proof.
  intros Hk Hy. revert st. induction ks as [|k ks IH]; intros st; simpl.
  - intros [= <-] _. by rewrite app_nil_r.
  - unfold lines_clauses. simpl.
    destruct (starts c !! Z.to_nat k) as [s|]; [|done].
    destruct (ends c !! Z.to_nat k) as [e|]; [|done].
    intros H Hr. rewrite (IH _ H Hr).
    destruct (keeps_for_lines c ks body Hk _ _ H) as [Hsub _].
    destruct (Hy k s e st) as [_ ->].
    + eapply reads_mono; [exact Hsub|done].
    + unfold lines_clauses. by rewrite <-app_assoc.
Qed.

Lemma encode_to_sat_parts V c ids st text st' :
  encode_to_sat c ids st = Some (text, st') → reads V st' →
  clauses st'
  = cell_clauses V c
    ++ lines_clauses c (range (K c)) (path_line_clauses V c)
    ++ lines_clauses c (range (K c)) (turn_budget_clauses V c ids)
    ++ popular_clauses V c.
Proof.
  unfold encode_to_sat. intros H Hr.
  destruct (encode_path_constraints c _) as [st2|] eqn:E2; simpl in H; [|done].
  destruct (encode_turn_constraints c ids st2) as [st3|] eqn:E3; simpl in H; [|done].
  injection H as <- <-.
  destruct (keeps_encode_popular_constraints c st3) as [Hs4 _].
  pose proof (reads_mono V _ _ Hs4 Hr) as Hr3.
  destruct (keeps_for_lines c _ _ (keeps_turn_line c ids) _ _ E3) as [Hs3 _].
  pose proof (reads_mono V _ _ Hs3 Hr3) as Hr2.
  destruct (keeps_for_lines c _ _ (keeps_path_line c) _ _ E2) as [Hs2 _].
  pose proof (reads_mono V _ _ Hs2 Hr2) as Hr1.
  destruct (yields_encode_popular_constraints V c st3 Hr) as [_ ->].
  rewrite (for_lines_reads V c _ _ (turn_budget_clauses V c ids) _ _
             (keeps_turn_line c ids) (yields_turn_budget V c ids) E3 Hr3).
  rewrite (for_lines_reads V c _ _ (path_line_clauses V c) _ _
             (keeps_path_line c) (yields_path_line V c) E2 Hr2).
  destruct (yields_encode_cell_constraints V c _ Hr1) as [_ ->].
  simpl. by rewrite <-!app_assoc.
Qed.

Lemma elem_of_lines_clauses c ks cs cl :
  cl ∈ lines_clauses c ks cs ↔
  ∃ k s e, k ∈ ks ∧ starts c !! Z.to_nat k = Some s ∧ ends c !! Z.to_nat k = Some e ∧
           cl ∈ cs k s e.
Proof.
  unfold lines_clauses. rewrite elem_of_flat_map. split.
  - intros [k [Hk Hcl]].
    destruct (starts c !! Z.to_nat k) as [s|] eqn:Es; [|by apply elem_of_nil in Hcl].
    destruct (ends c !! Z.to_nat k) as [e|] eqn:Ee; [|by apply elem_of_nil in Hcl].
    by exists k, s, e.
  - intros (k & s & e & Hk & Es & Ee & Hcl). exists k. by rewrite Es, Ee.
Qed.

Lemma id_of_nonneg st seen a : tracks st seen → 0 ≤ id_of st a.
Proof.
  intros Ht. unfold id_of. destruct (var_map st !! var_name a) as [v|] eqn:E; simpl; [|done].
  pose proof (tracks_range _ _ _ _ Ht E). lia.
Qed.

(** What the encoder wrote, to a reader of its final registry: the four
    groups of clauses, and ids that are positive wherever a clause
    mentions them. *)
Lemma encode_to_sat_reading c ids st text st' :
  encode_to_sat c ids st = Some (text, st') →
  let V := id_of st' in
  clauses st'
  = cell_clauses V c
    ++ lines_clauses c (range (K c)) (path_line_clauses V c)
    ++ lines_clauses c (range (K c)) (turn_budget_clauses V c ids)
    ++ popular_clauses V c ∧
  (∀ a, 0 ≤ V a) ∧
  (∀ cl l, cl ∈ clauses st' → l ∈ cl → 1 ≤ Z.abs l ≤ var_counter st').
Proof.
  intros H V. split; [apply (encode_to_sat_parts V c ids st text st' H), reads_id_of|].
  destruct (encode_to_sat_well_formed c ids st text st' H) as [[seen Ht] Hw].
  split; [intros a; by eapply id_of_nonneg|].
  intros cl l Hcl Hl. by apply (Hw cl Hcl).
Qed.

(** ** The turn budget in a satisfying assignment *)

Lemma elem_of_turn_line_vars V c k s e v :
  v ∈ turn_line_vars V c k s e ↔
  ∃ x y, 0 ≤ x < N c ∧ 0 ≤ y < M c ∧ (x, y) ≠ s ∧ (x, y) ≠ e ∧ v = V (key_T x y k).
Proof.
  unfold turn_line_vars. rewrite elem_of_flat_map. split.
  - intros [x [Hx [y [Hy Hv]]%elem_of_flat_map]].
    apply elem_of_range in Hx. apply elem_of_range in Hy.
    unfold turn_cell_vars in Hv.
    destruct (cell_eqb (x, y) s || cell_eqb (x, y) e) eqn:E; [by apply elem_of_nil in Hv|].
    apply list_elem_of_singleton in Hv as ->.
    apply orb_false_iff in E as [Es Ee].
    exists x, y. repeat (split; [done|]).
    split; [intros E%cell_eqb_eq; congruence|].
    split; [intros E%cell_eqb_eq; congruence|done].
  - intros (x & y & Hx & Hy & Hs & He & ->).
    exists x. split; [by apply elem_of_range|].
    apply elem_of_flat_map. exists y. split; [by apply elem_of_range|].
    unfold turn_cell_vars.
    destruct (cell_eqb (x, y) s || cell_eqb (x, y) e) eqn:E.
    + apply orb_true_iff in E as [E|E]; apply cell_eqb_eq in E; done.
    + by apply list_elem_of_singleton.
Qed.

Lemma flat_map_length_ext {A B} (f g : A → list B) (l : list A) :
  (∀ x, length (f x) = length (g x)) → length (flat_map f l) = length (flat_map g l).
Proof.
  intros H. induction l as [|x l IH]; simpl; [done|]. by rewrite !length_app, IH, H.
Qed.

(** The number of turn indicators of a line does not depend on the ids. *)
Lemma turn_line_vars_length V V' c k s e :
  length (turn_line_vars V c k s e) = length (turn_line_vars V' c k s e).
Proof.
  unfold turn_line_vars. apply flat_map_length_ext. intros x.
  apply flat_map_length_ext. intros y.
  unfold turn_cell_vars. by destruct (cell_eqb (x, y) s || cell_eqb (x, y) e).
Qed.

Lemma turn_vars_collected c k s e st :
  eval (collect (range (N c)) (fun x =>
          collect (range (M c)) (fun y => turn_cell c k s e x y))) st
  = turn_line_vars
      (id_of (exec (collect (range (N c)) (fun x =>
                      collect (range (M c)) (fun y => turn_cell c k s e x y))) st))
      c k s e.
Proof.
  set (V := id_of _).
  assert (yields V (collect (range (N c)) (fun x =>
            collect (range (M c)) (fun y => turn_cell c k s e x y)))
            (turn_line_vars V c k s e) (turn_line_clauses V c k s e)) as Hy.
  { apply yields_collect; [intros; keeps_tac; apply keeps_turn_cell|]. intros x _.
    apply yields_collect; [intros; apply keeps_turn_cell|]. intros y _.
    apply yields_turn_cell. }
  apply Hy, reads_id_of.
Qed.

Lemma for_lines_present c ks body name k s e st st' :
  (∀ k s e, keeps (body k s e)) → k ∈ ks →
  starts c !! Z.to_nat k = Some s → ends c !! Z.to_nat k = Some e →
  (∀ st0, is_Some (var_map (exec (body k s e) st0) !! name)) →
  for_lines c ks body st = Some st' → is_Some (var_map st' !! name).
Proof.
  intros Hk Hin Hs He Hb. revert st. induction ks as [|k0 ks IH]; intros st; simpl.
  { by apply elem_of_nil in Hin. }
  destruct (starts c !! Z.to_nat k0) as [s0|] eqn:Es; [|done].
  destruct (ends c !! Z.to_nat k0) as [e0|] eqn:Ee; [|done].
  intros H. destruct (decide (k0 = k)) as [->|Hne].
  - assert (s0 = s) as -> by congruence. assert (e0 = e) as -> by congruence.
    destruct (Hb st) as [v Hv]. exists v.
    eapply lookup_weaken; [exact Hv|]. by apply (keeps_for_lines c ks body Hk _ _ H).
  - apply elem_of_cons in Hin as [->|Hin]; [done|]. by apply (IH Hin _ H).
Qed.

Lemma turn_cell_present c k s e x y st :
  (x, y) ≠ s → (x, y) ≠ e →
  is_Some (var_map (exec (turn_cell c k s e x y) st) !! var_name (key_T x y k)).
Proof.
  intros Hs He. unfold turn_cell.
  destruct (cell_eqb (x, y) s || cell_eqb (x, y) e) eqn:E.
  { apply orb_true_iff in E as [E|E]; apply cell_eqb_eq in E; done. }
  rewrite exec_bind. apply keeps_present; [keeps_tac|]. apply get_var_present.
Qed.

Lemma turn_line_present c ids k s e x y st :
  0 ≤ x < N c → 0 ≤ y < M c → (x, y) ≠ s → (x, y) ≠ e →
  is_Some (var_map (exec (turn_line c ids k s e) st) !! var_name (key_T x y k)).
Proof.
  intros Hx Hy Hs He. unfold turn_line. rewrite exec_bind.
  apply keeps_present; [keeps_tac; apply keeps_encode_at_most_k_simple|].
  revert st. apply (collect_present _ _ _ x);
    [intros; keeps_tac; apply keeps_turn_cell|by apply elem_of_range|].
  apply (collect_present _ _ _ y); [intros; apply keeps_turn_cell|by apply elem_of_range|].
  intros st. by apply turn_cell_present.
Qed.

Lemma turn_line_counter_present c ids (V : list arg → Z) k s e i j st :
  3 < J c → J c < len (turn_line_vars V c k s e) →
  0 ≤ i ≤ len (turn_line_vars V c k s e) → 0 ≤ j ≤ Z.min i (J c) + 1 →
  is_Some (var_map (exec (turn_line c ids k s e) st) !! var_name (key_SEQ (ids k) i j)).
Proof.
  intros HJ Hn Hi Hj. unfold turn_line. rewrite exec_bind, turn_vars_collected.
  set (st1 := exec (collect _ _) st). set (vs := turn_line_vars (id_of st1) c k s e).
  assert (len vs = len (turn_line_vars V c k s e)) as Hlen.
  { unfold len, vs. f_equal. apply turn_line_vars_length. }
  destruct (Z.leb_spec 0 (J c)); [|lia].
  destruct vs as [|v vs'] eqn:E; [unfold len in *; simpl in *; lia|].
  simpl. apply seq_keys_present; lia.
Qed.

(** The clauses of the at-most-k encoder bound the number of true
    variables, whichever branch wrote them. *)
Lemma at_most_k_clauses_sound V vid vars k asg :
  0 ≤ k → Forall (λ v, 0 < v) vars →
  (3 < k → k < len vars →
   ∀ i j, 0 ≤ i ≤ len vars → 0 ≤ j ≤ Z.min i k + 1 → 0 < V (key_SEQ vid i j)) →
  cnf_holds asg (at_most_k_clauses V vid vars k) = true → count_true asg vars ≤ k.
Proof.
  intros Hk Hpos Hctr. unfold at_most_k_clauses.
  pose proof (count_true_bounds asg vars) as Hb.
  destruct (Z.leb_spec (len vars) k); [lia|].
  destruct (Z.ltb_spec k 0); [lia|].
  destruct (Z.leb_spec k 3).
  - intros Hc%combinations_hold; [lia|done].
  - intros Hc. apply (seq_clauses_sound (fun i j => V (key_SEQ vid i j)) vars k asg);
      [|done..]. by apply Hctr.
Qed.

Lemma encode_to_sat_turn_present c ids st text st' name k s e :
  encode_to_sat c ids st = Some (text, st') →
  0 ≤ k < K c → starts c !! Z.to_nat k = Some s → ends c !! Z.to_nat k = Some e →
  (∀ st0, is_Some (var_map (exec (turn_line c ids k s e) st0) !! name)) →
  is_Some (var_map st' !! name).
Proof.
  unfold encode_to_sat. intros H Hk Hs He Hb.
  destruct (encode_path_constraints c _) as [st2|] eqn:E2; simpl in H; [|done].
  destruct (encode_turn_constraints c ids st2) as [st3|] eqn:E3; simpl in H; [|done].
  injection H as <- <-.
  apply keeps_present; [apply keeps_encode_popular_constraints|].
  eapply (for_lines_present c _ (turn_line c ids) name k s e);
    [apply keeps_turn_line|by apply elem_of_range|done..].
Qed.

(** ** What a satisfying assignment says *)

Lemma elem_of_directions d dx dy :
  (d, (dx, dy)) ∈ directions → d ∈ decode_dirs.
Proof.
  unfold directions, decode_dirs. intros H.
  repeat (apply elem_of_cons in H as [[= -> -> ->]|H]; [set_solver|]).
  by apply elem_of_nil in H.
Qed.

Lemma decode_dirs_directions d :
  d ∈ decode_dirs → ∃ dx dy, (d, (dx, dy)) ∈ directions.
Proof.
  unfold directions, decode_dirs. intros H.
  repeat (apply elem_of_cons in H as [->|H];
          [eexists _, _; repeat first [by left | right]|]).
  by apply elem_of_nil in H.
Qed.

Lemma elem_of_out_vars V c k x y v :
  v ∈ out_vars V c k x y ↔
  ∃ d dx dy, (d, (dx, dy)) ∈ directions ∧ in_bounds c (x + dx, y + dy) = true ∧
             v = V (key_D x y k d).
Proof.
  unfold out_vars. rewrite elem_of_flat_map. split.
  - intros [[d [dx dy]] [Hd Hv]]. destruct (in_bounds c (x + dx, y + dy)) eqn:E.
    + apply list_elem_of_singleton in Hv. by exists d, dx, dy.
    + by apply elem_of_nil in Hv.
  - intros (d & dx & dy & Hd & Hb & ->). exists (d, (dx, dy)). split; [done|].
    rewrite Hb. by apply list_elem_of_singleton.
Qed.

Lemma elem_of_inc_vars V c k x y v :
  v ∈ inc_vars V c k x y ↔
  ∃ d dx dy, (d, (dx, dy)) ∈ directions ∧ in_bounds c (x - dx, y - dy) = true ∧
             v = V (key_D (x - dx) (y - dy) k d).
Proof.
  unfold inc_vars. rewrite elem_of_flat_map. split.
  - intros [[d [dx dy]] [Hd Hv]]. destruct (in_bounds c (x - dx, y - dy)) eqn:E.
    + apply list_elem_of_singleton in Hv. by exists d, dx, dy.
    + by apply elem_of_nil in Hv.
  - intros (d & dx & dy & Hd & Hb & ->). exists (d, (dx, dy)). split; [done|].
    rewrite Hb. by apply list_elem_of_singleton.
Qed.

Lemma exactly_one_clauses_hold asg (vars : list Z) :
  Forall (λ v, 0 < v) vars → vars ≠ [] →
  cnf_holds asg (exactly_one_clauses vars) = true ↔ count_true asg vars = 1.
Proof.
  intros Hpos Hne. unfold exactly_one_clauses. destruct vars as [|v vars]; [done|].
  cbn [truthy].
  change (cnf_holds asg ((v :: vars) :: pair_clauses (v :: vars)))
    with (clause_holds asg (v :: vars) && cnf_holds asg (pair_clauses (v :: vars))).
  rewrite andb_true_iff, clause_holds_pos, pair_clauses_hold by done. lia.
Qed.

Section Models.

Variable c : city.
Variable ids : Z → Z.
Variable st st' : store.
Variable text : string.
Variable asg : Z → bool.
Hypothesis run : encode_to_sat c ids st = Some (text, st').
Hypothesis holds : cnf_holds asg (clauses st') = true.

Local Abbreviation V := (id_of st').

Lemma model_clause cl : cl ∈ clauses st' → clause_holds asg cl = true.
Proof. intros H. pose proof holds as Hh. rewrite cnf_holds_iff in Hh. by apply Hh. Qed.

Lemma model_pos cl a : cl ∈ clauses st' → V a ∈ cl ∨ - V a ∈ cl → 0 < V a.
Proof.
  intros Hcl Ha. destruct (encode_to_sat_reading c ids st text st' run) as (_ & Hn & Hw).
  specialize (Hn a). destruct Ha as [Ha|Ha]; specialize (Hw cl _ Hcl Ha); lia.
Qed.

Lemma model_sub cls : cls ⊆ clauses st' → cnf_holds asg cls = true.
Proof.
  intros Hs. apply cnf_holds_iff. intros cl Hcl. apply model_clause. by apply Hs.
Qed.

Lemma model_path_line k s e cl :
  0 ≤ k < K c → starts c !! Z.to_nat k = Some s → ends c !! Z.to_nat k = Some e →
  cl ∈ path_line_clauses V c k s e → cl ∈ clauses st'.
Proof.
  intros Hk Hs He Hcl.
  destruct (encode_to_sat_reading c ids st text st' run) as (-> & _ & _).
  apply elem_of_app. right. apply elem_of_app. left.
  apply elem_of_lines_clauses. exists k, s, e. by rewrite elem_of_range.
Qed.

Lemma model_path_cell k s e x y cl :
  0 ≤ k < K c → starts c !! Z.to_nat k = Some s → ends c !! Z.to_nat k = Some e →
  0 ≤ x < N c → 0 ≤ y < M c →
  cl ∈ path_cell_clauses V c k s e x y → cl ∈ clauses st'.
Proof.
  intros Hk Hs He Hx Hy Hcl. apply (model_path_line k s e); [done..|].
  unfold path_line_clauses. do 2 apply elem_of_cons; right. right.
  apply elem_of_flat_map. exists x. split; [by apply elem_of_range|].
  apply elem_of_flat_map. exists y. split; [by apply elem_of_range|done].
Qed.

Lemma model_turn_line k s e cl :
  0 ≤ k < K c → starts c !! Z.to_nat k = Some s → ends c !! Z.to_nat k = Some e →
  cl ∈ turn_budget_clauses V c ids k s e → cl ∈ clauses st'.
Proof.
  intros Hk Hs He Hcl.
  destruct (encode_to_sat_reading c ids st text st' run) as (-> & _ & _).
  apply elem_of_app. right. apply elem_of_app. right. apply elem_of_app. left.
  apply elem_of_lines_clauses. exists k, s, e. by rewrite elem_of_range.
Qed.

(** An implication clause. *)
Lemma model_implies a b :
  [- V a; V b] ∈ clauses st' → asg (V a) = true → asg (V b) = true.
Proof.
  intros Hcl Ha. pose proof (model_clause _ Hcl) as Hc.
  assert (0 < V a) as Pa by (apply (model_pos _ a Hcl); right; set_solver).
  assert (0 < V b) as Pb by (apply (model_pos _ b Hcl); left; set_solver).
  unfold clause_holds in Hc. simpl in Hc.
  rewrite lit_holds_neg, lit_holds_pos, Ha in Hc by done. simpl in Hc.
  by rewrite orb_false_r in Hc.
Qed.

(** A negative unit clause. *)
Lemma model_refutes a : [- V a] ∈ clauses st' → asg (V a) = false.
Proof.
  intros Hcl. pose proof (model_clause _ Hcl) as Hc.
  assert (0 < V a) as Pa by (apply (model_pos _ a Hcl); right; set_solver).
  unfold clause_holds in Hc. simpl in Hc. rewrite lit_holds_neg in Hc by done.
  by destruct (asg (V a)).
Qed.

(** A positive unit clause. *)
Lemma model_asserts a : [V a] ∈ clauses st' → asg (V a) = true.
Proof.
  intros Hcl. pose proof (model_clause _ Hcl) as Hc.
  assert (0 < V a) as Pa by (apply (model_pos _ a Hcl); left; set_solver).
  unfold clause_holds in Hc. simpl in Hc. rewrite lit_holds_pos in Hc by done.
  by rewrite orb_false_r in Hc.
Qed.

(** X9.  In every satisfying assignment of the emitted formula, each line
    occupies its start and its end, an edge variable of a grid cell is true
    only if the line occupies the cell, and an edge into a neighbour on the
    grid is true only if the line occupies the neighbour. *)
Theorem encode_to_sat_models_connect (k : Z) (s e : Z * Z) :
  0 ≤ k < K c → starts c !! Z.to_nat k = Some s → ends c !! Z.to_nat k = Some e →
  asg (V (key_C s.1 s.2 k)) = true ∧ asg (V (key_C e.1 e.2 k)) = true ∧
  (∀ x y d, 0 ≤ x < N c → 0 ≤ y < M c → d ∈ decode_dirs →
            asg (V (key_D x y k d)) = true → asg (V (key_C x y k)) = true) ∧
  (∀ x y d dx dy, 0 ≤ x < N c → 0 ≤ y < M c → (d, (dx, dy)) ∈ directions →
                  in_bounds c (x + dx, y + dy) = true →
                  asg (V (key_D x y k d)) = true →
                  asg (V (key_C (x + dx) (y + dy) k)) = true).
Proof.
  intros Hk Hs He. repeat split.
  - apply model_asserts, (model_path_line k s e); [done..|]. unfold path_line_clauses. set_solver.
  - apply model_asserts, (model_path_line k s e); [done..|]. unfold path_line_clauses. set_solver.
  - intros x y d Hx Hy [dx [dy Hd]]%decode_dirs_directions. apply model_implies.
    apply (model_path_cell k s e x y); [done..|]. unfold path_cell_clauses.
    apply elem_of_app. left. apply elem_of_flat_map. exists (d, (dx, dy)). set_solver.
  - intros x y d dx dy Hx Hy Hd Hb. apply model_implies.
    apply (model_path_cell k s e x y); [done..|]. unfold path_cell_clauses.
    apply elem_of_app. right. apply elem_of_app. right.
    apply elem_of_flat_map. exists (d, (dx, dy)). split; [done|]. rewrite Hb. set_solver.
Qed.

Lemma model_pos_vars cl (vars : list Z) :
  cl ∈ clauses st' → (∀ v, v ∈ vars → v ∈ cl ∧ ∃ a, v = V a) → Forall (λ v, 0 < v) vars.
Proof.
  intros Hcl H. apply Forall_forall. intros v Hv. destruct (H v Hv) as [Hin [a ->]].
  apply (model_pos cl a Hcl). by left.
Qed.

Lemma out_vars_keys k x y v : v ∈ out_vars V c k x y → ∃ a, v = V a.
Proof. intros (d & dx & dy & _ & _ & ->)%elem_of_out_vars. by eexists. Qed.

Lemma inc_vars_keys k x y v : v ∈ inc_vars V c k x y → ∃ a, v = V a.
Proof. intros (d & dx & dy & _ & _ & ->)%elem_of_inc_vars. by eexists. Qed.

(** The exactly-one clauses over ids of keys. *)
Lemma model_exactly_one (vars : list Z) :
  (∀ v, v ∈ vars → ∃ a, v = V a) → exactly_one_clauses vars ⊆ clauses st' →
  vars ≠ [] → count_true asg vars = 1.
Proof.
  intros Hkeys Hsub Hne. apply exactly_one_clauses_hold; [|done|by apply model_sub].
  apply (model_pos_vars vars); [|by auto].
  apply Hsub. unfold exactly_one_clauses. destruct vars; [done|]. by left.
Qed.

(** The clauses of an intermediate cell over its outgoing, or incoming,
    edges. *)
Lemma model_guarded a (vars : list Z) :
  (∀ v, v ∈ vars → ∃ b, v = V b) → guarded_clauses (V a) vars ⊆ clauses st' →
  count_true asg vars ≤ 1 ∧ (asg (V a) = true → vars ≠ [] → count_true asg vars = 1).
Proof.
  intros Hkeys Hsub. destruct vars as [|v vars].
  { split; [|done]. change (count_true asg []) with 0. lia. }
  assert (([- V a] ++ v :: vars) ∈ clauses st') as Hcl.
  { apply Hsub. unfold guarded_clauses. by left. }
  assert (Forall (λ v, 0 < v) (v :: vars)) as Hpos.
  { apply (model_pos_vars _ _ Hcl). intros w Hw. split; [|by auto].
    apply elem_of_app. by right. }
  assert (count_true asg (v :: vars) ≤ 1) as Hle.
  { apply pair_clauses_hold; [done|]. apply model_sub. intros cl Hin. apply Hsub.
    unfold guarded_clauses. by right. }
  split; [done|]. intros Ha _.
  assert (0 < V a) as Pa.
  { apply (model_pos _ a Hcl). right. apply elem_of_app. left. by left. }
  pose proof (model_clause _ Hcl) as Hc.
  change ([- V a] ++ v :: vars) with (- V a :: v :: vars) in Hc.
  rewrite clause_holds_cons, lit_holds_neg, Ha in Hc by done. cbn [negb orb] in Hc.
  apply clause_holds_pos in Hc; [lia|done].
Qed.

(** A clause that switches a variable off with another. *)
Lemma model_switches a b :
  [V a; - V b] ∈ clauses st' → asg (V a) = false → asg (V b) = false.
Proof.
  intros Hcl Ha. pose proof (model_clause _ Hcl) as Hc.
  assert (0 < V a) as Pa by (apply (model_pos _ a Hcl); left; set_solver).
  assert (0 < V b) as Pb by (apply (model_pos _ b Hcl); right; set_solver).
  unfold clause_holds in Hc. simpl in Hc.
  rewrite lit_holds_neg, lit_holds_pos, Ha in Hc by done. simpl in Hc.
  by destruct (asg (V b)).
Qed.

(** X10.  In every satisfying assignment of the emitted formula: the start of
    a line has exactly one true edge to a neighbour on the grid, when it has
    such a neighbour, and no true edge from one; its end, when it is not also
    its start, has no true edge out at all and exactly one from a neighbour on
    the grid; any other cell has at most one true edge to, and at most one
    from, a neighbour on the grid, exactly one of each when the line occupies
    it and none when it does not. *)
Theorem encode_to_sat_models_degrees (k : Z) (s e : Z * Z) (x y : Z) :
  0 ≤ k < K c → starts c !! Z.to_nat k = Some s → ends c !! Z.to_nat k = Some e →
  0 ≤ x < N c → 0 ≤ y < M c →
  let out := out_vars V c k x y in
  let inc := inc_vars V c k x y in
  ((x, y) = s →
     (out ≠ [] → count_true asg out = 1) ∧ (∀ v, v ∈ inc → asg v = false)) ∧
  ((x, y) ≠ s → (x, y) = e →
     (∀ d, d ∈ decode_dirs → asg (V (key_D x y k d)) = false) ∧
     (inc ≠ [] → count_true asg inc = 1)) ∧
  ((x, y) ≠ s → (x, y) ≠ e →
     count_true asg out ≤ 1 ∧ count_true asg inc ≤ 1 ∧
     (asg (V (key_C x y k)) = true →
        (out ≠ [] → count_true asg out = 1) ∧ (inc ≠ [] → count_true asg inc = 1)) ∧
     (asg (V (key_C x y k)) = false → ∀ v, v ∈ out ++ inc → asg v = false)).
Proof.
  intros Hk Hs He Hx Hy out inc.
  pose proof (fun cl => model_path_cell k s e x y cl Hk Hs He Hx Hy) as Hin.
  unfold path_cell_clauses in Hin. cbv zeta in Hin.
  assert (∀ cl, cl ∈ (if cell_eqb (x, y) s then
        exactly_one_clauses out
        ++ flat_map (fun '(d, (dx, dy)) =>
             if in_bounds c (x - dx, y - dy)
             then [[- V (key_D (x - dx) (y - dy) k d)]] else []) directions
      else if cell_eqb (x, y) e then
        flat_map (fun '(d, _) => [[- V (key_D x y k d)]]) directions
        ++ exactly_one_clauses inc
      else
        guarded_clauses (V (key_C x y k)) out
        ++ guarded_clauses (V (key_C x y k)) inc
        ++ map (fun v => [V (key_C x y k); - v]) (out ++ inc)) → cl ∈ clauses st') as Hmid.
  { intros cl Hcl. apply Hin. apply elem_of_app. right. apply elem_of_app. by left. }
  clear Hin. split; [|split].
  - intros Hst%cell_eqb_eq. rewrite Hst in Hmid. split.
    + intros Hne. apply model_exactly_one; [apply out_vars_keys| |done].
      intros cl Hcl. apply Hmid, elem_of_app. by left.
    + intros v (d & dx & dy & Hd & Hb & ->)%elem_of_inc_vars. apply model_refutes.
      apply Hmid, elem_of_app. right. apply elem_of_flat_map. exists (d, (dx, dy)).
      split; [done|]. rewrite Hb. by left.
  - intros Hns Hen%cell_eqb_eq.
    destruct (cell_eqb (x, y) s) eqn:Es; [by apply cell_eqb_eq in Es|].
    rewrite Hen in Hmid. split.
    + intros d [dx [dy Hd]]%decode_dirs_directions. apply model_refutes.
      apply Hmid, elem_of_app. left. apply elem_of_flat_map. exists (d, (dx, dy)).
      split; [done|]. by left.
    + intros Hne. apply model_exactly_one; [apply inc_vars_keys| |done].
      intros cl Hcl. apply Hmid, elem_of_app. by right.
  - intros Hns Hne.
    destruct (cell_eqb (x, y) s) eqn:Es; [by apply cell_eqb_eq in Es|].
    destruct (cell_eqb (x, y) e) eqn:Ee; [by apply cell_eqb_eq in Ee|].
    destruct (model_guarded (key_C x y k) out) as [Ho1 Ho2]; [apply out_vars_keys| |].
    { intros cl Hcl. apply Hmid, elem_of_app. by left. }
    destruct (model_guarded (key_C x y k) inc) as [Hi1 Hi2]; [apply inc_vars_keys| |].
    { intros cl Hcl. apply Hmid, elem_of_app. right. apply elem_of_app. by left. }
    split; [done|]. split; [done|]. split; [by auto|].
    intros Hc v Hv.
    assert (∃ b, v = V b) as [b ->].
    { apply elem_of_app in Hv as [Hv|Hv]; [by eapply out_vars_keys|by eapply inc_vars_keys]. }
    apply (model_switches (key_C x y k)); [|done].
    apply Hmid, elem_of_app. right. apply elem_of_app. right.
    apply list_elem_of_fmap. by exists (V b).
Qed.

Lemma model_present_pos a : is_Some (var_map st' !! var_name a) → 0 < V a.
Proof.
  intros Ha. destruct (encode_to_sat_well_formed c ids st text st' run) as [[seen Ht] _].
  pose proof (id_of_range st' seen a Ht Ha). lia.
Qed.

(** X11.  In every satisfying assignment of the emitted formula: at a cell of
    the grid that is neither the start nor the end of a line, when an edge
    from a neighbour on the grid and an edge to a neighbour on the grid are
    both true, the turn indicator of the cell is true exactly when their
    directions differ; and with a turn budget [J >= 0] at most [J] turn
    indicators of the line are true, the indicators being those of the cells of
    the grid other than its start and its end.  The values of [id(turn_vars)]
    do not matter for this. *)
Theorem encode_to_sat_models_turns (k : Z) (s e : Z * Z) :
  0 ≤ k < K c → starts c !! Z.to_nat k = Some s → ends c !! Z.to_nat k = Some e →
  (∀ x y d_in dx_in dy_in d_out dx_out dy_out,
     0 ≤ x < N c → 0 ≤ y < M c → (x, y) ≠ s → (x, y) ≠ e →
     (d_in, (dx_in, dy_in)) ∈ directions → (d_out, (dx_out, dy_out)) ∈ directions →
     in_bounds c (x - dx_in, y - dy_in) = true →
     in_bounds c (x + dx_out, y + dy_out) = true →
     asg (V (key_D (x - dx_in) (y - dy_in) k d_in)) = true →
     asg (V (key_D x y k d_out)) = true →
     (asg (V (key_T x y k)) = true ↔ d_in ≠ d_out)) ∧
  (∀ v, v ∈ turn_line_vars V c k s e ↔
        ∃ x y, 0 ≤ x < N c ∧ 0 ≤ y < M c ∧ (x, y) ≠ s ∧ (x, y) ≠ e ∧ v = V (key_T x y k)) ∧
  (0 ≤ J c → count_true asg (turn_line_vars V c k s e) ≤ J c).
Proof.
  intros Hk Hs He. split; [|split; [apply elem_of_turn_line_vars|]].
  - intros x y d_in dx_in dy_in d_out dx_out dy_out Hx Hy Hns Hne Hin Hout Bin Bout Ain Aout.
    set (cl := [- V (key_D (x - dx_in) (y - dy_in) k d_in); - V (key_D x y k d_out);
                if decide (d_in = d_out) then - V (key_T x y k) else V (key_T x y k)]).
    assert (cl ∈ clauses st') as Hcl.
    { apply (model_turn_line k s e); [done..|]. unfold turn_budget_clauses.
      apply elem_of_app. left. unfold turn_line_clauses.
      apply elem_of_flat_map. exists x. split; [by apply elem_of_range|].
      apply elem_of_flat_map. exists y. split; [by apply elem_of_range|].
      apply elem_of_turn_cell_clauses. split; [done|]. split; [done|].
      by exists d_in, dx_in, dy_in, d_out, dx_out, dy_out. }
    pose proof (model_clause _ Hcl) as Hc.
    assert (0 < V (key_D (x - dx_in) (y - dy_in) k d_in)) as Pin.
    { apply (model_pos _ _ Hcl). right. by left. }
    assert (0 < V (key_D x y k d_out)) as Pout.
    { apply (model_pos _ _ Hcl). right. right. by left. }
    assert (0 < V (key_T x y k)) as Pt.
    { apply (model_pos _ _ Hcl). unfold cl.
      destruct (decide (d_in = d_out)); [right|left]; right; right; by left. }
    unfold cl in Hc. rewrite !clause_holds_cons in Hc.
    rewrite !lit_holds_neg, Ain, Aout in Hc by done. cbn [negb orb] in Hc.
    destruct (decide (d_in = d_out)) as [Heq|Hneq].
    + rewrite lit_holds_neg in Hc by done. destruct (asg (V (key_T x y k))); [done|].
      split; [done|]. by intros [].
    + rewrite lit_holds_pos in Hc by done. rewrite orb_false_r in Hc. by rewrite Hc.
  - intros HJ.
    assert (Forall (λ v, 0 < v) (turn_line_vars V c k s e)) as Hpos.
    { apply Forall_forall. intros v (x & y & Hx & Hy & Hns & Hne & ->)%elem_of_turn_line_vars.
      apply model_present_pos.
      apply (encode_to_sat_turn_present c ids st text st' _ k s e run Hk Hs He).
      intros st0. by apply turn_line_present. }
    remember (turn_line_vars V c k s e) as vars eqn:E.
    destruct (decide (vars = [])) as [->|Hne].
    { change (count_true asg []) with 0. lia. }
    apply (at_most_k_clauses_sound V (ids k)); [done..| |].
    + intros H3 Hn i j Hi Hj. apply model_present_pos.
      apply (encode_to_sat_turn_present c ids st text st' _ k s e run Hk Hs He).
      intros st0. apply (turn_line_counter_present c ids V); by rewrite <-?E.
    + apply model_sub. intros cl Hcl. apply (model_turn_line k s e); [done..|].
      unfold turn_budget_clauses. apply elem_of_app. right. rewrite <-E.
      destruct (Z.leb_spec 0 (J c)); [|lia]. by destruct vars.
Qed.

End Models.

(** ** Instances on three cells in a row *)

Lemma encoded_3x1 :
  encode_to_sat city_3x1 some_ids reset
  = Some (dimacs (encoded city_3x1 some_ids), encoded city_3x1 some_ids).
Proof. vm_compute. reflexivity. Defined.

Lemma model_3x1_holds : cnf_holds model_3x1 (clauses (encoded city_3x1 some_ids)) = true.
Proof. vm_compute. reflexivity. Defined.

Lemma encode_to_sat_models_connect_witness :
  model_3x1 (id_of (encoded city_3x1 some_ids) (key_C 0 0 0)) = true.
Proof.
  refine (proj1 (encode_to_sat_models_connect city_3x1 some_ids reset
                   (encoded city_3x1 some_ids) (dimacs (encoded city_3x1 some_ids))
                   model_3x1 encoded_3x1 model_3x1_holds 0 (0, 0) (2, 0) _ _ _)).
  - simpl. lia.
  - reflexivity.
  - reflexivity.
Defined.

Lemma encode_to_sat_models_degrees_witness :
  count_true model_3x1 (out_vars (id_of (encoded city_3x1 some_ids)) city_3x1 0 1 0) ≤ 1.
Proof.
  assert ((1, 0) ≠ ((0, 0) : Z * Z)) as Hs by discriminate.
  assert ((1, 0) ≠ ((2, 0) : Z * Z)) as He by discriminate.
  refine (proj1 (proj2 (proj2 (encode_to_sat_models_degrees city_3x1 some_ids reset
                   (encoded city_3x1 some_ids) (dimacs (encoded city_3x1 some_ids))
                   model_3x1 encoded_3x1 model_3x1_holds 0 (0, 0) (2, 0) 1 0 _ _ _ _ _))
                   Hs He)).
  - simpl. lia.
  - reflexivity.
  - reflexivity.
  - simpl. lia.
  - simpl. lia.
Defined.

Lemma encode_to_sat_models_turns_witness :
  count_true model_3x1 (turn_line_vars (id_of (encoded city_3x1 some_ids)) city_3x1 0
                          (0, 0) (2, 0)) ≤ J city_3x1.
Proof.
  refine (proj2 (proj2 (encode_to_sat_models_turns city_3x1 some_ids reset
                   (encoded city_3x1 some_ids) (dimacs (encoded city_3x1 some_ids))
                   model_3x1 encoded_3x1 model_3x1_holds 0 (0, 0) (2, 0) _ _ _)) _).
  - simpl. lia.
  - reflexivity.
  - reflexivity.
  - simpl. lia.
Defined.

(** ** The path encoder and the whole encoder, as clause lists *)

Lemma path_line_present c k s e x y d st :
  0 ≤ x < N c → 0 ≤ y < M c → d ∈ decode_dirs →
  is_Some (var_map (exec (path_line c k s e) st) !! var_name (key_D x y k d)).
Proof.
  intros Hx Hy Hd. unfold path_line. rewrite !exec_bind.
  apply (for_present _ _ _ x); [intros; keeps_tac; apply keeps_path_cell|by apply elem_of_range|].
  intros st1.
  apply (for_present _ _ _ y); [intros; apply keeps_path_cell|by apply elem_of_range|].
  intros st2. by apply path_cell_requests_every_direction.
Qed.

(** X6.  The path encoder appends, line after line, the unit clauses of the
    start and of the end of the line and then, cell by cell in row-major
    order, the clauses of the cell; the variables are the ids of the keys in
    the registry the encoder leaves, which only grows and holds, for every
    line, the four edge keys of every cell of the grid, those that point off
    the grid included. *)
Theorem encode_path_constraints_spec (c : city) (st st' : store) :
  encode_path_constraints c st = Some st' →
  let V := id_of st' in
  clauses st' = clauses st ++ lines_clauses c (range (K c)) (path_line_clauses V c) ∧
  var_map st ⊆ var_map st' ∧
  (∀ k x y d, 0 ≤ k < K c → 0 ≤ x < N c → 0 ≤ y < M c → d ∈ decode_dirs →
              is_Some (var_map st' !! var_name (key_D x y k d))).
Proof.
  intros Hrun V. split; [|split].
  - apply (for_lines_clauses c _ (path_line c)); [apply keeps_path_line| |done].
    intros k s e. apply yields_path_line.
  - by apply (keeps_for_lines c _ _ (keeps_path_line c) _ _ Hrun).
  - intros k x y d Hk Hx Hy Hd.
    assert (is_Some (for_lines c (range (K c)) (path_line c) st)) as Hsome by (by eexists).
    pose proof (proj1 (for_lines_is_Some c _ _ _) Hsome) as Hall.
    destruct (Hall k) as [[s Hs] [e He]]; [by apply elem_of_range|].
    apply (for_lines_present c (range (K c)) (path_line c) _ k s e st st');
      [apply keeps_path_line|by apply elem_of_range|done..| |done].
    intros st0. by apply path_line_present.
Qed.

(** An instance: the row of three cells, from the reset registry. *)
Lemma encode_path_constraints_spec_witness :
  let st' := default reset (encode_path_constraints city_3x1 reset) in
  clauses st'
  = clauses reset
    ++ lines_clauses city_3x1 (range (K city_3x1)) (path_line_clauses (id_of st') city_3x1).
Proof.
  refine (proj1 (encode_path_constraints_spec city_3x1 reset _ _)).
  vm_compute. reflexivity.
Defined.

(** X7.  What [encode_to_sat] writes is made of four groups of clauses in
    this order: cell exclusivity, paths, turn budgets, coverage of the popular
    cells; each group is the clause list of its encoder over the ids that the
    final registry gives to the keys, whichever encoder allocated them. *)
Theorem encode_to_sat_composes (c : city) (ids : Z → Z) (st : store) (text : string)
    (st' : store) :
  encode_to_sat c ids st = Some (text, st') →
  let V := id_of st' in
  text = dimacs st' ∧
  clauses st'
  = cell_clauses V c
    ++ lines_clauses c (range (K c)) (path_line_clauses V c)
    ++ lines_clauses c (range (K c)) (turn_budget_clauses V c ids)
    ++ popular_clauses V c.
Proof.
  intros Hrun V. split; [by apply (encode_to_sat_tracks c ids st text st')|].
  apply (encode_to_sat_parts V c ids st text st' Hrun), reads_id_of.
Qed.

Lemma encode_to_sat_composes_witness :
  clauses (encoded city_3x1 some_ids)
  = cell_clauses (id_of (encoded city_3x1 some_ids)) city_3x1
    ++ lines_clauses city_3x1 (range (K city_3x1))
         (path_line_clauses (id_of (encoded city_3x1 some_ids)) city_3x1)
    ++ lines_clauses city_3x1 (range (K city_3x1))
         (turn_budget_clauses (id_of (encoded city_3x1 some_ids)) city_3x1 some_ids)
    ++ popular_clauses (id_of (encoded city_3x1 some_ids)) city_3x1.
Proof. exact (proj2 (encode_to_sat_composes city_3x1 some_ids reset _ _ encoded_3x1)). Defined.

(** X8.  The formula [encode_to_sat] writes is well formed: no clause is
    empty, every literal is a non-zero integer whose variable is at most the
    number of variables announced in the header, and the variables the
    registry holds are exactly the numbers from 1 to that number, each under
    one name. *)
Theorem encode_to_sat_well_formed_cnf (c : city) (ids : Z → Z) (st : store) (text : string)
    (st' : store) :
  encode_to_sat c ids st = Some (text, st') →
  (∀ cl, cl ∈ clauses st' →
         cl ≠ [] ∧ ∀ l, l ∈ cl → l ≠ 0 ∧ - var_counter st' ≤ l ≤ var_counter st') ∧
  (∀ v, 1 ≤ v ≤ var_counter st' ↔ ∃ name, var_map st' !! name = Some v) ∧
  (∀ n1 n2 v, var_map st' !! n1 = Some v → var_map st' !! n2 = Some v → n1 = n2).
Proof.
  intros Hrun. destruct (encode_to_sat_well_formed c ids st text st' Hrun) as [[seen Ht] Hw].
  split; [|split].
  - intros cl Hcl. destruct (Hw cl Hcl) as [Hne Hl]. split; [done|].
    intros l Hin. specialize (Hl l Hin). unfold lit_ok in Hl. lia.
  - intros v. split; [by eapply tracks_full|]. intros [name Hv]. by eapply tracks_range.
  - intros n1 n2 v. by eapply tracks_inj.
Qed.

Lemma encode_to_sat_well_formed_cnf_witness :
  1 ≤ 16 ≤ var_counter (encoded city_3x1 some_ids) ↔
  ∃ name, var_map (encoded city_3x1 some_ids) !! name = Some 16.
Proof.
  exact (proj1 (proj2 (encode_to_sat_well_formed_cnf city_3x1 some_ids reset _ _
                         encoded_3x1)) 16).
Defined.

(** An instance of the coverage encoder: two cells, the right one
    popular. *)
Lemma encode_popular_constraints_spec_witness :
  clauses (exec (encode_popular_constraints city_popular) reset)
  = clauses reset
    ++ popular_clauses (id_of (exec (encode_popular_constraints city_popular) reset))
         city_popular.
Proof.
  refine (proj1 (encode_popular_constraints_spec city_popular reset [] (fun _ => false) _)).
  apply tracks_reset.
Defined.

(** ** What the decoder reads *)

Lemma positives_cons v vs :
  positives (v :: vs) = (if 0 <? v then {[v]} ∪ positives vs else positives vs).
Proof.
  unfold positives. rewrite filter_cons.
  destruct (Z.ltb_spec 0 v); [rewrite decide_True by done|rewrite decide_False by lia]; done.
Qed.

Lemma positives_app vs ws : positives (vs ++ ws) = positives vs ∪ positives ws.
Proof. unfold positives. rewrite filter_app. set_solver. Qed.

Lemma parse_tokens_values py_int tokens (A : gset Z) :
  parse_tokens py_int tokens A
  = match all_ints py_int (before_zero tokens) with
    | Some vs => Done (positives vs ∪ A)
    | None => Raised "ValueError"
    end.
Proof.
  revert A. induction tokens as [|token tokens IH]; intros A; simpl.
  - f_equal. unfold positives. set_solver.
  - destruct (decide (token = "0")); simpl.
    { f_equal. unfold positives. set_solver. }
    destruct (py_int token) as [v|]; [|done].
    rewrite IH. destruct (all_ints py_int (before_zero tokens)) as [vs|]; [|done].
    f_equal. rewrite positives_cons. destruct (0 <? v); set_solver.
Qed.

(** X12.  The loop of the decoder over the lines of the solver output: on
    each line the tokens before the first ["0"] are converted, the others are
    not looked at; a token that [int] refuses raises [ValueError]; otherwise
    the loop ends with the set it was given and the positive values read, on
    all lines together.  The token ["0"] ends its line only, and a value that
    is not positive is dropped. *)
Theorem parse_lines_values (py_int : string → option Z) (lines : list string)
    (assignments : gset Z) :
  parse_lines py_int lines assignments
  = match lines_values py_int lines with
    | Some vs => Done (positives vs ∪ assignments)
    | None => Raised "ValueError"
    end.
Proof.
  revert assignments. induction lines as [|line lines IH]; intros A; simpl.
  - f_equal. unfold positives. set_solver.
  - rewrite parse_tokens_values.
    destruct (all_ints py_int (before_zero (split (strip line)))) as [vs|]; [|done].
    rewrite IH. destruct (lines_values py_int lines) as [ws|]; [|done].
    f_equal. rewrite positives_app. set_solver.
Qed.

(** The loop over the lines raises only for a token. *)
Lemma parse_lines_raises py_int lines (A : gset Z) err :
  parse_lines py_int lines A = Raised err → err = "ValueError".
Proof.
  revert A. induction lines as [|line lines IH]; intros A; simpl; [done|].
  rewrite parse_tokens_values.
  destruct (all_ints py_int (before_zero (split (strip line)))); [apply IH|by intros [= <-]].
Qed.

(** ** What the decoder leaves and answers *)

Lemma keeps_first_dir (A : gset Z) k p ds : keeps (first_dir A k p ds).
Proof.
  induction ds as [|d ds IH]; simpl; [apply keeps_ret|].
  apply keeps_bind; [apply keeps_get_var|]. intros v.
  destruct (decide (v ∈ A)); [apply keeps_ret|done].
Qed.

Lemma first_dir_answer (A : gset Z) k p ds st d p' :
  (first_dir A k p ds st).1 = Some (d, p') → d ∈ ds.
Proof.
  revert st. induction ds as [|d0 ds IH]; intros st; simpl; [done|].
  rewrite bind_run. destruct (decide _); simpl.
  - intros [= <- _]. by left.
  - intros H. right. by eapply IH.
Qed.

(** The part of an outcome that speaks of a store that has not changed. *)
Ltac same_store := split; [done|]; split; [done|]; split; [by eauto|].

Lemma walk_outcome (A : gset Z) k e fuel :
  ∀ p path st,
    let r := walk fuel A k e p path st in
    clauses r.2 = clauses st ∧ var_map st ⊆ var_map r.2 ∧
    (∀ seen, tracks st seen → ∃ seen', tracks r.2 seen') ∧
    match r.1 with
    | Done path' => ∃ suffix, path' = path ++ suffix ∧ ∀ d, d ∈ suffix → d ∈ decode_dirs
    | Raised _ => False
    | OutOfFuel => True
    end.
Proof.
  induction fuel as [|fuel IH]; intros p path st; cbv zeta.
  - rewrite walk_O. destruct (cell_eqb p e); cbn [fst snd].
    + same_store. exists []. rewrite app_nil_r. split; [done|].
      intros d Hd. by apply elem_of_nil in Hd.
    + by same_store.
  - rewrite walk_S. destruct (cell_eqb p e).
    { cbn [fst snd]. same_store. exists []. rewrite app_nil_r. split; [done|].
      intros d Hd. by apply elem_of_nil in Hd. }
    destruct (first_dir_mono A k p decode_dirs st) as [Hsub Hcl].
    destruct (keeps_first_dir A k p decode_dirs st) as [_ Hk]. unfold exec in Hk.
    destruct (first_dir A k p decode_dirs st) as [r st1] eqn:E. cbn [fst snd] in *.
    destruct r as [[d p']|].
    + destruct (IH p' (path ++ [d]) st1) as (Hcl1 & Hsub1 & Ht1 & Hres).
      split; [congruence|]. split; [by etrans|]. split.
      { intros seen [seen1 H1]%Hk. by apply Ht1 in H1. }
      destruct (walk fuel A k e p' (path ++ [d]) st1).1 as [path'| |]; [|done..].
      destruct Hres as (suffix & -> & Hd). exists (d :: suffix).
      split; [by rewrite <-app_assoc|].
      intros d0 [->|Hd0]%elem_of_cons; [|by apply Hd].
      apply (first_dir_answer A k p decode_dirs st d p'). by rewrite E.
    + split; [done|]. split; [done|]. split; [done|].
      exists []. rewrite app_nil_r. split; [done|].
      intros d Hd. by apply elem_of_nil in Hd.
Qed.

Lemma reconstruct_outcome (A : gset Z) c fuel ks :
  ∀ (paths : list (list string)) st,
    let r := reconstruct fuel c A ks paths st in
    clauses r.2 = clauses st ∧ var_map st ⊆ var_map r.2 ∧
    (∀ seen, tracks st seen → ∃ seen', tracks r.2 seen') ∧
    match r.1 with
    | Done paths' =>
        ∃ new, paths' = paths ++ new ∧ length new = length ks ∧
               ∀ path d, path ∈ new → d ∈ path → d ∈ decode_dirs
    | Raised err =>
        err = "IndexError" ∧
        ∃ k, k ∈ ks ∧ (starts c !! Z.to_nat k = None ∨ ends c !! Z.to_nat k = None)
    | OutOfFuel => True
    end.
Proof.
  induction ks as [|k ks IH]; intros paths st; cbv zeta; cbn [reconstruct].
  { cbn [ret fst snd]. same_store.
    exists []. rewrite app_nil_r. split; [done|]. split; [done|].
    intros path d Hp. by apply elem_of_nil in Hp. }
  destruct (starts c !! Z.to_nat k) as [s|] eqn:Es.
  2: { cbn [ret fst snd]. same_store. split; [done|]. exists k. split; [by left|by left]. }
  destruct (ends c !! Z.to_nat k) as [e|] eqn:Ee.
  2: { cbn [ret fst snd]. same_store. split; [done|]. exists k. split; [by left|by right]. }
  rewrite bind_run.
  destruct (walk_outcome A k e fuel s [] st) as (Hcl & Hsub & Ht & Hres).
  destruct (walk fuel A k e s [] st) as [r st1]. cbn [fst snd] in *.
  destruct r as [path| |]; [|done|by cbn [ret fst snd]].
  destruct Hres as (suffix & -> & Hd). rewrite app_nil_l.
  destruct (IH (paths ++ [suffix]) st1) as (Hcl1 & Hsub1 & Ht1 & Hres1).
  split; [congruence|]. split; [by etrans|]. split.
  { intros seen [seen1 H1]%Ht. by apply Ht1 in H1. }
  destruct (reconstruct fuel c A ks (paths ++ [suffix]) st1).1 as [paths'|err|]; [| |done].
  - destruct Hres1 as (new & -> & Hlen & Hnew). exists (suffix :: new).
    split; [by rewrite <-app_assoc|]. split; [simpl; lia|].
    intros path d [->|Hp]%elem_of_cons Hdp; [by apply Hd|by eapply Hnew].
  - destruct Hres1 as (-> & k' & Hk' & Hmiss). split; [done|]. exists k'. split; [by right|done].
Qed.

(** X13.  Whatever the solver output, the decoder appends no clause and only
    adds names to the registry.  When it writes, it writes either the line [0]
    or one line per line of the city, [max(K, 0)] of them, each a list of steps
    among [L], [R], [U], [D]; when it raises, the error is the [ValueError] of
    a token that [int] refuses, or the [IndexError] of a line of the city
    without a start or an end. *)
Theorem decode_sat_output_outcome (py_int : string → option Z) (fuel : nat) (c : city)
    (sat_output : option (list string)) (st : store) :
  let r := decode_sat_output py_int fuel c sat_output st in
  clauses r.2 = clauses st ∧ var_map st ⊆ var_map r.2 ∧
  (∀ seen, tracks st seen → ∃ seen', tracks r.2 seen') ∧
  match r.1 with
  | Done text =>
      text = "0" +:+ newline ∨
      ∃ paths, text = metromap paths ∧ len paths = Z.max 0 (K c) ∧
               ∀ path d, path ∈ paths → d ∈ path → d ∈ decode_dirs
  | Raised err =>
      err = "ValueError" ∨
      (err = "IndexError" ∧
       ∃ k, 0 ≤ k < K c ∧ (starts c !! Z.to_nat k = None ∨ ends c !! Z.to_nat k = None))
  | OutOfFuel => True
  end.
Proof.
  cbv zeta. unfold decode_sat_output.
  destruct sat_output as [[|first rest]|];
    [cbn [ret fst snd]; same_store; by left| |cbn [ret fst snd]; same_store; by left].
  destruct (decide (strip first = "UNSAT")); [cbn [ret fst snd]; same_store; by left|].
  destruct (parse_lines py_int rest ∅) as [A|err|] eqn:Hparse;
    [|cbn [ret fst snd]; same_store; left; by eapply parse_lines_raises
     |cbn [ret fst snd]; by same_store].
  rewrite bind_run.
  destruct (reconstruct_outcome A c fuel (range (K c)) [] st) as (Hcl & Hsub & Ht & Hres).
  destruct (reconstruct fuel c A (range (K c)) [] st) as [r st1].
  cbn [fst snd] in *. destruct r as [paths|err|]; cbn [ret fst snd].
  - split; [done|]. split; [done|]. split; [done|].
    right. destruct Hres as (new & -> & Hlen & Hnew).
    exists new. rewrite app_nil_l. split; [done|]. split; [|done].
    unfold len. rewrite Hlen. unfold range. rewrite length_map, length_seq. lia.
  - split; [done|]. split; [done|]. split; [done|].
    right. destruct Hres as (-> & k & Hk%elem_of_range & Hmiss).
    split; [done|]. by exists k.
  - done.
Qed.

(** ** The steps of the walk *)

Lemma id_of_weaken st st' a v :
  var_map st ⊆ var_map st' → var_map st !! var_name a = Some v → id_of st' a = v.
Proof.
  intros Hsub Hv. unfold id_of. by rewrite (lookup_weaken _ _ _ _ Hv Hsub).
Qed.

Lemma walk_follows_from (A : gset Z) k e fuel :
  ∀ p path st seen path' st',
    tracks st seen →
    walk fuel A k e p path st = (Done path', st') →
    ∃ suffix, path' = path ++ suffix ∧
      ∀ (i : nat) d, suffix !! i = Some d →
        d ∈ decode_dirs ∧
        id_of st' (key_D (foldl move p (take i suffix)).1
                         (foldl move p (take i suffix)).2 k d) ∈ A.
Proof.
  induction fuel as [|fuel IH]; intros p path st seen path' st' Ht.
  - rewrite walk_O. destruct (cell_eqb p e); [|done]. intros [= <- <-].
    exists []. rewrite app_nil_r. split; [done|]. intros i d Hi. by destruct i.
  - rewrite walk_S. destruct (cell_eqb p e).
    { intros [= <- <-]. exists []. rewrite app_nil_r. split; [done|].
      intros i d Hi. by destruct i. }
    destruct (first_dir_spec A k p decode_dirs st seen Ht) as (Hsub & _ & [seen1 Ht1] & Hres).
    destruct (first_dir A k p decode_dirs st) as [r st1]. cbn [fst snd] in *.
    destruct r as [[d p']|].
    + destruct Hres as (Hd & -> & v & Hv & Hlook). intros Hw.
      destruct (walk_outcome A k e fuel (move p d) (path ++ [d]) st1) as (_ & Hsub1 & _).
      rewrite Hw in Hsub1. cbn [snd] in Hsub1.
      destruct (IH _ _ _ _ _ _ Ht1 Hw) as (suffix & -> & Hsteps).
      exists (d :: suffix). split; [by rewrite <-app_assoc|].
      intros [|i] d0 Hi.
      * injection Hi as <-. split; [done|]. cbn [take foldl].
        by rewrite (id_of_weaken st1 st' _ v Hsub1 Hlook).
      * cbn [take foldl]. by apply Hsteps.
    + intros [= <- <-]. exists []. rewrite app_nil_r. split; [done|].
      intros i d Hi. by destruct i.
Qed.

(** X14.  From a registry built by the encoder, every step of a path that the
    walk of the decoder returns is one of [L], [R], [U], [D], and the edge
    variable of that direction at the cell where the step is taken, the cell
    the earlier steps lead to from the start, is asserted true; that cell need
    not lie on the grid. *)
Theorem walk_follows_true_edges (A : gset Z) (k : Z) (e s : Z * Z) (fuel : nat)
    (st st' : store) (seen : list string) (path : list string) :
  tracks st seen →
  walk fuel A k e s [] st = (Done path, st') →
  ∀ (i : nat) d, path !! i = Some d →
    d ∈ decode_dirs ∧
    id_of st' (key_D (foldl move s (take i path)).1 (foldl move s (take i path)).2 k d) ∈ A.
Proof.
  intros Ht Hw.
  destruct (walk_follows_from A k e fuel s [] st seen path st' Ht Hw) as (suffix & Hp & Hsteps).
  rewrite app_nil_l in Hp. by subst suffix.
Qed.

(** An instance: on the row of three cells, with the two edges to the
    right asserted, the first step of the line. *)
Lemma walk_follows_true_edges_witness :
  "R" ∈ decode_dirs ∧
  id_of (encoded city_3x1 some_ids) (key_D 0 0 0 "R") ∈ edges_right.
Proof.
  destruct (encode_to_sat_tracks city_3x1 some_ids reset
              (dimacs (encoded city_3x1 some_ids)) (encoded city_3x1 some_ids))
    as [_ [seen Hseen]]; [vm_compute; reflexivity|].
  refine (walk_follows_true_edges edges_right 0 (2, 0) (0, 0) 3
            (encoded city_3x1 some_ids) (encoded city_3x1 some_ids) seen
            ["R"; "R"] Hseen _ 0%nat "R" _).
  - vm_compute. reflexivity.
  - reflexivity.
Defined.

(** ** The parser and the command *)

Lemma read_lines_length py_int lines indices :
  ∀ s e s' e',
    read_lines py_int lines indices s e = Done (s', e') →
    length s' = (length s + length indices)%nat ∧
    length e' = (length e + length indices)%nat ∧
    s `prefix_of` s' ∧ e `prefix_of` e'.
Proof.
  induction indices as [|i indices IH]; intros s e s' e'; simpl.
  - intros [= <- <-]. repeat split; [lia|lia|done|done].
  - destruct (py_item lines (2 + i)) as [line|]; [|done].
    destruct (all_ints py_int (split line)) as [[|sx [|sy [|ex [|ey [|]]]]]|]; try done.
    intros (Hs & He & Ps & Pe)%IH. rewrite length_app in Hs, He. simpl in Hs, He.
    repeat split; [lia|lia| |].
    + etrans; [|exact Ps]. by apply prefix_app_r.
    + etrans; [|exact Pe]. by apply prefix_app_r.
Qed.

Lemma read_popular_length coords indices :
  ∀ p p',
    read_popular coords indices p = Done p' →
    length p' = (length p + length indices)%nat ∧ p `prefix_of` p'.
Proof.
  induction indices as [|i indices IH]; intros p p'; simpl.
  - intros [= <-]. split; [lia|done].
  - destruct (py_item coords (2 * i)) as [x|]; [|done].
    destruct (py_item coords (2 * i + 1)) as [y|]; [|done].
    intros (Hp & Pp)%IH. rewrite length_app in Hp. simpl in Hp.
    split; [lia|]. etrans; [|exact Pp]. by apply prefix_app_r.
Qed.

Lemma length_range n : len (range n) = Z.max 0 n.
Proof. unfold len, range. rewrite length_map, length_seq. lia. Qed.

(** What a successful parse has read. *)
Lemma parse_input_Done py_int self file c :
  parse_input py_int self file = Done c →
  len (starts c) = len (starts self) + Z.max 0 (K c) ∧
  len (ends c) = len (ends self) + Z.max 0 (K c) ∧
  starts self `prefix_of` starts c ∧ ends self `prefix_of` ends c ∧
  (scenario c = 1 → P c = 0) ∧
  (scenario c ≠ 2 → popular c = popular self) ∧
  (scenario c = 2 →
     len (popular c) = len (popular self) + Z.max 0 (P c) ∧
     popular self `prefix_of` popular c).
Proof.
  unfold parse_input. cbv zeta.
  set (lines := filter _ _).
  destruct (py_item lines 0) as [line0|]; [|done].
  destruct (py_int line0) as [sc|]; [|done].
  destruct (py_item lines 1) as [line1|]; [|done].
  destruct (all_ints py_int (split line1)) as [params|]; [|done].
  assert (∀ n m k j p s' e',
    read_lines py_int lines (range k) (starts self) (ends self) = Done (s', e') →
    (sc = 1 → p = 0) →
    (if sc =? 2 then
       match py_item lines (2 + k) with
       | None => Raised "IndexError"
       | Some line =>
           match all_ints py_int (split line) with
           | None => Raised "ValueError"
           | Some popular_coords =>
               match read_popular popular_coords (range p) (popular self) with
               | Raised err => Raised err
               | OutOfFuel => OutOfFuel
               | Done popular' =>
                   Done {| scenario := sc; N := n; M := m; K := k; J := j; P := p;
                           starts := s'; ends := e'; popular := popular' |}
               end
           end
       end
     else
       Done {| scenario := sc; N := n; M := m; K := k; J := j; P := p;
               starts := s'; ends := e'; popular := popular self |}) = Done c →
    len (starts c) = len (starts self) + Z.max 0 (K c) ∧
    len (ends c) = len (ends self) + Z.max 0 (K c) ∧
    starts self `prefix_of` starts c ∧ ends self `prefix_of` ends c ∧
    (scenario c = 1 → P c = 0) ∧
    (scenario c ≠ 2 → popular c = popular self) ∧
    (scenario c = 2 →
       len (popular c) = len (popular self) + Z.max 0 (P c) ∧
       popular self `prefix_of` popular c)) as Hrest.
  { intros n m k j p s' e' (Hs & He & Ps & Pe)%read_lines_length HP.
    pose proof (length_range k) as Hk. unfold len in *.
    destruct (Z.eqb_spec sc 2) as [->|Hne].
    - destruct (py_item lines (2 + k)) as [line|]; [|done].
      destruct (all_ints py_int (split line)) as [coords|]; [|done].
      destruct (read_popular coords (range p) (popular self)) as [pop| |] eqn:Ep; [|done..].
      intros [= <-]. simpl. apply read_popular_length in Ep as [Hp Pp].
      pose proof (length_range p) as Hlp. unfold len in Hlp.
      repeat split; try done; try lia.
    - intros [= <-]. simpl. repeat split; try done; lia. }
  destruct (Z.eqb_spec sc 1) as [->|Hne1].
  - destruct params as [|n [|m [|k [|j [|]]]]]; try done.
    destruct (read_lines py_int lines (range k) (starts self) (ends self))
      as [[s' e']| |] eqn:E; [|done..].
    apply (Hrest n m k j 0 s' e' E). done.
  - destruct params as [|n [|m [|k [|j [|p [|]]]]]]; try done.
    destruct (read_lines py_int lines (range k) (starts self) (ends self))
      as [[s' e']| |] eqn:E; [|done..].
    apply (Hrest n m k j p s' e' E). done.
Qed.

(** With a start and an end for every line, the encoder returns. *)
Lemma complete_encodes c ids st :
  K c ≤ 0 ∨ (K c ≤ len (starts c) ∧ K c ≤ len (ends c)) →
  ∃ text st', encode_to_sat c ids st = Some (text, st').
Proof.
  intros H0. pose proof (proj2 (lines_known c) H0) as H. unfold encode_to_sat.
  set (st1 := exec (encode_cell_constraints c) _).
  destruct (proj2 (for_lines_is_Some c (range (K c)) (path_line c) st1) H) as [st2 E2].
  destruct (proj2 (for_lines_is_Some c (range (K c)) (turn_line c ids) st2) H) as [st3 E3].
  unfold encode_path_constraints, encode_turn_constraints. rewrite E2. simpl. rewrite E3. simpl.
  by eexists _, _.
Qed.

(** With a start and an end for every line, the decoder raises only
    for a token that [int] refuses. *)
Lemma complete_decodes py_int fuel c sat_output st err :
  K c ≤ 0 ∨ (K c ≤ len (starts c) ∧ K c ≤ len (ends c)) →
  (decode_sat_output py_int fuel c sat_output st).1 = Raised err → err = "ValueError".
Proof.
  intros H0. pose proof (proj2 (lines_known c) H0) as H. unfold decode_sat_output.
  destruct sat_output as [[|first rest]|]; [done| |done].
  destruct (decide (strip first = "UNSAT")); [done|].
  destruct (parse_lines py_int rest ∅) as [A|err'|] eqn:E; [| |done].
  - rewrite bind_run.
    pose proof (reconstruct_outcome A c fuel (range (K c)) [] st) as (_ & _ & _ & Hres).
    destruct (reconstruct fuel c A (range (K c)) [] st) as [r st1]. cbn [fst snd] in *.
    destruct r as [paths|err'|]; cbn [ret fst]; [done| |done].
    intros [= ->]. destruct Hres as (_ & k & Hk & Hmiss).
    destruct (H k Hk) as [[s Hs] [e He]]. destruct Hmiss; congruence.
  - cbn [ret fst]. intros [= ->]. by eapply parse_lines_raises.
Qed.

(** X15.  A successful parse appends to the planner one start and one end
    per line of the city ([max(K, 0)] of each) and, in scenario 2, [max(P, 0)]
    popular cells; in scenario 1 it sets [P] to 0, and outside scenario 2 it
    leaves the popular cells alone.  On a planner without starts or ends, as
    [__init__] builds it, the city it leaves is one on which the encoder
    returns, and on which the decoder raises at most the [ValueError] of a
    token: the [IndexError] of a missing start or end cannot occur. *)
Theorem parse_input_feeds_encoder (py_int : string → option Z) (self : city)
    (file : list string) (c : city) :
  parse_input py_int self file = Done c →
  len (starts c) = len (starts self) + Z.max 0 (K c) ∧
  len (ends c) = len (ends self) + Z.max 0 (K c) ∧
  starts self `prefix_of` starts c ∧ ends self `prefix_of` ends c ∧
  (scenario c = 1 → P c = 0) ∧
  (scenario c ≠ 2 → popular c = popular self) ∧
  (scenario c = 2 →
     len (popular c) = len (popular self) + Z.max 0 (P c) ∧
     popular self `prefix_of` popular c) ∧
  (starts self = [] → ends self = [] →
     (∀ ids st, ∃ text st', encode_to_sat c ids st = Some (text, st')) ∧
     (∀ fuel sat_output st err,
        (decode_sat_output py_int fuel c sat_output st).1 = Raised err →
        err = "ValueError")).
Proof.
  intros Hparse.
  destruct (parse_input_Done py_int self file c Hparse) as (Hs & He & Ps & Pe & HP & Hn2 & H2).
  repeat (split; [done|]).
  intros Es Ee. rewrite Es in Hs. rewrite Ee in He.
  assert (K c ≤ 0 ∨ (K c ≤ len (starts c) ∧ K c ≤ len (ends c))) as Hfull.
  { change (len (@nil (Z * Z))) with 0 in Hs, He. lia. }
  split.
  - intros ids st. by apply complete_encodes.
  - intros fuel sat_output st err. by apply complete_decodes.
Qed.

(** An instance: the file of two cells side by side. *)
Lemma parse_input_feeds_encoder_witness :
  len (starts city_2x1) = len (starts init_city) + Z.max 0 (K city_2x1).
Proof.
  refine (proj1 (parse_input_feeds_encoder int_of_token init_city file_2x1 city_2x1 _)).
  vm_compute. reflexivity.
Defined.

(** X16.  The command, given a base name and its city file: when the parse
    succeeds the encoder returns and its text is the first file written,
    [basename.satinput], also when the decoder fails afterwards; without a
    solver output nothing else is written and the command ends normally; and
    the command ends with an [IndexError] only if the parser raised it. *)
Theorem main_outcome (py_int : string → option Z) (ids : Z → Z) (fuel : nat)
    (prog basename : string) (fs : string → option (list string)) (file : list string) :
  fs (basename +:+ ".city") = Some file →
  let r := main py_int ids fuel [prog; basename] fs in
  (∀ c, parse_input py_int init_city file = Done c →
        ∃ text st rest,
          encode_to_sat c ids reset = Some (text, st) ∧
          r.1 = (basename +:+ ".satinput", text) :: rest ∧
          (fs (basename +:+ ".satoutput") = None → rest = [] ∧ r.2 = Done tt) ∧
          (∀ name t, (name, t) ∈ rest → name = basename +:+ ".metromap")) ∧
  (r.2 = Raised "IndexError" → parse_input py_int init_city file = Raised "IndexError").
Proof.
  intros Hfile. cbv zeta. unfold main. rewrite Hfile.
  destruct (parse_input py_int init_city file) as [c|err|] eqn:Hparse.
  - destruct (parse_input_Done py_int init_city file c Hparse) as (Hs & He & _).
    assert (K c ≤ 0 ∨ (K c ≤ len (starts c) ∧ K c ≤ len (ends c))) as Hfull.
    { change (len (starts init_city)) with 0 in Hs.
      change (len (ends init_city)) with 0 in He. lia. }
    destruct (complete_encodes c ids reset Hfull) as (text & st & Henc). rewrite Henc.
    destruct (fs (basename +:+ ".satoutput")) as [lines|] eqn:Hsat.
    + pose proof (complete_decodes py_int fuel c (Some lines) st) as Hdec.
      destruct (decode_sat_output py_int fuel c (Some lines) st).1 as [t|err|];
        cbn [fst snd].
      * split; [|done]. intros c' [= <-]. eexists text, st, _. split; [done|].
        split; [done|]. split; [done|].
        intros name t' [= -> ->]%list_elem_of_singleton. done.
      * split.
        -- intros c' [= <-]. exists text, st, []. split; [done|]. split; [done|].
           split; [done|]. intros name t' Hin. by apply elem_of_nil in Hin.
        -- intros [= ->]. by specialize (Hdec _ Hfull eq_refl).
      * split; [|done]. intros c' [= <-]. exists text, st, []. split; [done|].
        split; [done|]. split; [done|]. intros name t' Hin. by apply elem_of_nil in Hin.
    + cbn [fst snd]. split; [|done]. intros c' [= <-]. exists text, st, [].
      split; [done|]. split; [done|]. split; [done|].
      intros name t' Hin. by apply elem_of_nil in Hin.
  - cbn [fst snd]. split; [done|]. by intros [= ->].
  - cbn [fst snd]. split; done.
Qed.

(** An instance: the directory with the city file of two cells. *)
Lemma main_outcome_witness :
  ∃ text st rest,
    encode_to_sat city_2x1 some_ids reset = Some (text, st) ∧
    (main int_of_token some_ids 0 ["planner"; "two"] fs_2x1).1
    = ("two" +:+ ".satinput", text) :: rest ∧
    (fs_2x1 ("two" +:+ ".satoutput") = None →
     rest = [] ∧ (main int_of_token some_ids 0 ["planner"; "two"] fs_2x1).2 = Done tt) ∧
    (∀ name t, (name, t) ∈ rest → name = "two" +:+ ".metromap").
Proof.
  refine (proj1 (main_outcome int_of_token some_ids 0 "planner" "two" fs_2x1 file_2x1 _)
                city_2x1 _).
  - vm_compute. reflexivity.
  - vm_compute. reflexivity.
Defined.
